(** * MechWolf: the procedure builder and the timeline compiler

    A shallow embedding of [mechwolf/core/protocol.py] (class [Protocol]):
    [_add_single], [_inferred_duration], [compile], [to_list] and
    [clear_procedures], together with the statements the specification
    makes about them.

    Conventions of the embedding.
    - A Python [float] holding a time in seconds is a rational [Q].  The
      compiler only copies and compares times ([==], [<], [math.isclose]);
      finite floats are rationals and are ordered as such.  Not-a-number and
      the infinities are outside the model.
    - A Python [dict] whose iteration order is observable ([kwargs], the
      compiled output) is an association list in insertion order.
    - The procedure records are mutable dictionaries shared between
      [self.procedures] and the sorted per-component list built by
      [compile].  A record is therefore identified by its position in
      [self.procedures]; the per-component list holds positions, and an
      assignment [procedure["stop"] = v] updates the store at that position.
    - A raised exception is a value of [error]; the state reached when the
      exception was raised is kept, as in Python. *)

From stdpp Require Import base strings list sorting.
From Stdlib Require Import QArith Qabs.

Open Scope string_scope.
Open Scope Q_scope.
Open Scope list_scope.

(** ** Python values *)

Inductive pyval :=
| VNone
| VBool (b : bool)
| VInt (z : Z)
| VFloat (q : Q)
| VStr (s : string).

Inductive pytype := TNoneType | TBool | TInt | TFloat | TStr.

Definition type_of (v : pyval) : pytype :=
  match v with
  | VNone => TNoneType
  | VBool _ => TBool
  | VInt _ => TInt
  | VFloat _ => TFloat
  | VStr _ => TStr
  end.

#[global] Instance Q_eq_dec : EqDecision Q.
Proof. solve_decision. Defined.
#[global] Instance pyval_eq_dec : EqDecision pyval.
Proof. solve_decision. Defined.
#[global] Instance pytype_eq_dec : EqDecision pytype.
Proof. solve_decision. Defined.

(** [isinstance(x, T)] where [x] has exact type [ta]: [bool] is a subclass
    of [int], the other types modelled are unrelated. *)
Definition py_isinstance (ta t : pytype) : bool :=
  bool_decide (ta = t) || (bool_decide (ta = TBool) && bool_decide (t = TInt)).

(** Truth value of a Python object, as tested by [not x] and [if x]. *)
Definition truthy (v : pyval) : bool :=
  match v with
  | VNone => false
  | VBool b => b
  | VInt z => negb (Z.eqb z 0)
  | VFloat q => negb (Qeq_bool q 0)
  | VStr s => negb (bool_decide (s = ""))
  end.

(** ** Dictionaries in insertion order *)

Abbreviation dict V := (list (string * V)).
Abbreviation kwargs := (list (string * pyval)).

Fixpoint dict_lookup {V} (k : string) (d : dict V) : option V :=
  match d with
  | [] => None
  | (k', v) :: d' => if bool_decide (k' = k) then Some v else dict_lookup k d'
  end.

(** [d[k] = v]: an existing key keeps its place, a new key goes last. *)
Fixpoint dict_set {V} (k : string) (v : V) (d : dict V) : dict V :=
  match d with
  | [] => [(k, v)]
  | (k', v') :: d' =>
      if bool_decide (k' = k) then (k, v) :: d' else (k', v') :: dict_set k v d'
  end.

(** [kwargs.get(k)]: a missing key reads as [None]. *)
Definition kwargs_get (k : string) (kw : kwargs) : pyval :=
  default VNone (dict_lookup k kw).

(** ** Times *)

(** [math.isclose(a, b)] with the default [rel_tol=1e-09], [abs_tol=0.0]. *)
Definition rel_tol : Q := 1 # 1000000000.
Definition abs_tol : Q := 0.

Definition isclose (a b : Q) : bool :=
  Qeq_bool a b
  || (let diff := Qabs (b - a) in
      Qle_bool diff (Qabs (rel_tol * b))
      || Qle_bool diff (Qabs (rel_tol * a))
      || Qle_bool diff abs_tol).

(** [a < b] on floats. *)
Definition Qlt_bool (a b : Q) : bool := negb (Qle_bool b a).

(** ** Sorting

    [sorted(l, key=f)] is stable.  The stable sorted arrangement of a list
    is unique, so insertion from the right, which places an element before
    the first element that is not smaller, computes it. *)
Section Sorted.
Context {A : Type} (key : A → Q).

Fixpoint insert_by (x : A) (l : list A) : list A :=
  match l with
  | [] => [x]
  | y :: l' =>
      if Qlt_bool (key y) (key x) then y :: insert_by x l' else x :: y :: l'
  end.

Fixpoint sorted_by (l : list A) : list A :=
  match l with
  | [] => []
  | x :: l' => insert_by x (sorted_by l')
  end.
End Sorted.

(** ** Components and the apparatus

    The component classes and [Apparatus] are collaborators of
    [protocol.py]; the fields below are what [Protocol] reads from them. *)

(** The kind of the current value of an instance attribute: a
    [ureg.Quantity] of some dimensionality, or a value of a plain type. *)
Inductive attr_kind :=
| AQuantity (dimensionality : string)
| AValue (t : pytype).

#[global] Instance attr_kind_eq_dec : EqDecision attr_kind.
Proof. solve_decision. Defined.

Record Component := {
  cid : nat;                             (* identity of the object *)
  name : string;
  valve_mapping : option (dict pyval);   (* [Some mapping] iff a [Valve] *)
  is_temp_control : bool;                (* subclass of [TempControl] *)
  inst_dict : dict attr_kind;            (* [component.__dict__] *)
  class_attrs : list string;             (* seen by [hasattr] only *)
  valid_dry : bool;                      (* [validate(dry_run=True)] *)
  valid_live : bool;                     (* [validate(dry_run=False)] *)
  base_state : kwargs                    (* [base_state()] *)
}.

#[global] Instance Component_eq_dec : EqDecision Component.
Proof. solve_decision. Defined.

Definition validate (c : Component) (dry_run : bool) : bool :=
  if dry_run then valid_dry c else valid_live c.

Definition hasattr (c : Component) (attr : string) : bool :=
  bool_decide (is_Some (dict_lookup attr (inst_dict c)))
  || bool_decide (attr ∈ class_attrs c).

Record Apparatus := {
  app_name : string;
  components : list Component;
  _active_components : list Component
}.

(** ** Procedure records and the protocol *)

Record procedure := {
  start : option Q;
  stop : option Q;
  component : Component;
  params : kwargs
}.

#[global] Instance procedure_eq_dec : EqDecision procedure.
Proof. solve_decision. Defined.

Record Protocol := {
  apparatus : Apparatus;
  procedures : list procedure;
  is_executing : bool;
  was_executed : bool
}.

Definition with_procedures (l : list procedure) (self : Protocol) : Protocol :=
  {| apparatus := apparatus self;
     procedures := l;
     is_executing := is_executing self;
     was_executed := was_executed self |}.

(** ** Exceptions and advisories

    [protocol.py] raises [RuntimeError] and [ValueError] with a message; the
    specification names each raise site.  The constructors are the names of
    the specification's taxonomy, followed by the exceptions that the
    Python runtime or the quantity library raise on their own. *)
Inductive error :=
| UnknownDeviceError             (* ValueError, "is not a component of" *)
| EmptyInstructionError          (* RuntimeError, "No kwargs supplied" *)
| UnknownAttributeError          (* ValueError, "Invalid attribute" *)
| DimensionalityError            (* ValueError, "Bad dimensionality" *)
| TypeMismatchError              (* ValueError, "Bad type matching" *)
| UnknownSettingError            (* no raise site in [protocol.py] *)
| MissingTemperatureError        (* RuntimeError, "is activated but" *)
| ConflictingTimeSpecError       (* RuntimeError, "one of stop and duration" *)
| InvertedIntervalError          (* ValueError, "beginning is after" *)
| DuplicateDeviceNameError       (* RuntimeError, "duplicate names" *)
| InvalidDeviceError             (* RuntimeError, "Component is not valid" *)
| ConflictingWholeDurationError  (* RuntimeError, "cannot have two procedures" *)
| AmbiguousStartError            (* RuntimeError, "Ambiguous start time" *)
| UnresolvableDurationError      (* RuntimeError, "Unable to automatically infer" *)
| ProtocolExecutedError          (* RuntimeError, "Unable to clear" *)
| PyTypeError                    (* TypeError raised by the interpreter *)
| PyKeyError                     (* KeyError raised by the interpreter *)
| QuantityError                  (* raised inside the quantity library *)
| DanglingReference.             (* a position outside the store; never raised *)

Inductive pyexception := RuntimeError | ValueError | TypeError | KeyError | OtherError.

Definition exception_class (e : error) : pyexception :=
  match e with
  | UnknownDeviceError | UnknownAttributeError | DimensionalityError
  | TypeMismatchError | InvertedIntervalError => ValueError
  | EmptyInstructionError | MissingTemperatureError | ConflictingTimeSpecError
  | DuplicateDeviceNameError | InvalidDeviceError | ConflictingWholeDurationError
  | AmbiguousStartError | UnresolvableDurationError | ProtocolExecutedError =>
      RuntimeError
  | PyTypeError => TypeError
  | PyKeyError => KeyError
  | UnknownSettingError | QuantityError | DanglingReference => OtherError
  end.

Inductive advisory :=
| UnusedComponent (c : Component)
| StopInferredFromNext (c : Component)
| StopInferredAsEnd (c : Component).

(** ** The state and exception monad *)

Record world := {
  self : Protocol;
  warnings : list advisory
}.

Inductive result (A : Type) :=
| Ok (a : A)
| Raise (e : error).
Arguments Ok {A} a.
Arguments Raise {A} e.

Definition M (A : Type) : Type := world → result A * world.

#[global] Instance M_ret : MRet M := λ A a w, (Ok a, w).
#[global] Instance M_bind : MBind M := λ A B f m w,
  match m w with
  | (Ok a, w') => f a w'
  | (Raise e, w') => (Raise e, w')
  end.

Definition raise {A} (e : error) : M A := λ w, (Raise e, w).

Definition warn (a : advisory) : M unit := λ w,
  (Ok (), {| self := self w; warnings := warnings w ++ [a] |}).

Definition get_self : M Protocol := λ w, (Ok (self w), w).

Definition put_procedures (l : list procedure) : M unit := λ w,
  (Ok (), {| self := with_procedures l (self w); warnings := warnings w |}).

(** The record at position [i] of [self.procedures]. *)
Definition deref (i : nat) : M procedure :=
  p ← get_self;
  match procedures p !! i with
  | Some r => mret r
  | None => raise DanglingReference
  end.

Definition with_stop (v : option Q) (r : procedure) : procedure :=
  {| start := start r; stop := v; component := component r; params := params r |}.

(** [procedure["stop"] = v] for the record at position [i]. *)
Definition set_stop (i : nat) (v : option Q) : M unit :=
  p ← get_self;
  put_procedures (alter (with_stop v) i (procedures p)).

(** ** The timeline compiler *)

(** The sort key [x["start"]] of a reference, when it is a float. *)
Definition start_key (x : nat * procedure) : Q := default 0 (start x.2).

(** [sorted(refs, key=lambda x: x["start"])].  The keys are floats or
    [None]; ordering [None] against anything raises [TypeError], and with
    two or more elements every key takes part in a comparison.  A list of
    at most one element is returned without any comparison. *)
Definition sorted_by_start (refs : list (nat * procedure)) : result (list (nat * procedure)) :=
  if bool_decide (length refs ≤ 1)%nat then Ok refs
  else if forallb (λ x, bool_decide (is_Some (start x.2))) refs
       then Ok (sorted_by start_key refs)
       else Raise PyTypeError.

(** [[x for x in self.procedures if x["component"] == component]]: each
    record with its position in [self.procedures]. *)
Definition refs_of (c : Component) (l : list procedure) : list (nat * procedure) :=
  filter (λ x, component x.2 = c) (imap pair l).

(** The records of [self.procedures] whose component is [c], as positions,
    in the order of [sorted]. *)
Definition component_procedures (c : Component) : M (list nat) :=
  p ← get_self;
  match sorted_by_start (refs_of c (procedures p)) with
  | Ok l => mret (fst <$> l)
  | Raise e => raise e
  end.

(** [Protocol._inferred_duration] *)
Definition _inferred_duration : M (option Q) :=
  p ← get_self;
  let computed_durations :=
    sorted_by (λ z : option Q, default 0 z) (stop <$> procedures p) in
  if forallb (λ x : option Q, bool_decide (x = None)) computed_durations
  then raise UnresolvableDurationError
  else mret (default None (last computed_durations)).

(** [x == 0] for a float or [None]. *)
Definition eq_zero (x : option Q) : bool :=
  match x with
  | Some q => Qeq_bool q 0
  | None => false
  end.

(** The body of the loop "automatically infer start and stop times" for
    the record at position [i]; [successor] is [component_procedures[i + 1]],
    and [None] stands for the [IndexError] branch. *)
Definition infer_stop (c : Component) (i : nat) (successor : option nat) : M unit :=
  procedure ← deref i;
  match successor with
  | Some j =>
      next ← deref j;
      if eq_zero (start next) then raise AmbiguousStartError
      else if bool_decide (start next ≠ None) && bool_decide (stop procedure = None)
      then warn (StopInferredFromNext c);; set_stop i (start next)
      else mret ()
  | None =>
      if bool_decide (stop procedure = None)
      then warn (StopInferredAsEnd c);;
           d ← _inferred_duration;
           set_stop i d
      else mret ()
  end.

(** [for i, procedure in enumerate(component_procedures)] *)
Fixpoint infer_stops (c : Component) (cps : list nat) : M unit :=
  match cps with
  | [] => mret ()
  | i :: rest => infer_stop c i (head rest);; infer_stops c rest
  end.

(** A compiled instruction, in execution form or in visualization form. *)
Inductive instruction :=
| Exec (time : option Q) (ps : kwargs)
| Viz (start_ stop_ : option Q) (ps : kwargs).

#[global] Instance instruction_eq_dec : EqDecision instruction.
Proof. solve_decision. Defined.

(** [isclose] applied to values that may be [None]. *)
Definition py_isclose (a b : option Q) : M bool :=
  match a, b with
  | Some x, Some y => mret (isclose x y)
  | _, _ => raise PyTypeError
  end.

(** The body of the loop "give the component instructions at all times"
    for the record at position [i]: the list [compiled] after the appends. *)
Definition emit_procedure (_visualization : bool) (c : Component) (i : nat)
    (successor : option nat) (compiled : list instruction) : M (list instruction) :=
  procedure ← deref i;
  if _visualization then
    mret (compiled ++ [Viz (start procedure) (stop procedure) (params procedure)])
  else
    let compiled := compiled ++ [Exec (start procedure) (params procedure)] in
    continue ←
      match successor with
      | Some j => next ← deref j; py_isclose (start next) (stop procedure)
      | None => mret false
      end;
    if continue : bool then mret compiled
    else mret (compiled ++ [Exec (stop procedure) (base_state c)]).

Fixpoint emit (_visualization : bool) (c : Component) (cps : list nat)
    (compiled : list instruction) : M (list instruction) :=
  match cps with
  | [] => mret compiled
  | i :: rest =>
      compiled ← emit_procedure _visualization c i (head rest) compiled;
      emit _visualization c rest compiled
  end.

(** The compiled output, a dictionary keyed by component. *)
Abbreviation timelines := (list (Component * list instruction)).

Fixpoint output_lookup (c : Component) (output : timelines) : option (list instruction) :=
  match output with
  | [] => None
  | (c', v) :: o => if bool_decide (c' = c) then Some v else output_lookup c o
  end.

Fixpoint output_set (c : Component) (v : list instruction) (output : timelines) : timelines :=
  match output with
  | [] => [(c, v)]
  | (c', v') :: o =>
      if bool_decide (c' = c) then (c, v) :: o else (c', v') :: output_set c v o
  end.

(** The number of records with neither boundary set. *)
Definition whole_duration_count (rs : list procedure) : nat :=
  length (filter (λ x, start x = None ∧ stop x = None) rs).

(** The body of [for component in self.apparatus._active_components]. *)
Fixpoint compile_components (dry_run _visualization : bool)
    (cs : list Component) (output : timelines) : M timelines :=
  match cs with
  | [] => mret output
  | c :: cs' =>
      cps ← component_procedures c;
      if bool_decide (length cps = 0)%nat then
        warn (UnusedComponent c);;
        compile_components dry_run _visualization cs' output
      else if negb (validate c dry_run) then raise InvalidDeviceError
      else
        p ← get_self;
        let rs := omap (λ i, procedures p !! i) cps in
        if bool_decide (1 < whole_duration_count rs)%nat
        then raise ConflictingWholeDurationError
        else
          infer_stops c cps;;
          compiled ← emit _visualization c cps [];
          compile_components dry_run _visualization cs' (output_set c compiled output)
  end.

(** [Protocol.compile] *)
Definition compile (dry_run _visualization : bool) : M timelines :=
  p ← get_self;
  let active := _active_components (apparatus p) in
  if bool_decide (length (remove_dups (name <$> active)) ≠ length active)
  then raise DuplicateDeviceNameError
  else compile_components dry_run _visualization active [].

(** Running a method on a protocol, with no advisory pending. *)
Definition run {A} (m : M A) (p : Protocol) : result A * world :=
  m {| self := p; warnings := [] |}.

(** [Protocol.to_list]: a copy of the records with the component replaced
    by its name. *)
Record exported := {
  e_start : option Q;
  e_stop : option Q;
  e_component : string;
  e_params : kwargs
}.

Definition export (r : procedure) : exported :=
  {| e_start := start r;
     e_stop := stop r;
     e_component := name (component r);
     e_params := params r |}.

Definition to_list : M (list exported) :=
  p ← get_self;
  mret (export <$> procedures p).

(** [Protocol.clear_procedures] *)
Definition clear_procedures : M unit :=
  p ← get_self;
  if negb (was_executed p) || is_executing p
  then put_procedures []
  else raise ProtocolExecutedError.

(** ** The procedure builder *)

(** A parsed [ureg.Quantity]: its magnitude in base units and its
    dimensionality. *)
Record quantity := {
  base_magnitude : Q;
  dimensionality : string
}.

(** A time argument of [add]: a [datetime.timedelta] or an expression. *)
Inductive timearg :=
| Timedelta (total_seconds : Q)
| TimeExpr (s : string).

Section Builder.
(** [ureg.parse_expression], the quantity parser; [None] when it raises
    or returns something without a dimensionality. *)
Variable parse_expression : pyval → option quantity.

Definition parse (v : pyval) : M quantity :=
  match parse_expression v with
  | Some q => mret q
  | None => raise QuantityError
  end.

(** A [timedelta] is rewritten to [str(total_seconds) + " seconds"] and
    parsed, which gives that many seconds. *)
Definition parse_time (t : timearg) : M quantity :=
  match t with
  | Timedelta s => mret {| base_magnitude := s; dimensionality := "[time]" |}
  | TimeExpr s => parse (VStr s)
  end.

(** [a + b] and [a > b] on quantities: the dimensionalities must agree. *)
Definition quantity_add (a b : quantity) : M quantity :=
  if bool_decide (dimensionality a = dimensionality b)
  then mret {| base_magnitude := base_magnitude a + base_magnitude b;
               dimensionality := dimensionality a |}
  else raise QuantityError.

Definition quantity_gt (a b : quantity) : M bool :=
  if bool_decide (dimensionality a = dimensionality b)
  then mret (Qlt_bool (base_magnitude b) (base_magnitude a))
  else raise QuantityError.

(** "perform the mapping for valves".  The keys of [component.mapping]
    are symbolic names; a [KeyError] is swallowed and leaves [kwargs]
    as it is. *)
Definition map_valve_setting (c : Component) (kw : kwargs) : kwargs :=
  match valve_mapping c with
  | Some mapping =>
      match kwargs_get "setting" kw with
      | VNone => kw
      | VStr s =>
          match dict_lookup s mapping with
          | Some raw => dict_set "setting" raw kw
          | None => kw
          end
      | _ => kw
      end
  | None => kw
  end.

(** The body of [for kwarg, value in kwargs.items()]. *)
Definition check_kwarg (c : Component) (kwarg : string) (value : pyval) : M unit :=
  if negb (hasattr c kwarg) then raise UnknownAttributeError
  else
    match dict_lookup kwarg (inst_dict c) with
    | None => raise PyKeyError
    | Some (AQuantity d) =>
        q ← parse value;
        if bool_decide (dimensionality q ≠ d) then raise DimensionalityError
        else mret ()
    | Some (AValue t) =>
        if negb (py_isinstance t (type_of value)) then raise TypeMismatchError
        else mret ()
    end.

Fixpoint check_kwargs (c : Component) (items : kwargs) : M unit :=
  match items with
  | [] => mret ()
  | (kwarg, value) :: items' => check_kwarg c kwarg value;; check_kwargs c items'
  end.

(** "a little magic for temperature controllers" *)
Definition temp_control_magic (kw : kwargs) : M kwargs :=
  if bool_decide (kwargs_get "temp" kw ≠ VNone)
     && bool_decide (kwargs_get "active" kw = VNone)
  then mret (dict_set "active" (VBool true) kw)
  else if negb (truthy (kwargs_get "active" kw))
          && bool_decide (kwargs_get "temp" kw = VNone)
  then mret (dict_set "temp" (VStr "0 degC") kw)
  else
    match dict_lookup "active" kw with
    | None => raise PyKeyError
    | Some active =>
        if truthy active && bool_decide (kwargs_get "temp" kw = VNone)
        then raise MissingTemperatureError
        else mret kw
    end.

(** [Protocol._add_single] up to the check "Procedure beginning is after
    procedure end": the checks on the component and on [kwargs] and the
    parsing of the times.  It returns [kwargs] after the valve mapping
    and the parsed [start] and [stop]. *)
Definition check_request (c : Component) (start_ : timearg)
    (stop_ duration : option timearg) (kw : kwargs)
    : M (kwargs * quantity * option quantity) :=
  p ← get_self;
  if negb (bool_decide (c ∈ components (apparatus p))) then raise UnknownDeviceError
  else
    let kw := map_valve_setting c kw in
    if bool_decide (kw = []) then raise EmptyInstructionError
    else
      check_kwargs c kw;;
      if bool_decide (stop_ ≠ None) && bool_decide (duration ≠ None)
      then raise ConflictingTimeSpecError
      else
        qstart ← parse_time start_;
        qstop ← match duration, stop_ with
                | Some d, _ => qd ← parse_time d;
                               s ← quantity_add qstart qd;
                               mret (Some s)
                | None, Some s => qs ← parse_time s; mret (Some qs)
                | None, None => mret None
                end;
        inverted ← match qstop with
                   | Some qs => quantity_gt qstart qs
                   | None => mret false
                   end;
        if inverted : bool then raise InvertedIntervalError
        else mret (kw, qstart, qstop).

(** The record that [_add_single] appends. *)
Definition new_record (c : Component) (qstart : quantity)
    (qstop : option quantity) (kw : kwargs) : procedure :=
  {| start := Some (base_magnitude qstart);
     stop := base_magnitude <$> qstop;
     component := c;
     params := kw |}.

(** [Protocol._add_single] *)
Definition _add_single (c : Component) (start_ : timearg)
    (stop_ duration : option timearg) (kw : kwargs) : M unit :=
  '(kw, qstart, qstop) ← check_request c start_ stop_ duration kw;
  kw ← (if is_temp_control c then temp_control_magic kw else mret kw);
  p ← get_self;
  put_procedures (procedures p ++ [new_record c qstart qstop kw]).

(** [Protocol.add] for a list of components. *)
Fixpoint add (cs : list Component) (start_ : timearg)
    (stop_ duration : option timearg) (kw : kwargs) : M unit :=
  match cs with
  | [] => mret ()
  | c :: cs' =>
      _add_single c start_ stop_ duration kw;; add cs' start_ stop_ duration kw
  end.
End Builder.

(** * Predicates used by the statements *)

(** What [compile] may change in a record: nothing but a [stop] that was
    [None]. *)
Definition frame_record (r r' : procedure) : Prop :=
  start r' = start r ∧ component r' = component r ∧ params r' = params r
  ∧ (stop r' = stop r ∨ stop r = None).

Definition frame (l l' : list procedure) : Prop := Forall2 frame_record l l'.

Definition protocol_frame (p p' : Protocol) : Prop :=
  apparatus p' = apparatus p ∧ is_executing p' = is_executing p
  ∧ was_executed p' = was_executed p ∧ frame (procedures p) (procedures p').

(** The time at which a compiled instruction applies. *)
Definition instruction_time (x : instruction) : option Q :=
  match x with
  | Exec t _ => t
  | Viz s _ _ => s
  end.

(** Both times are defined and the first is strictly earlier. *)
Definition time_lt (x y : instruction) : Prop :=
  ∃ a b, instruction_time x = Some a ∧ instruction_time y = Some b ∧ a < b.

Definition strictly_increasing (tl : list instruction) : Prop :=
  StronglySorted time_lt tl.

(** Every instruction of [tl] has a time, not before [s]. *)
Definition not_before (s : Q) (tl : list instruction) : Prop :=
  Forall (λ y, ∃ t, instruction_time y = Some t ∧ s <= t) tl.

(** [emit_procedure] and [emit] on the records themselves, for the
    proofs: [r] is the record and [next] its successor, if any. *)
Definition emit_record (_visualization : bool) (c : Component) (r : procedure)
    (next : option procedure) (compiled : list instruction)
    : result (list instruction) :=
  if _visualization then
    Ok (compiled ++ [Viz (start r) (stop r) (params r)])
  else
    let compiled := compiled ++ [Exec (start r) (params r)] in
    match next with
    | Some r' =>
        match start r', stop r with
        | Some x, Some y =>
            if isclose x y then Ok compiled
            else Ok (compiled ++ [Exec (stop r) (base_state c)])
        | _, _ => Raise PyTypeError
        end
    | None => Ok (compiled ++ [Exec (stop r) (base_state c)])
    end.

Fixpoint emit_records (_visualization : bool) (c : Component)
    (rs : list procedure) (compiled : list instruction) : result (list instruction) :=
  match rs with
  | [] => Ok compiled
  | r :: rest =>
      match emit_record _visualization c r (head rest) compiled with
      | Ok compiled => emit_records _visualization c rest compiled
      | Raise e => Raise e
      end
  end.

(** Each record ends after it starts and not after its successor starts. *)
Fixpoint chained (rs : list procedure) : Prop :=
  match rs with
  | [] => True
  | r :: rest =>
      (∃ s e, start r = Some s ∧ stop r = Some e ∧ s < e
              ∧ match rest with
                | r' :: _ => ∃ s', start r' = Some s' ∧ e <= s'
                | [] => True
                end)
      ∧ chained rest
  end.

(** The stores [l] and [l'] hold the same records of component [c] at the
    same positions. *)
Definition same_records (c : Component) (l l' : list procedure) : Prop :=
  ∀ i r, component r = c → (l !! i = Some r ↔ l' !! i = Some r).

(** The timeline [tl] of component [c] is strictly increasing and starts at
    the smallest start among the records of [c] in [l]. *)
Definition starts_at_first (c : Component) (l : list procedure)
    (tl : list instruction) : Prop :=
  ∃ x t0, head tl = Some x ∧ instruction_time x = Some t0
          ∧ (∃ i r, l !! i = Some r ∧ component r = c ∧ start r = Some t0)
          ∧ (∀ i r s, l !! i = Some r → component r = c → start r = Some s → t0 <= s).

(** [compile] changes, within [frame_record], only records whose component
    satisfies [P]. *)
Definition touch (P : Component → Prop) (r r' : procedure) : Prop :=
  r' = r ∨ (P (component r) ∧ frame_record r r').

Definition touches (P : Component → Prop) (l l' : list procedure) : Prop :=
  Forall2 (touch P) l l'.

(** Every record of a component of [cs] has a stop. *)
Definition stops_defined (cs : list Component) (l : list procedure) : Prop :=
  ∀ r, r ∈ l → component r ∈ cs → stop r ≠ None.

(** Two references to the same position, to records with the same start
    and component. *)
Definition same_key (x y : nat * procedure) : Prop :=
  x.1 = y.1 ∧ start x.2 = start y.2 ∧ component x.2 = component y.2.

(** Two stores of the same length whose records have the same starts. *)
Definition same_starts (l l' : list procedure) : Prop :=
  Forall2 (λ r r', start r = start r') l l'.

(** Code that only reads the protocol. *)
Definition readonly {A} (m : M A) : Prop :=
  ∀ w r w', m w = (r, w') → self w' = self w.

(** Code that changes the protocol within [protocol_frame]. *)
Definition framed {A} (m : M A) : Prop :=
  ∀ w r w', m w = (r, w') → protocol_frame (self w) (self w').

(** Code that neither changes the protocol nor warns. *)
Definition pure {A} (m : M A) : Prop := ∀ w r w', m w = (r, w') → w' = w.

(** The exception [e] is not raised by the code. *)
Definition never {A} (e : error) (m : M A) : Prop := ∀ w w', m w ≠ (Raise e, w').

(** The records of component [c] can be laid out on a time line: each has
    a start; a stop that is set comes after the start; a record without a
    stop is not the last one of [c]; and of two different records of [c]
    the one that starts first starts strictly first and, when it has a
    stop, stops no later than the other starts. *)
Definition well_timed (c : Component) (l : list procedure) : Prop :=
  (∀ i r, l !! i = Some r → component r = c →
     ∃ s, start r = Some s
          ∧ (∀ e, stop r = Some e → s < e)
          ∧ (stop r = None →
             ∃ j r' s', l !! j = Some r' ∧ component r' = c
                        ∧ start r' = Some s' ∧ s < s'))
  ∧ (∀ i j r1 r2 s1 s2, i ≠ j →
       l !! i = Some r1 → l !! j = Some r2 →
       component r1 = c → component r2 = c →
       start r1 = Some s1 → start r2 = Some s2 → s1 <= s2 →
       s1 < s2 ∧ ∀ e1, stop r1 = Some e1 → e1 <= s2).

(** The sorted records of a component after the inference loop, when the
    last one has a stop: a missing stop is the successor's start. *)
Fixpoint fill_stops (rs : list procedure) : list procedure :=
  match rs with
  | [] => []
  | r :: rest =>
      match rest with
      | r' :: _ => if bool_decide (stop r = None) then with_stop (start r') r else r
      | [] => r
      end :: fill_stops rest
  end.

(** Sorted records, each starting strictly before its successor and, when
    it has a stop, stopping after its start and not after the successor's
    start; the last one has a stop. *)
Fixpoint chain_ok (rs : list procedure) : Prop :=
  match rs with
  | [] => True
  | r :: rest =>
      (∃ s, start r = Some s
            ∧ (∀ e, stop r = Some e → s < e)
            ∧ match rest with
              | r' :: _ => ∃ s', start r' = Some s' ∧ s < s'
                                 ∧ ∀ e, stop r = Some e → e <= s'
              | [] => stop r ≠ None
              end)
      ∧ chain_ok rest
  end.

(** The starts of an exported list do not decrease. *)
Definition sorted_by_time (l : list exported) : Prop :=
  ∀ i j a b x y, (i < j)%nat → l !! i = Some a → l !! j = Some b →
    e_start a = Some x → e_start b = Some y → x <= y.

Definition exports (r : procedure) (e : exported) : Prop :=
  e_component e = name (component r) ∧ e_start e = start r
  ∧ e_stop e = stop r ∧ e_params e = params r.

(** ** Fixtures for the concrete cases *)

Module Fixture.
Definition plain (n : nat) (nm : string) : Component :=
  {| cid := n; name := nm; valve_mapping := None; is_temp_control := false;
     inst_dict := [("x", AValue TInt)]; class_attrs := ["update"; "base_state"];
     valid_dry := true; valid_live := true;
     base_state := [("x", VInt 0)] |}.

Definition A : Component := plain 1 "A".
Definition B : Component := plain 2 "B".

Definition valve : Component :=
  {| cid := 3; name := "valve";
     valve_mapping := Some [("A", VInt 1); ("B", VInt 2)];
     is_temp_control := false;
     inst_dict := [("mapping", AValue TNoneType); ("setting", AValue TInt)];
     class_attrs := ["update"; "base_state"];
     valid_dry := true; valid_live := true;
     base_state := [("setting", VInt 1)] |}.

Definition heater : Component :=
  {| cid := 4; name := "heater"; valve_mapping := None; is_temp_control := true;
     inst_dict := [("temp", AQuantity "[temperature]"); ("active", AValue TBool)];
     class_attrs := ["update"; "base_state"];
     valid_dry := true; valid_live := true;
     base_state := [("temp", VStr "0 degC"); ("active", VBool false)] |}.

Definition rig (active : list Component) : Apparatus :=
  {| app_name := "rig"; components := active; _active_components := active |}.

Definition protocol (active : list Component) (rs : list procedure) : Protocol :=
  {| apparatus := rig active; procedures := rs;
     is_executing := false; was_executed := false |}.

Definition rec (c : Component) (s e : option Q) (x : Z) : procedure :=
  {| start := s; stop := e; component := c; params := [("x", VInt x)] |}.

(** A quantity parser that knows a handful of expressions. *)
Definition ureg (v : pyval) : option quantity :=
  match v with
  | VStr "0 seconds" => Some {| base_magnitude := 0; dimensionality := "[time]" |}
  | VStr "10 seconds" => Some {| base_magnitude := 10; dimensionality := "[time]" |}
  | VStr "0 degC" =>
      Some {| base_magnitude := 27315 # 100; dimensionality := "[temperature]" |}
  | VStr "50 degC" =>
      Some {| base_magnitude := 32315 # 100; dimensionality := "[temperature]" |}
  | _ => None
  end.
(** A record of [B] that stops at 0 s, an open-ended record of [A], and
    two open-ended records of [B]. *)
Definition staggered : list procedure :=
  [rec B (Some 0) (Some 0) 0; rec A (Some 0) None 1;
   rec B (Some 3) None 2; rec B (Some 7) None 3].

(** A record followed by a gap, a record without stop and a last record
    that starts where the second is taken to stop. *)
Definition gapped : list procedure :=
  [rec A (Some 0) (Some 5) 1; rec A (Some 10) None 2; rec A (Some 15) (Some 20) 3].
End Fixture.


From stdpp Require Import pretty.

Open Scope string_scope.
Open Scope Q_scope.
Open Scope list_scope.

(** * Further methods and collaborators *)

(** [Protocol.to_dict]: the compiled output of a dry run, keyed by the
    component names.  The dictionary comprehension assigns the entries in
    the order of the output; a name met again overwrites. *)
Fixpoint name_keys (output : timelines) (acc : dict (list instruction))
    : dict (list instruction) :=
  match output with
  | [] => acc
  | (k, v) :: output' => name_keys output' (dict_set (name k) v acc)
  end.

Definition to_dict : M (dict (list instruction)) :=
  compiled ← compile true false;
  mret (name_keys compiled []).


(** The component has a record in the store: the test [if not
    component_procedures] of [compile] fails for it. *)
Definition has_records (c : Component) (l : list procedure) : Prop :=
  Exists (λ r, component r = c) l.

#[global] Instance has_records_dec c l : Decision (has_records c l).
Proof. apply Exists_dec. intros r. apply _. Defined.

(** Sample worlds for the examples. *)
Module Sample.
Definition C : Component := Fixture.plain 3 "C".

(** A component that fails [validate] in a dry run. *)
Definition broken : Component :=
  {| cid := 5; name := "broken"; valve_mapping := None; is_temp_control := false;
     inst_dict := [("x", AValue TInt)]; class_attrs := ["update"; "base_state"];
     valid_dry := false; valid_live := true;
     base_state := [("x", VInt 0)] |}.

Definition world_of (active : list Component) (rs : list procedure) : world :=
  {| self := Fixture.protocol active rs; warnings := [] |}.
End Sample.

(** Both records have a start and the first does not start later. *)
Definition start_le (r r' : procedure) : Prop :=
  match start r, start r' with
  | Some a, Some b => a <= b
  | _, _ => False
  end.

(** Consecutive records that [isclose] can compare: each record but the
    last has a stop and each record but the first has a start. *)
Fixpoint linked (rs : list procedure) : Prop :=
  match rs with
  | r :: (r' :: _) as rest => stop r ≠ None ∧ start r' ≠ None ∧ linked rest
  | _ => True
  end.

(** A record as the builder makes them: it has a start, its component
    belongs to the apparatus, its params are not empty, and its stop, when
    set, is not before its start. *)
Definition record_ok (app : Apparatus) (r : procedure) : Prop :=
  is_Some (start r)
  ∧ component r ∈ components app
  ∧ params r ≠ []
  ∧ (∀ s e, start r = Some s → stop r = Some e → s <= e).

Definition built (p : Protocol) : Prop :=
  Forall (record_ok (apparatus p)) (procedures p).

(** ** [Protocol.__init__] *)

(** What the constructor raises: [TypeError] for an argument that is not
    an [Apparatus], [ValueError] for an apparatus that does not validate. *)
Inductive init_error := NotAnApparatus | InvalidApparatus.

(** The argument [apparatus]: an [Apparatus] together with what its
    [validate()] returns, or some other object. *)
Inductive apparatus_arg :=
| AnApparatus (a : Apparatus) (valid : bool)
| AnotherObject (v : pyval).

(** The attributes of a new protocol. *)
Record new_protocol := {
  np_protocol : Protocol;
  np_name : string;
  np_description : option string
}.

(** The constructor, threading the class attribute [Protocol._id_counter]. *)
Definition __init__ (apparatus_ : apparatus_arg) (name_ description_ : option string)
    (_id_counter : nat) : (init_error + new_protocol) * nat :=
  match apparatus_ with
  | AnotherObject _ => (inl NotAnApparatus, _id_counter)
  | AnApparatus a valid =>
      if negb valid then (inl InvalidApparatus, _id_counter)
      else
        let fresh :=
          {| apparatus := a; procedures := [];
             is_executing := false; was_executed := false |} in
        match name_ with
        | Some n =>
            (inr {| np_protocol := fresh; np_name := n;
                    np_description := description_ |}, _id_counter)
        | None =>
            (inr {| np_protocol := fresh;
                    np_name := "Protocol_" +:+ pretty _id_counter;
                    np_description := description_ |}, S _id_counter)
        end
  end.

(** ** Records that do not overlap *)



(** * Properties *)

(** ** Running monadic code *)

Lemma bind_ok {A B} (m : M A) (f : A → M B) w a w' :
  m w = (Ok a, w') → (m ≫= f) w = f a w'.
Proof. intros H. unfold mbind, M_bind. by rewrite H. Qed.

Lemma bind_raise {A B} (m : M A) (f : A → M B) w e w' :
  m w = (Raise e, w') → (m ≫= f) w = (Raise e, w').
Proof. intros H. unfold mbind, M_bind. by rewrite H. Qed.

Lemma bind_inv {A B} (m : M A) (f : A → M B) w r w' :
  (m ≫= f) w = (r, w') →
  (∃ a w1, m w = (Ok a, w1) ∧ f a w1 = (r, w'))
  ∨ (∃ e, m w = (Raise e, w') ∧ r = Raise e).
Proof.
  unfold mbind, M_bind. destruct (m w) as [[a|e] w1]; intros H.
  - left. eauto.
  - right. exists e. by inversion H.
Qed.


(** ** clear_procedures *)

(** C10. [clear_procedures] empties the procedure list, and changes
    nothing else, when the protocol was not executed or is executing; in
    the remaining case, executed and not executing, and only then, it
    raises a [RuntimeError] and leaves the protocol as it was. *)
Theorem clear_procedures_spec (w : world) :
  match was_executed (self w), is_executing (self w) with
  | true, false =>
      clear_procedures w = (Raise ProtocolExecutedError, w)
      ∧ exception_class ProtocolExecutedError = RuntimeError
  | _, _ =>
      ∃ w', clear_procedures w = (Ok (), w')
            ∧ procedures (self w') = []
            ∧ apparatus (self w') = apparatus (self w)
            ∧ is_executing (self w') = is_executing (self w)
            ∧ was_executed (self w') = was_executed (self w)
  end.
Proof.
  destruct w as [[app procs ex was] log]; simpl.
  destruct was, ex; unfold clear_procedures; simpl; eauto 10.
Qed.

(** ** to_list *)

(** C9, as stated, fails: records added at 10 s and then at 0 s are
    exported in that order. *)
Lemma to_list_not_sorted :
  ∃ out w',
    run to_list (Fixture.protocol [Fixture.A]
      [Fixture.rec Fixture.A (Some 10) (Some 20) 1;
       Fixture.rec Fixture.A (Some 0) (Some 5) 2]) = (Ok out, w')
    ∧ ¬ sorted_by_time out.
Proof.
  eexists _, _. split; [reflexivity|].
  intros H.
  specialize (H 0%nat 1%nat _ _ 10 0 ltac:(lia) eq_refl eq_refl eq_refl eq_refl).
  revert H. apply Qlt_not_le. reflexivity.
Qed.

(** C9, amended.  [to_list] returns one entry per record in the order of
    [self.procedures] (insertion order, no sorting); each entry carries the
    component's name and the record's start, stop and params as stored, and
    the protocol is not modified. *)
Theorem to_list_spec (w : world) :
  ∃ out, to_list w = (Ok out, w) ∧ Forall2 exports (procedures (self w)) out.
Proof.
  eexists. split; [reflexivity|].
  induction (procedures (self w)) as [|r l IH]; simpl; constructor; [|exact IH].
  by repeat split.
Qed.

(** ** compile on the two-record example *)

(** C3, as stated, fails: for the records [{start=0, stop=None, x=1}] and
    [{start=10, stop=20, x=2}] of one device the timeline is not the
    four-instruction sequence with a rest at 10 s. *)
Lemma compile_two_records_no_rest_at_10 :
  ∃ out w',
    run (compile true false)
      (Fixture.protocol [Fixture.A]
         [Fixture.rec Fixture.A (Some 0) None 1;
          Fixture.rec Fixture.A (Some 10) (Some 20) 2]) = (Ok out, w')
    ∧ output_lookup Fixture.A out ≠
        Some [Exec (Some 0) [("x", VInt 1)];
              Exec (Some 10) (base_state Fixture.A);
              Exec (Some 10) [("x", VInt 2)];
              Exec (Some 20) (base_state Fixture.A)].
Proof. eexists _, _. split; [by vm_compute|]. by vm_compute. Qed.

(** C3, amended.  For a valid device with exactly the records
    [{start=0, stop=None, params=p1}] and [{start=10, stop=20, params=p2}],
    [compile] writes 10 into the first record's stop and emits, in
    execution form, [(0, p1); (10, p2); (20, rest)]: the successor starts
    at the inferred stop, so no rest instruction is emitted at 10 s. *)
Theorem compile_two_records (c : Component) (p1 p2 : kwargs) (app : Apparatus)
    (executing executed dry_run : bool) :
  _active_components app = [c] →
  validate c dry_run = true →
  ∃ w',
    run (compile dry_run false)
      {| apparatus := app;
         procedures :=
           [ {| start := Some 0; stop := None; component := c; params := p1 |};
             {| start := Some 10; stop := Some 20; component := c; params := p2 |} ];
         is_executing := executing; was_executed := executed |}
    = (Ok [(c, [Exec (Some 0) p1; Exec (Some 10) p2; Exec (Some 20) (base_state c)])],
       w')
    ∧ procedures (self w') =
        [ {| start := Some 0; stop := Some 10; component := c; params := p1 |};
          {| start := Some 10; stop := Some 20; component := c; params := p2 |} ].
Proof.
  intros Hact Hval. eexists.
  unfold run, compile, mbind, M_bind, get_self; simpl.
  rewrite Hact; simpl.
  unfold component_procedures, refs_of, mbind, M_bind, get_self; simpl.
  rewrite !(filter_cons (λ x : nat * procedure, component x.2 = c)); simpl.
  rewrite !decide_True by done. rewrite filter_nil. simpl.
  rewrite Hval; simpl.
  split; reflexivity.
Qed.

Lemma compile_two_records_witness :
  _active_components (Fixture.rig [Fixture.A]) = [Fixture.A]
  ∧ validate Fixture.A true = true
  ∧ ∃ w',
      run (compile true false)
        {| apparatus := Fixture.rig [Fixture.A];
           procedures :=
             [ {| start := Some 0; stop := None; component := Fixture.A;
                  params := [("x", VInt 1)] |};
               {| start := Some 10; stop := Some 20; component := Fixture.A;
                  params := [("x", VInt 2)] |} ];
           is_executing := false; was_executed := false |}
      = (Ok [(Fixture.A, [Exec (Some 0) [("x", VInt 1)];
                          Exec (Some 10) [("x", VInt 2)];
                          Exec (Some 20) (base_state Fixture.A)])], w')
      ∧ procedures (self w') =
          [ {| start := Some 0; stop := Some 10; component := Fixture.A;
               params := [("x", VInt 1)] |};
            {| start := Some 10; stop := Some 20; component := Fixture.A;
               params := [("x", VInt 2)] |} ].
Proof.
  split; [reflexivity|]. split; [reflexivity|].
  apply (compile_two_records Fixture.A [("x", VInt 1)] [("x", VInt 2)]
           (Fixture.rig [Fixture.A]) false false true); reflexivity.
Defined.

(** ** What compile leaves unchanged *)

Lemma frame_record_refl r : frame_record r r.
Proof. repeat split; auto. Qed.

Lemma frame_record_trans r1 r2 r3 :
  frame_record r1 r2 → frame_record r2 r3 → frame_record r1 r3.
Proof.
  intros (Hs & Hc & Hp & Ht) (Hs' & Hc' & Hp' & Ht').
  repeat split; try congruence.
  destruct Ht as [Ht|Ht]; [|by right].
  destruct Ht' as [Ht'|Ht']; [left|right]; congruence.
Qed.

Lemma frame_refl l : frame l l.
Proof. induction l; constructor; auto using frame_record_refl. Qed.

Lemma frame_trans l1 l2 l3 : frame l1 l2 → frame l2 l3 → frame l1 l3.
Proof.
  unfold frame. intros H. revert l3.
  induction H as [|r1 r2 l1 l2 Hr _ IH]; intros l3 H3; inversion H3; subst;
    constructor; [by eapply frame_record_trans|by apply IH].
Qed.

Lemma frame_alter l i r v :
  l !! i = Some r → stop r = None → frame l (alter (with_stop v) i l).
Proof.
  revert i. induction l as [|x l IH]; intros [|i] Hi Hr; simpl in *; try done.
  - inversion Hi; subst. constructor; [|apply frame_refl].
    repeat split; auto.
  - constructor; [apply frame_record_refl|]. by apply IH.
Qed.

Lemma protocol_frame_refl p : protocol_frame p p.
Proof. repeat split; auto using frame_refl. Qed.

Lemma protocol_frame_trans p1 p2 p3 :
  protocol_frame p1 p2 → protocol_frame p2 p3 → protocol_frame p1 p3.
Proof.
  intros (?&?&?&?) (?&?&?&?). repeat split; try congruence.
  eauto using frame_trans.
Qed.

Lemma readonly_framed {A} (m : M A) : readonly m → framed m.
Proof. intros H w r w' E. rewrite (H _ _ _ E). apply protocol_frame_refl. Qed.

Lemma readonly_ret {A} (a : A) : readonly (mret a).
Proof. intros w r w' E. by inversion E. Qed.

Lemma readonly_raise {A} e : readonly (raise e : M A).
Proof. intros w r w' E. by inversion E. Qed.

Lemma readonly_warn a : readonly (warn a).
Proof. intros w r w' E. by inversion E. Qed.

Lemma readonly_get_self : readonly get_self.
Proof. intros w r w' E. by inversion E. Qed.

Lemma readonly_bind {A B} (m : M A) (f : A → M B) :
  readonly m → (∀ a, readonly (f a)) → readonly (m ≫= f).
Proof.
  intros Hm Hf w r w' E.
  destruct (bind_inv _ _ _ _ _ E) as [(a & w1 & E1 & E2)|(e & E1 & _)].
  - rewrite (Hf _ _ _ _ E2). eauto.
  - eauto.
Qed.

Lemma framed_bind {A B} (m : M A) (f : A → M B) :
  framed m → (∀ a, framed (f a)) → framed (m ≫= f).
Proof.
  intros Hm Hf w r w' E.
  destruct (bind_inv _ _ _ _ _ E) as [(a & w1 & E1 & E2)|(e & E1 & _)].
  - eapply protocol_frame_trans; [eapply Hm|eapply Hf]; eauto.
  - eauto.
Qed.

Create HintDb readonly.
#[local] Hint Resolve readonly_ret readonly_raise readonly_warn readonly_get_self
  : readonly.

Ltac readonly_steps :=
  repeat first
    [ apply readonly_bind; [|intros ?]
    | progress eauto with readonly
    | match goal with
      | |- readonly (match ?x with _ => _ end) => destruct x
      | |- readonly (if ?x then _ else _) => destruct x
      end ].

Lemma readonly_deref i : readonly (deref i).
Proof. unfold deref. readonly_steps. Qed.

Lemma readonly_inferred_duration : readonly _inferred_duration.
Proof. unfold _inferred_duration. readonly_steps. Qed.

Lemma readonly_component_procedures c : readonly (component_procedures c).
Proof. unfold component_procedures. readonly_steps. Qed.

Lemma readonly_py_isclose a b : readonly (py_isclose a b).
Proof. unfold py_isclose. readonly_steps. Qed.

#[local] Hint Resolve readonly_deref readonly_inferred_duration
  readonly_component_procedures readonly_py_isclose : readonly.

Lemma readonly_emit_procedure viz c i successor compiled :
  readonly (emit_procedure viz c i successor compiled).
Proof. unfold emit_procedure. readonly_steps. Qed.

Lemma readonly_emit viz c cps : ∀ compiled, readonly (emit viz c cps compiled).
Proof.
  induction cps as [|i rest IH]; intros compiled; simpl; [readonly_steps|].
  apply readonly_bind; [apply readonly_emit_procedure|auto].
Qed.

Lemma deref_inv i w r w' :
  deref i w = (r, w') →
  w' = w ∧ match r with
           | Ok x => procedures (self w) !! i = Some x
           | Raise e => e = DanglingReference ∧ procedures (self w) !! i = None
           end.
Proof.
  unfold deref, mbind, M_bind, get_self.
  destruct (procedures (self w) !! i); intros E; inversion E; auto.
Qed.

Lemma set_stop_inv i v w r w' :
  set_stop i v w = (r, w') →
  r = Ok ()
  ∧ w' = {| self := with_procedures (alter (with_stop v) i (procedures (self w))) (self w);
            warnings := warnings w |}.
Proof. intros E. by inversion E. Qed.

Lemma set_stop_framed i v w r w' x :
  procedures (self w) !! i = Some x → stop x = None →
  set_stop i v w = (r, w') → protocol_frame (self w) (self w').
Proof.
  intros Hi Hx E. apply set_stop_inv in E as [_ ->]. simpl.
  repeat split; auto. simpl. by eapply frame_alter.
Qed.

Lemma framed_infer_stop c i successor : framed (infer_stop c i successor).
Proof.
  intros w r w' E. unfold infer_stop in E.
  destruct (bind_inv _ _ _ _ _ E) as [(x & w1 & E1 & E2)|(e & E1 & _)]; clear E;
    apply deref_inv in E1 as [-> Hi]; [|apply protocol_frame_refl].
  destruct successor as [j|].
  - destruct (bind_inv _ _ _ _ _ E2) as [(y & w1 & E1 & E3)|(e & E1 & _)]; clear E2;
      apply deref_inv in E1 as [-> Hj]; [|apply protocol_frame_refl].
    destruct (eq_zero (start y));
      [inversion E3; subst; apply protocol_frame_refl|].
    destruct (bool_decide (start y ≠ None) && bool_decide (stop x = None)) eqn:Hb;
      [|inversion E3; subst; apply protocol_frame_refl].
    apply andb_prop in Hb as [_ Hx%bool_decide_eq_true].
    unfold mbind, M_bind, warn in E3. simpl in E3.
    eapply (set_stop_framed _ _ _ _ _ x) in E3; [exact E3|exact Hi|exact Hx].
  - case_bool_decide as Hx; [|inversion E2; subst; apply protocol_frame_refl].
    unfold mbind at 1, M_bind at 1, warn in E2. simpl in E2.
    destruct (bind_inv _ _ _ _ _ E2) as [(d & w1 & E1 & E3)|(e & E1 & _)]; clear E2;
      apply readonly_inferred_duration in E1; simpl in E1.
    + rewrite <- E1 in Hi |- *.
      eapply (set_stop_framed _ _ _ _ _ x) in E3; [exact E3|exact Hi|exact Hx].
    + rewrite E1. apply protocol_frame_refl.
Qed.

Lemma framed_infer_stops c cps : framed (infer_stops c cps).
Proof.
  induction cps as [|i rest IH]; simpl.
  - apply readonly_framed, readonly_ret.
  - apply framed_bind; [apply framed_infer_stop|auto].
Qed.

Lemma framed_compile_components dry_run viz cs :
  ∀ output, framed (compile_components dry_run viz cs output).
Proof.
  induction cs as [|c cs IH]; intros output; simpl.
  - apply readonly_framed, readonly_ret.
  - apply framed_bind; [apply readonly_framed, readonly_component_procedures|].
    intros cps. case_bool_decide.
    { apply framed_bind; [apply readonly_framed, readonly_warn|auto]. }
    destruct (negb (validate c dry_run)); [apply readonly_framed, readonly_raise|].
    apply framed_bind; [apply readonly_framed, readonly_get_self|]. intros p.
    case_bool_decide; [apply readonly_framed, readonly_raise|].
    apply framed_bind; [apply framed_infer_stops|]. intros _.
    apply framed_bind; [apply readonly_framed, readonly_emit|auto].
Qed.

Lemma framed_compile dry_run viz : framed (compile dry_run viz).
Proof.
  unfold compile.
  apply framed_bind; [apply readonly_framed, readonly_get_self|]. intros p.
  case_bool_decide; [apply readonly_framed, readonly_raise|].
  apply framed_compile_components.
Qed.

(** C1, as stated, fails: compiling the two-record example overwrites the
    first record's [stop], which was [None], with 10. *)
Lemma compile_mutates_stop :
  ∃ r w',
    run (compile true false)
      (Fixture.protocol [Fixture.A]
         [Fixture.rec Fixture.A (Some 0) None 1;
          Fixture.rec Fixture.A (Some 10) (Some 20) 2]) = (r, w')
    ∧ stop <$> procedures (self w') !! 0%nat = Some (Some 10)
    ∧ stop <$> procedures (self w') !! 0%nat ≠ Some None.
Proof. eexists _, _. split; [by vm_compute|]. by vm_compute. Qed.

(** C1, amended.  Whether [compile] returns or raises, afterwards the
    protocol has the same apparatus and flags and the same number of
    records in the same order; every record keeps its start, component
    and params, and keeps its stop unless that stop was [None], in which
    case it may have been overwritten in place with the inferred value. *)
Theorem compile_frame (dry_run _visualization : bool) (w : world) :
  protocol_frame (self w) (self (compile dry_run _visualization w).2).
Proof.
  destruct (compile dry_run _visualization w) as [r w'] eqn:E. simpl.
  by eapply framed_compile.
Qed.

(** ** Sorting *)

Section SortedFacts.
Context {A : Type} (key : A → Q).

Lemma insert_by_perm x l : insert_by key x l ≡ₚ x :: l.
Proof.
  induction l as [|y l IH]; simpl; [done|].
  destruct (Qlt_bool (key y) (key x)); [|done].
  rewrite IH. apply Permutation_swap.
Qed.

Lemma sorted_by_perm l : sorted_by key l ≡ₚ l.
Proof.
  induction l as [|x l IH]; simpl; [done|].
  by rewrite insert_by_perm, IH.
Qed.

Lemma sorted_by_Forall (P : A → Prop) l : Forall P l → Forall P (sorted_by key l).
Proof. intros H. by rewrite sorted_by_perm. Qed.

Lemma sorted_by_length l : length (sorted_by key l) = length l.
Proof. by rewrite sorted_by_perm. Qed.

Definition key_le (a b : A) : Prop := key a <= key b.

Lemma insert_by_sorted x l :
  StronglySorted key_le l → StronglySorted key_le (insert_by key x l).
Proof.
  induction 1 as [|y l Hl IH Hy]; simpl; [repeat constructor|].
  unfold Qlt_bool. destruct (Qle_bool (key x) (key y)) eqn:E; simpl.
  - apply Qle_bool_iff in E. constructor; [by constructor|].
    constructor; [done|].
    eapply Forall_impl; [exact Hy|]. intros z Hz. unfold key_le in *.
    by eapply Qle_trans.
  - constructor; [done|]. rewrite insert_by_perm. constructor; [|done].
    unfold key_le. apply Qlt_le_weak, Qnot_le_lt. intros Hle.
    apply Qle_bool_iff in Hle. congruence.
Qed.

Lemma sorted_by_sorted l : StronglySorted key_le (sorted_by key l).
Proof. induction l; simpl; [constructor|by apply insert_by_sorted]. Qed.
End SortedFacts.

Lemma remove_dups_NoDup_id {A} `{EqDecision A} (l : list A) :
  NoDup l → remove_dups l = l.
Proof.
  induction 1 as [|x l Hx Hl IH]; simpl; [done|].
  destruct (decide_rel elem_of x l); [done|by rewrite IH].
Qed.

(** ** The per-component record list *)

Lemma refs_snd {B} (P : procedure → Prop) `{∀ x, Decision (P x)}
    (f : nat → B) (l : list procedure) :
  snd <$> filter (λ x : B * procedure, P x.2) (imap (λ i x, (f i, x)) l) = filter P l.
Proof.
  revert f. induction l as [|r l IH]; intros f; [done|].
  rewrite imap_cons, !filter_cons. simpl.
  destruct (decide (P r)); simpl; [f_equal|]; apply (IH (f ∘ S)).
Qed.

Lemma refs_snd_pair c (l : list procedure) :
  snd <$> filter (λ x : nat * procedure, component x.2 = c) (imap pair l)
  = filter (λ r, component r = c) l.
Proof. exact (refs_snd (λ r, component r = c) id l). Qed.


(** ** The unresolvable duration *)


Lemma component_procedures_unused c w :
  Forall (λ r, component r ≠ c) (procedures (self w)) →
  component_procedures c w = (Ok [], w).
Proof.
  intros H. unfold component_procedures, refs_of, mbind, M_bind, get_self.
  assert (filter (λ x : nat * procedure, component x.2 = c)
            (imap pair (procedures (self w))) = []) as ->; [|done].
  apply fmap_nil_inv with (f := snd).
  rewrite refs_snd_pair.
  induction H as [|r l Hr _ IH]; [done|].
  rewrite filter_cons. by destruct (decide (component r = c)).
Qed.


Lemma inferred_duration_all_unset w :
  Forall (λ r, stop r = None) (procedures (self w)) →
  _inferred_duration w = (Raise UnresolvableDurationError, w).
Proof.
  intros H. unfold _inferred_duration, mbind, M_bind, get_self.
  rewrite (Is_true_eq_true (forallb _ _)); [done|].
  apply forallb_True, sorted_by_Forall, Forall_fmap.
  eapply Forall_impl; [exact H|]. intros r Hr. simpl. by rewrite Hr, bool_decide_true.
Qed.



(** ** The procedure builder *)

Lemma dict_lookup_set_eq {V} k (v : V) d : dict_lookup k (dict_set k v d) = Some v.
Proof.
  induction d as [|[k' v'] d IH]; simpl.
  - by rewrite bool_decide_true.
  - case_bool_decide; simpl; [by rewrite bool_decide_true|].
    by rewrite bool_decide_false.
Qed.

Lemma dict_lookup_set_ne {V} k k' (v : V) d :
  k ≠ k' → dict_lookup k' (dict_set k v d) = dict_lookup k' d.
Proof.
  intros Hne. induction d as [|[k0 v0] d IH]; simpl.
  - by rewrite bool_decide_false.
  - case_bool_decide as Hk; simpl.
    + subst k0. by rewrite !bool_decide_false.
    + case_bool_decide; [done|apply IH].
Qed.

Lemma pure_ret {A} (a : A) : pure (mret a).
Proof. intros w r w' E. by inversion E. Qed.

Lemma pure_raise {A} e : pure (raise e : M A).
Proof. intros w r w' E. by inversion E. Qed.

Lemma pure_get_self : pure get_self.
Proof. intros w r w' E. by inversion E. Qed.

Lemma pure_bind {A B} (m : M A) (f : A → M B) :
  pure m → (∀ a, pure (f a)) → pure (m ≫= f).
Proof.
  intros Hm Hf w r w' E.
  destruct (bind_inv _ _ _ _ _ E) as [(a & w1 & E1 & E2)|(e & E1 & _)].
  - apply Hm in E1 as ->. by eapply Hf.
  - by eapply Hm.
Qed.

Create HintDb pure.
#[local] Hint Resolve pure_ret pure_raise pure_get_self : pure.

Ltac pure_steps :=
  repeat first
    [ apply pure_bind; [|intros ?]
    | progress eauto with pure
    | match goal with
      | |- pure (match ?x with _ => _ end) => destruct x
      | |- pure (if ?x then _ else _) => destruct x
      | |- pure (let _ := _ in _) => cbv zeta
      end ].

Section BuilderFacts.
Variable parse_expression : pyval → option quantity.

Lemma pure_parse v : pure (parse parse_expression v).
Proof. unfold parse. pure_steps. Qed.

Lemma pure_parse_time t : pure (parse_time parse_expression t).
Proof. unfold parse_time. destruct t; [pure_steps|apply pure_parse]. Qed.

Lemma pure_quantity_add a b : pure (quantity_add a b).
Proof. unfold quantity_add. pure_steps. Qed.

Lemma pure_quantity_gt a b : pure (quantity_gt a b).
Proof. unfold quantity_gt. pure_steps. Qed.

Lemma pure_check_kwarg c k v : pure (check_kwarg parse_expression c k v).
Proof.
  unfold check_kwarg. destruct (negb _); [pure_steps|].
  destruct (dict_lookup _ _) as [[d|t]|]; [|pure_steps..].
  apply pure_bind; [apply pure_parse|]. intros q. pure_steps.
Qed.

Lemma pure_check_kwargs c items : pure (check_kwargs parse_expression c items).
Proof.
  induction items as [|[k v] items IH]; simpl; [pure_steps|].
  apply pure_bind; [apply pure_check_kwarg|auto].
Qed.

Lemma pure_temp_control_magic kw : pure (temp_control_magic kw).
Proof. unfold temp_control_magic. pure_steps. Qed.

Hint Resolve pure_parse pure_parse_time pure_quantity_add pure_quantity_gt
  pure_check_kwarg pure_check_kwargs pure_temp_control_magic : pure.

Lemma pure_check_request c start_ stop_ duration kw :
  pure (check_request parse_expression c start_ stop_ duration kw).
Proof. unfold check_request. pure_steps. Qed.

Lemma check_request_kwargs c start_ stop_ duration kw w kw0 qstart qstop w1 :
  check_request parse_expression c start_ stop_ duration kw w
    = (Ok (kw0, qstart, qstop), w1) →
  kw0 = map_valve_setting c kw.
Proof.
  unfold check_request. intros E.
  repeat match type of E with
  | (_ ≫= _) _ = _ =>
      let a := fresh in let w2 := fresh in let E1 := fresh in
      destruct (bind_inv _ _ _ _ _ E) as [(a & w2 & E1 & E2)|(? & ? & ?)];
        [clear E; rename E2 into E; clear E1|done]
  | (if ?b then _ else _) _ = _ => destruct b; [by inversion E|]
  end.
  by inversion E.
Qed.
End BuilderFacts.

Section TempControl.
Variable parse_expression : pyval → option quantity.

Lemma add_single_after_check c start_ stop_ duration kw w kw0 qstart qstop w1 :
  check_request parse_expression c start_ stop_ duration kw w
    = (Ok (kw0, qstart, qstop), w1) →
  _add_single parse_expression c start_ stop_ duration kw w
  = ((if is_temp_control c then temp_control_magic kw0 else mret kw0) ≫= λ kw1,
      get_self ≫= λ p,
      put_procedures (procedures p ++ [new_record c qstart qstop kw1])) w.
Proof.
  intros E. unfold _add_single.
  apply pure_check_request in E as Hw. subst w1.
  by erewrite bind_ok by exact E.
Qed.

(** C7.  For a component that is a [TempControl], on a request that
    passes the checks of [_add_single] with params [kw0]:
    - [temp] given and [active] not given: the record is appended with
      [active] set to [True] and the other params as given;
    - [active] false or absent (any false value) and [temp] not given:
      the record is appended with [temp] set to ["0 degC"] and the other
      params as given;
    - [active] true and [temp] not given: the build raises the
      [RuntimeError] of the missing temperature and appends nothing. *)
Theorem temp_control_rules (c : Component) (start_ : timearg)
    (stop_ duration : option timearg) (kw : kwargs) (w : world)
    (kw0 : kwargs) (qstart : quantity) (qstop : option quantity) (w1 : world) :
  is_temp_control c = true →
  check_request parse_expression c start_ stop_ duration kw w
    = (Ok (kw0, qstart, qstop), w1) →
  (kwargs_get "temp" kw0 ≠ VNone → kwargs_get "active" kw0 = VNone →
     let ps := dict_set "active" (VBool true) kw0 in
     ∃ w', _add_single parse_expression c start_ stop_ duration kw w = (Ok (), w')
           ∧ procedures (self w')
             = procedures (self w) ++ [new_record c qstart qstop ps]
           ∧ dict_lookup "active" ps = Some (VBool true)
           ∧ ∀ k, k ≠ "active" → dict_lookup k ps = dict_lookup k kw0)
  ∧ (truthy (kwargs_get "active" kw0) = false → kwargs_get "temp" kw0 = VNone →
     let ps := dict_set "temp" (VStr "0 degC") kw0 in
     ∃ w', _add_single parse_expression c start_ stop_ duration kw w = (Ok (), w')
           ∧ procedures (self w')
             = procedures (self w) ++ [new_record c qstart qstop ps]
           ∧ dict_lookup "temp" ps = Some (VStr "0 degC")
           ∧ ∀ k, k ≠ "temp" → dict_lookup k ps = dict_lookup k kw0)
  ∧ (truthy (kwargs_get "active" kw0) = true → kwargs_get "temp" kw0 = VNone →
     _add_single parse_expression c start_ stop_ duration kw w
       = (Raise MissingTemperatureError, w)
     ∧ exception_class MissingTemperatureError = RuntimeError).
Proof.
  intros Htc E.
  rewrite (add_single_after_check _ _ _ _ _ _ _ _ _ _ E), Htc.
  unfold temp_control_magic.
  split; [|split].
  - intros Ht Ha.
    rewrite (bool_decide_true _ Ht), (bool_decide_true _ Ha). simpl.
    eexists. split; [reflexivity|]. simpl. split; [done|].
    split; [apply dict_lookup_set_eq|].
    intros k Hk. by apply dict_lookup_set_ne.
  - intros Ha Ht.
    rewrite (bool_decide_false (kwargs_get "temp" kw0 ≠ VNone)) by (by intros []).
    rewrite Ha, (bool_decide_true _ Ht). simpl.
    eexists. split; [reflexivity|]. simpl. split; [done|].
    split; [apply dict_lookup_set_eq|].
    intros k Hk. by apply dict_lookup_set_ne.
  - intros Ha Ht.
    rewrite (bool_decide_false (kwargs_get "temp" kw0 ≠ VNone)) by (by intros []).
    rewrite Ha, (bool_decide_true _ Ht). simpl.
    unfold kwargs_get in Ha.
    destruct (dict_lookup "active" kw0) as [a|]; simpl in Ha; [|done].
    by rewrite Ha.
Qed.
End TempControl.

Example add_temp_only :
  run (_add_single Fixture.ureg Fixture.heater (TimeExpr "0 seconds") None None
         [("temp", VStr "50 degC")])
      (Fixture.protocol [Fixture.heater] [])
  = (Ok (),
     {| self := Fixture.protocol [Fixture.heater]
          [ {| start := Some 0; stop := None; component := Fixture.heater;
               params := [("temp", VStr "50 degC"); ("active", VBool true)] |} ];
        warnings := [] |}).
Proof. by vm_compute. Qed.

Example add_inactive :
  run (_add_single Fixture.ureg Fixture.heater (TimeExpr "0 seconds")
         (Some (TimeExpr "10 seconds")) None [("active", VBool false)])
      (Fixture.protocol [Fixture.heater] [])
  = (Ok (),
     {| self := Fixture.protocol [Fixture.heater]
          [ {| start := Some 0; stop := Some 10; component := Fixture.heater;
               params := [("active", VBool false); ("temp", VStr "0 degC")] |} ];
        warnings := [] |}).
Proof. by vm_compute. Qed.

Example add_active_without_temp :
  run (_add_single Fixture.ureg Fixture.heater (TimeExpr "0 seconds") None None
         [("active", VBool true)])
      (Fixture.protocol [Fixture.heater] [])
  = (Raise MissingTemperatureError,
     {| self := Fixture.protocol [Fixture.heater] []; warnings := [] |}).
Proof. by vm_compute. Qed.

Lemma temp_control_rules_witness :
  is_temp_control Fixture.heater = true
  ∧ check_request Fixture.ureg Fixture.heater (TimeExpr "0 seconds") None None
      [("temp", VStr "50 degC")]
      {| self := Fixture.protocol [Fixture.heater] []; warnings := [] |}
    = (Ok ([("temp", VStr "50 degC")],
           {| base_magnitude := 0; dimensionality := "[time]" |}, None),
       {| self := Fixture.protocol [Fixture.heater] []; warnings := [] |})
  ∧ ∃ w',
      _add_single Fixture.ureg Fixture.heater (TimeExpr "0 seconds") None None
        [("temp", VStr "50 degC")]
        {| self := Fixture.protocol [Fixture.heater] []; warnings := [] |}
      = (Ok (), w')
      ∧ procedures (self w')
        = [ {| start := Some 0; stop := None; component := Fixture.heater;
               params := [("temp", VStr "50 degC"); ("active", VBool true)] |} ].
Proof.
  split; [reflexivity|]. split; [by vm_compute|].
  destruct (temp_control_rules Fixture.ureg Fixture.heater (TimeExpr "0 seconds")
              None None [("temp", VStr "50 degC")]
              {| self := Fixture.protocol [Fixture.heater] []; warnings := [] |}
              [("temp", VStr "50 degC")]
              {| base_magnitude := 0; dimensionality := "[time]" |} None
              {| self := Fixture.protocol [Fixture.heater] []; warnings := [] |}
              eq_refl eq_refl) as (H & _ & _).
  destruct H as (w' & E & Hp & _); [by vm_compute|by vm_compute|].
  exists w'. split; [exact E|exact Hp].
Defined.

(** ** Valve settings *)

Lemma never_ret {A} e (a : A) : never e (mret a).
Proof. by intros w w' E. Qed.

Lemma never_raise {A} e e' : e' ≠ e → never e (raise e' : M A).
Proof. intros H w w' E. inversion E. by subst. Qed.

Lemma never_warn e a : never e (warn a).
Proof. by intros w w' E. Qed.

Lemma never_get_self e : never e get_self.
Proof. by intros w w' E. Qed.

Lemma never_put_procedures e l : never e (put_procedures l).
Proof. by intros w w' E. Qed.

Lemma never_bind {A B} e (m : M A) (f : A → M B) :
  never e m → (∀ a, never e (f a)) → never e (m ≫= f).
Proof.
  intros Hm Hf w w' E.
  destruct (bind_inv _ _ _ _ _ E) as [(a & w1 & E1 & E2)|(e' & E1 & [= ->])].
  - by eapply Hf.
  - by eapply Hm.
Qed.

Create HintDb never.
#[local] Hint Resolve never_ret never_warn never_get_self never_put_procedures
  : never.
#[local] Hint Extern 1 (never _ (raise _)) => apply never_raise; discriminate : never.

Ltac never_steps :=
  repeat first
    [ apply never_bind; [|intros ?]
    | progress eauto with never
    | match goal with
      | |- never _ (match ?x with _ => _ end) => destruct x
      | |- never _ (if ?x then _ else _) => destruct x
      | |- never _ (let _ := _ in _) => cbv zeta
      end ].

Section ValveSetting.
Variable parse_expression : pyval → option quantity.

Lemma never_unknown_setting_check_kwargs c items :
  never UnknownSettingError (check_kwargs parse_expression c items).
Proof.
  induction items as [|[k v] items IH]; simpl; [never_steps|].
  apply never_bind; [|auto].
  unfold check_kwarg, parse. never_steps.
Qed.

Lemma never_unknown_setting c start_ stop_ duration kw :
  never UnknownSettingError (_add_single parse_expression c start_ stop_ duration kw).
Proof.
  unfold _add_single, check_request. apply never_bind.
  - apply never_bind; [never_steps|]. intros p.
    destruct (negb _); [never_steps|]. cbv zeta.
    case_bool_decide; [never_steps|].
    apply never_bind; [apply never_unknown_setting_check_kwargs|]. intros _.
    unfold parse_time, parse, quantity_add, quantity_gt. never_steps.
  - intros [[kw0 qstart] qstop].
    unfold temp_control_magic. never_steps.
Qed.

Lemma temp_control_magic_other kw w kw1 w' k :
  temp_control_magic kw w = (Ok kw1, w') →
  k ≠ "active" → k ≠ "temp" → dict_lookup k kw1 = dict_lookup k kw.
Proof.
  unfold temp_control_magic. intros E Ha Ht.
  destruct (_ && _).
  { inversion E; subst. by apply dict_lookup_set_ne. }
  destruct (_ && _).
  { inversion E; subst. by apply dict_lookup_set_ne. }
  destruct (dict_lookup "active" kw); [|done].
  destruct (_ && _); [done|]. by inversion E.
Qed.

Lemma check_kwargs_setting_mismatch c kw w v t :
  dict_lookup "setting" kw = Some v →
  dict_lookup "setting" (inst_dict c) = Some (AValue t) →
  py_isinstance t (type_of v) = false →
  Forall (λ kv, kv.1 ≠ "setting" →
                check_kwarg parse_expression c kv.1 kv.2 w = (Ok (), w)) kw →
  check_kwargs parse_expression c kw w = (Raise TypeMismatchError, w).
Proof.
  intros Hv Hattr Hty Hothers.
  induction Hothers as [|[k v'] kw Hk _ IH]; simpl in *; [done|].
  case_bool_decide as Hks.
  - subst k. inversion Hv; subst v'. apply bind_raise.
    unfold check_kwarg, hasattr. rewrite Hattr.
    rewrite bool_decide_true by eauto. simpl. by rewrite Hty.
  - erewrite bind_ok by (by apply Hk). by apply IH.
Qed.
End ValveSetting.

(** C8, as stated, fails: the name ["Z"] is not in the valve's mapping and
    is not an integer setting, and the build raises the [ValueError] of
    the type check, "Bad type matching"; there is no error of its own
    for an unknown setting. *)
Lemma add_unknown_setting_is_type_mismatch :
  valve_mapping Fixture.valve = Some [("A", VInt 1); ("B", VInt 2)]
  ∧ dict_lookup "Z" [("A", VInt 1); ("B", VInt 2)] = None
  ∧ (run (_add_single Fixture.ureg Fixture.valve (TimeExpr "0 seconds") None None
            [("setting", VStr "Z")])
         (Fixture.protocol [Fixture.valve] [])).1
    = Raise TypeMismatchError
  ∧ (run (_add_single Fixture.ureg Fixture.valve (TimeExpr "0 seconds") None None
            [("setting", VStr "Z")])
         (Fixture.protocol [Fixture.valve] [])).1
    ≠ Raise UnknownSettingError.
Proof. repeat split; by vm_compute. Qed.

(** C8, amended.  For a valve and a request whose [setting] is the name
    [s]:
    - the build never raises an unknown-setting error;
    - if [s] is in the valve's mapping, [setting] is replaced by the raw
      value before the checks, and a record that is appended carries the
      raw value;
    - if [s] is not in the mapping, [kwargs] is left as it is, and when the
      valve's [setting] attribute holds a value that is not a string (the
      component belongs to the apparatus and the other params pass their
      checks) the build raises the [ValueError] of the type check. *)
Theorem valve_setting_rules (parse_expression : pyval → option quantity)
    (c : Component) (start_ : timearg) (stop_ duration : option timearg)
    (kw : kwargs) (w : world) (mapping : dict pyval) (s : string) :
  valve_mapping c = Some mapping →
  dict_lookup "setting" kw = Some (VStr s) →
  (∀ w', _add_single parse_expression c start_ stop_ duration kw w
         ≠ (Raise UnknownSettingError, w'))
  ∧ (∀ raw, dict_lookup s mapping = Some raw →
       map_valve_setting c kw = dict_set "setting" raw kw
       ∧ ∀ w', _add_single parse_expression c start_ stop_ duration kw w = (Ok (), w') →
           ∃ r, procedures (self w') = procedures (self w) ++ [r]
                ∧ dict_lookup "setting" (params r) = Some raw)
  ∧ (dict_lookup s mapping = None →
       map_valve_setting c kw = kw
       ∧ ∀ t, c ∈ components (apparatus (self w)) →
           dict_lookup "setting" (inst_dict c) = Some (AValue t) →
           py_isinstance t TStr = false →
           Forall (λ kv, kv.1 ≠ "setting" →
                         check_kwarg parse_expression c kv.1 kv.2 w = (Ok (), w)) kw →
           _add_single parse_expression c start_ stop_ duration kw w
             = (Raise TypeMismatchError, w)
           ∧ exception_class TypeMismatchError = ValueError).
Proof.
  intros Hmap Hkw.
  assert (kwargs_get "setting" kw = VStr s) as Hget.
  { unfold kwargs_get. by rewrite Hkw. }
  split; [|split].
  - intros w'. apply never_unknown_setting.
  - intros raw Hraw.
    assert (map_valve_setting c kw = dict_set "setting" raw kw) as Hmapped.
    { unfold map_valve_setting. by rewrite Hmap, Hget, Hraw. }
    split; [done|]. intros w' E. unfold _add_single in E.
    destruct (bind_inv _ _ _ _ _ E) as [([[kw0 qstart] qstop] & w1 & E1 & E2)|(e & _ & ?)];
      [clear E|done].
    apply pure_check_request in E1 as Hw; subst w1.
    apply check_request_kwargs in E1. rewrite Hmapped in E1. subst kw0.
    destruct (bind_inv _ _ _ _ _ E2) as [(kw1 & w1 & E3 & E4)|(e & _ & ?)];
      [clear E2|done].
    assert (w1 = w ∧ dict_lookup "setting" kw1 = Some raw) as [-> Hkw1].
    { destruct (is_temp_control c).
      - split; [by eapply pure_temp_control_magic|].
        erewrite temp_control_magic_other by (done || exact E3).
        apply dict_lookup_set_eq.
      - inversion E3; subst. split; [done|apply dict_lookup_set_eq]. }
    inversion E4; subst. simpl. eexists. split; [reflexivity|done].
  - intros Hnone.
    assert (map_valve_setting c kw = kw) as Hmapped.
    { unfold map_valve_setting. by rewrite Hmap, Hget, Hnone. }
    split; [done|]. intros t Hin Hattr Hty Hothers. split; [|done].
    unfold _add_single. apply bind_raise.
    unfold check_request, mbind at 1, M_bind at 1, get_self.
    rewrite (bool_decide_true _ Hin). simpl. rewrite Hmapped.
    rewrite bool_decide_false by (by intros ->).
    apply bind_raise. by eapply check_kwargs_setting_mismatch.
Qed.

Lemma valve_setting_rules_witness :
  valve_mapping Fixture.valve = Some [("A", VInt 1); ("B", VInt 2)]
  ∧ dict_lookup "setting" [("setting", VStr "B")] = Some (VStr "B")
  ∧ map_valve_setting Fixture.valve [("setting", VStr "B")] = [("setting", VInt 2)].
Proof.
  split; [reflexivity|]. split; [reflexivity|].
  destruct (valve_setting_rules Fixture.ureg Fixture.valve (TimeExpr "0 seconds")
              None None [("setting", VStr "B")]
              {| self := Fixture.protocol [Fixture.valve] []; warnings := [] |}
              [("A", VInt 1); ("B", VInt 2)] "B" eq_refl eq_refl) as (_ & H & _).
  destruct (H (VInt 2) eq_refl) as [E _]. exact E.
Defined.

Example add_known_setting :
  run (_add_single Fixture.ureg Fixture.valve (TimeExpr "0 seconds") None None
         [("setting", VStr "B")])
      (Fixture.protocol [Fixture.valve] [])
  = (Ok (),
     {| self := Fixture.protocol [Fixture.valve]
          [ {| start := Some 0; stop := None; component := Fixture.valve;
               params := [("setting", VInt 2)] |} ];
        warnings := [] |}).
Proof. by vm_compute. Qed.


(** ** Timelines *)

Lemma emit_procedure_lookup viz c i successor compiled w r next :
  procedures (self w) !! i = Some r →
  match successor, next with
  | Some j, Some r' => procedures (self w) !! j = Some r'
  | None, None => True
  | _, _ => False
  end →
  emit_procedure viz c i successor compiled w
  = (emit_record viz c r next compiled, w).
Proof.
  intros Hi Hnext.
  unfold emit_procedure, emit_record, deref, mbind, M_bind, get_self.
  rewrite Hi. simpl. destruct viz; [done|].
  destruct successor as [j|], next as [r'|]; try done.
  rewrite Hnext. simpl. unfold py_isclose.
  destruct (start r') as [x|], (stop r) as [y|]; try done.
  simpl. by destruct (isclose x y).
Qed.

Lemma emit_lookup viz c cps rs w :
  Forall2 (λ i r, procedures (self w) !! i = Some r) cps rs →
  ∀ compiled,
    emit viz c cps compiled w = (emit_records viz c rs compiled, w).
Proof.
  induction 1 as [|i r cps rs Hi Hrest IH]; intros compiled; simpl; [done|].
  unfold mbind, M_bind.
  rewrite (emit_procedure_lookup viz c i (head cps) compiled w r (head rs)); [|done|].
  - destruct (emit_record viz c r (head rs) compiled); [apply IH|done].
  - by destruct Hrest.
Qed.

Lemma not_before_weaken s s' tl : s <= s' → not_before s' tl → not_before s tl.
Proof.
  intros Hs H. eapply Forall_impl; [exact H|]. intros y (t & Ht & Hle).
  exists t. split; [done|]. by eapply Qle_trans.
Qed.

Lemma time_lt_not_before x a s tl :
  instruction_time x = Some a → a < s → not_before s tl → Forall (time_lt x) tl.
Proof.
  intros Hx Ha H. eapply Forall_impl; [exact H|]. intros y (t & Ht & Hle).
  exists a, t. repeat split; try done. by eapply Qlt_le_trans.
Qed.

Lemma isclose_false_neq x y : isclose x y = false → ¬ x == y.
Proof.
  unfold isclose. intros H%orb_false_elim. destruct H as [H _].
  by apply Qeq_bool_neq.
Qed.

(** What one record contributes: its own instruction at [s], then nothing
    or the rest instruction at [e], which is strictly before the
    successor's start. *)
Lemma emit_record_chained viz c r rest compiled compiled1 :
  chained (r :: rest) →
  emit_record viz c r (head rest) compiled = Ok compiled1 →
  ∃ s e x new,
    start r = Some s ∧ stop r = Some e ∧ s < e
    ∧ compiled1 = compiled ++ x :: new
    ∧ instruction_time x = Some s
    ∧ match rest with
      | r' :: _ => ∃ s', start r' = Some s' ∧ e <= s'
                         ∧ (new = [] ∨ ∃ y, new = [y] ∧ instruction_time y = Some e
                                            ∧ e < s')
      | [] => new = [] ∨ ∃ y, new = [y] ∧ instruction_time y = Some e
      end.
Proof.
  intros [(s & e & Hs & He & Hlt & Hnext) _] E.
  exists s, e. unfold emit_record in E. rewrite Hs, He in E.
  destruct viz.
  { inversion E; subst. eexists _, []. repeat split; try done.
    destruct rest as [|r' ?]; [by left|].
    destruct Hnext as (s' & Hs' & Hle). exists s'. repeat split; try done. by left. }
  destruct rest as [|r' rest]; simpl in E.
  - inversion E; subst. rewrite <- app_assoc. simpl.
    eexists _, _. repeat split; try done. right. by eexists.
  - destruct Hnext as (s' & Hs' & Hle). rewrite Hs' in E.
    destruct (isclose s' e) eqn:Hclose; inversion E; subst.
    + eexists _, []. repeat split; try done.
      exists s'. repeat split; try done. by left.
    + rewrite <- app_assoc. simpl.
      eexists _, _. repeat split; try done.
      exists s'. repeat split; try done. right. eexists. repeat split; try done.
      apply Qle_lteq in Hle as [Hl|Heq]; [done|].
      apply isclose_false_neq in Hclose. by destruct Hclose.
Qed.

Lemma emit_records_increasing viz c rs :
  chained rs →
  ∀ compiled tl, emit_records viz c rs compiled = Ok tl →
    ∃ tl', tl = compiled ++ tl' ∧ strictly_increasing tl'
           ∧ match rs with
             | [] => tl' = []
             | r :: _ => ∃ s x, start r = Some s ∧ head tl' = Some x
                                ∧ instruction_time x = Some s ∧ not_before s tl'
             end.
Proof.
  induction rs as [|r rest IH]; intros Hch compiled tl E; simpl in E.
  { inversion E; subst. exists []. rewrite app_nil_r. repeat split. constructor. }
  destruct (emit_record viz c r (head rest) compiled) as [compiled1|] eqn:E1; [|done].
  destruct (emit_record_chained _ _ _ _ _ _ Hch E1)
    as (s & e & x & new & Hs & He & Hlt & -> & Hx & Hnext).
  destruct Hch as [_ Hch].
  destruct (IH Hch _ _ E) as (tl'' & -> & Hinc & Hhead).
  exists (x :: new ++ tl''). split; [by rewrite <- app_assoc|].
  assert (s <= s) as Hrefl by apply Qle_refl.
  destruct rest as [|r' rest].
  - subst tl''. rewrite app_nil_r.
    destruct Hnext as [->|(y & -> & Hy)].
    + split; [repeat constructor|].
      exists s, x. repeat split; try done. repeat constructor. by exists s.
    + split.
      * repeat constructor. by exists s, e.
      * exists s, x. repeat split; try done.
        repeat constructor; [by exists s|]. exists e. split; [done|].
        by apply Qlt_le_weak.
  - destruct Hnext as (s' & Hs' & Hle & Hnew).
    destruct Hhead as (s'' & x' & Hs'' & Hhd & Hx' & Hnb).
    rewrite Hs' in Hs''. inversion Hs''; subst s''.
    assert (s < s') as Hss' by by eapply Qlt_le_trans.
    destruct Hnew as [->|(y & -> & Hy & Hes')]; simpl.
    + split.
      * constructor; [done|]. by eapply time_lt_not_before.
      * exists s, x. repeat split; try done.
        constructor; [by exists s|].
        eapply not_before_weaken; [|exact Hnb]. by apply Qlt_le_weak.
    + split.
      * constructor.
        -- constructor; [done|]. by eapply time_lt_not_before.
        -- constructor; [by exists s, e|]. by eapply time_lt_not_before.
      * exists s, x. repeat split; try done.
        constructor; [by exists s|].
        constructor; [exists e; split; [done|by apply Qlt_le_weak]|].
        eapply not_before_weaken; [|exact Hnb]. by apply Qlt_le_weak.
Qed.

(** ** The sorted records of one component *)

Lemma elem_of_refs_of c l i r :
  (i, r) ∈ refs_of c l ↔ l !! i = Some r ∧ component r = c.
Proof.
  unfold refs_of. rewrite list_elem_of_filter. simpl. split.
  - intros [Hc Hin]. split; [|done].
    apply elem_of_lookup_imap in Hin as (j & y & Heq & Hj). by inversion Heq; subst.
  - intros [Hi Hc]. split; [done|].
    apply elem_of_lookup_imap. by exists i, r.
Qed.

Lemma NoDup_fst_imap (l : list procedure) (f : nat → nat) :
  Inj (=) (=) f → NoDup (fst <$> imap (λ i x, (f i, x)) l).
Proof.
  revert f. induction l as [|r l IH]; intros f Hf; [constructor|].
  rewrite imap_cons, fmap_cons. simpl. constructor.
  - rewrite list_elem_of_fmap. intros ([j y] & Heq & Hin). simpl in Heq.
    apply elem_of_lookup_imap in Hin as (k & z & Hkz & _).
    inversion Hkz; subst. simpl in *. by apply Hf in H0.
  - apply (IH (f ∘ S)). intros a b Hab. apply Hf in Hab. by inversion Hab.
Qed.

Lemma NoDup_fst_filter {B} (P : nat * B → Prop) `{∀ x, Decision (P x)} l :
  NoDup (fst <$> l) → NoDup (fst <$> filter P l).
Proof.
  induction l as [|x l IH]; [done|].
  rewrite fmap_cons, NoDup_cons. intros [Hx Hl]. rewrite filter_cons.
  destruct (decide (P x)); [|auto].
  rewrite fmap_cons. constructor; [|auto].
  intros Hin. apply Hx.
  apply list_elem_of_fmap in Hin as (y & Hy & Hin).
  apply list_elem_of_filter in Hin as [_ Hin].
  apply list_elem_of_fmap. eauto.
Qed.

Lemma NoDup_refs_of c l : NoDup (fst <$> refs_of c l).
Proof.
  unfold refs_of. apply NoDup_fst_filter.
  apply (NoDup_fst_imap l id). by intros ??.
Qed.

Lemma component_procedures_inv c w cps w' :
  component_procedures c w = (Ok cps, w') →
  w' = w
  ∧ ∃ l, cps = fst <$> l
         ∧ l ≡ₚ refs_of c (procedures (self w))
         ∧ StronglySorted (key_le start_key) l.
Proof.
  unfold component_procedures, mbind, M_bind, get_self, sorted_by_start.
  set (refs := refs_of c (procedures (self w))).
  case_bool_decide as Hlen.
  - intros E. inversion E; subst. split; [done|]. exists refs.
    repeat split; try done.
    destruct refs as [|x [|y refs]]; simpl in Hlen; [repeat constructor..|lia].
  - destruct (forallb _ refs); intros E; inversion E; subst.
    split; [done|]. eexists. split; [done|].
    split; [apply sorted_by_perm|apply sorted_by_sorted].
Qed.

(** ** Records that compile cannot change *)

Lemma frame_lookup l l' i r :
  frame l l' → l !! i = Some r → ∃ r', l' !! i = Some r' ∧ frame_record r r'.
Proof.
  intros H Hi. destruct (Forall2_lookup_l _ _ _ _ _ H Hi) as (r' & ? & ?). eauto.
Qed.

Lemma frame_lookup_back l l' i r' :
  frame l l' → l' !! i = Some r' → ∃ r, l !! i = Some r ∧ frame_record r r'.
Proof.
  intros H Hi. destruct (Forall2_lookup_r _ _ _ _ _ H Hi) as (r & ? & ?). eauto.
Qed.

Lemma same_records_refl c l : same_records c l l.
Proof. by intros i r _. Qed.

Lemma same_records_trans c l1 l2 l3 :
  same_records c l1 l2 → same_records c l2 l3 → same_records c l1 l3.
Proof. intros H1 H2 i r Hc. by rewrite (H1 i r Hc), (H2 i r Hc). Qed.

Lemma same_records_starts_at_first c l l' tl :
  same_records c l l' → starts_at_first c l' tl → starts_at_first c l tl.
Proof.
  intros Hsame (x & t0 & Hhd & Hx & (i & r & Hi & Hc & Hs) & Hmin).
  exists x, t0. repeat split; try done.
  - exists i, r. repeat split; try done. by apply Hsame.
  - intros j r' s Hj Hc' Hs'. apply (Hmin j r'); try done. by apply Hsame.
Qed.

Lemma Forall2_fst_snd {B} (P : nat → B → Prop) (l : list (nat * B)) :
  Forall (λ x, P x.1 x.2) l → Forall2 P (fst <$> l) (snd <$> l).
Proof. induction 1; constructor; auto. Qed.

Lemma output_lookup_set_eq c v o : output_lookup c (output_set c v o) = Some v.
Proof.
  induction o as [|[c' v'] o IH]; simpl.
  - by rewrite bool_decide_true.
  - case_bool_decide; simpl; [by rewrite bool_decide_true|].
    by rewrite bool_decide_false.
Qed.

Lemma output_lookup_set_ne c c' v o :
  c ≠ c' → output_lookup c' (output_set c v o) = output_lookup c' o.
Proof.
  intros Hne. induction o as [|[c0 v0] o IH]; simpl.
  - by rewrite bool_decide_false.
  - case_bool_decide as Hc; simpl.
    + subst c0. by rewrite !bool_decide_false.
    + case_bool_decide; [done|apply IH].
Qed.



(** ** Which records an iteration may change *)

Lemma touch_refl P r : touch P r r.
Proof. by left. Qed.

Lemma touch_trans P r1 r2 r3 : touch P r1 r2 → touch P r2 r3 → touch P r1 r3.
Proof.
  intros [->|[Hp H12]] [->|[Hp' H23]]; try (by left); try (by right).
  right. split; [done|]. by eapply frame_record_trans.
Qed.

Lemma touch_mono (P Q : Component → Prop) r r' :
  (∀ c, P c → Q c) → touch P r r' → touch Q r r'.
Proof. intros HPQ [->|[Hp H]]; [by left|right; auto]. Qed.

Lemma touch_component P r r' : touch P r r' → component r' = component r.
Proof. by intros [->|[_ (_ & ? & _)]]. Qed.

Lemma touch_frame P r r' : touch P r r' → frame_record r r'.
Proof. intros [->|[_ ?]]; [apply frame_record_refl|done]. Qed.

Lemma touches_refl P l : touches P l l.
Proof. induction l; constructor; auto using touch_refl. Qed.

Lemma touches_trans P l1 l2 l3 : touches P l1 l2 → touches P l2 l3 → touches P l1 l3.
Proof.
  unfold touches. intros H. revert l3.
  induction H as [|r1 r2 l1 l2 Hr _ IH]; intros l3 H3; inversion H3; subst;
    constructor; [by eapply touch_trans|by apply IH].
Qed.

Lemma touches_mono (P Q : Component → Prop) l l' :
  (∀ c, P c → Q c) → touches P l l' → touches Q l l'.
Proof.
  intros HPQ H. eapply Forall2_impl; [exact H|]. intros r r'. by apply touch_mono.
Qed.

Lemma touches_frame P l l' : touches P l l' → frame l l'.
Proof. intros H. eapply Forall2_impl; [exact H|]. apply touch_frame. Qed.

Lemma touches_alter P l i x v :
  l !! i = Some x → P (component x) → stop x = None →
  touches P l (alter (with_stop v) i l).
Proof.
  revert i. induction l as [|y l IH]; intros [|i] Hi Hp Hx; simpl in *; try done.
  - inversion Hi; subst. constructor; [|apply touches_refl].
    right. split; [done|]. repeat split; auto.
  - constructor; [apply touch_refl|]. by apply IH.
Qed.

Lemma touches_lookup_outside P l l' i r :
  touches P l l' → l !! i = Some r → ¬ P (component r) → l' !! i = Some r.
Proof.
  intros H Hi Hnp.
  destruct (Forall2_lookup_l _ _ _ _ _ H Hi) as (r' & Hi' & [->|[Hp _]]); done.
Qed.

Lemma touches_lookup_component P l l' i r' :
  touches P l l' → l' !! i = Some r' →
  ∃ r, l !! i = Some r ∧ component r' = component r.
Proof.
  intros H Hi'.
  destruct (Forall2_lookup_r _ _ _ _ _ H Hi') as (r & Hi & Ht).
  exists r. split; [done|]. by eapply touch_component.
Qed.

Lemma set_stop_touches P i v w r w' x :
  procedures (self w) !! i = Some x → P (component x) → stop x = None →
  set_stop i v w = (r, w') → touches P (procedures (self w)) (procedures (self w')).
Proof.
  intros Hi Hp Hx E. apply set_stop_inv in E as [_ ->]. simpl.
  by eapply touches_alter.
Qed.

Lemma infer_stop_touches P c i successor w r w' :
  (∀ x, procedures (self w) !! i = Some x → P (component x)) →
  infer_stop c i successor w = (r, w') →
  touches P (procedures (self w)) (procedures (self w')).
Proof.
  intros Hc E. unfold infer_stop in E.
  destruct (bind_inv _ _ _ _ _ E) as [(x & w1 & E1 & E2)|(e & E1 & _)]; clear E;
    apply deref_inv in E1 as [-> Hi]; [|apply touches_refl].
  specialize (Hc _ Hi).
  destruct successor as [j|].
  - destruct (bind_inv _ _ _ _ _ E2) as [(y & w1 & E1 & E3)|(e & E1 & _)]; clear E2;
      apply deref_inv in E1 as [-> Hj]; [|apply touches_refl].
    destruct (eq_zero (start y)); [inversion E3; subst; apply touches_refl|].
    destruct (bool_decide (start y ≠ None) && bool_decide (stop x = None)) eqn:Hb;
      [|inversion E3; subst; apply touches_refl].
    apply andb_prop in Hb as [_ Hx%bool_decide_eq_true].
    unfold mbind, M_bind, warn in E3. simpl in E3.
    eapply (set_stop_touches P _ _ _ _ _ x) in E3; [exact E3|exact Hi|done|exact Hx].
  - case_bool_decide as Hx; [|inversion E2; subst; apply touches_refl].
    unfold mbind at 1, M_bind at 1, warn in E2. simpl in E2.
    destruct (bind_inv _ _ _ _ _ E2) as [(d & w1 & E1 & E3)|(e & E1 & _)]; clear E2;
      apply readonly_inferred_duration in E1; simpl in E1.
    + rewrite <- E1 in Hi |- *.
      eapply (set_stop_touches P _ _ _ _ _ x) in E3; [exact E3|exact Hi|done|exact Hx].
    + rewrite E1. apply touches_refl.
Qed.

Lemma infer_stops_touches P c cps :
  ∀ w r w',
    Forall (λ i, ∀ x, procedures (self w) !! i = Some x → P (component x)) cps →
    infer_stops c cps w = (r, w') →
    touches P (procedures (self w)) (procedures (self w')).
Proof.
  induction cps as [|i rest IH]; intros w r w' Hcps E; simpl in E.
  { inversion E; subst. apply touches_refl. }
  apply Forall_cons in Hcps as [Hi Hrest].
  destruct (bind_inv _ _ _ _ _ E) as [([] & w1 & E1 & E2)|(e & E1 & _)]; clear E;
    pose proof (infer_stop_touches P _ _ _ _ _ _ Hi E1) as Ht; [|done].
  eapply touches_trans; [exact Ht|]. eapply IH; [|exact E2].
  eapply Forall_impl; [exact Hrest|]. intros j Hj x Hx.
  destruct (touches_lookup_component _ _ _ _ _ Ht Hx) as (x0 & Hx0 & ->). eauto.
Qed.

Lemma component_procedures_starts c w cps w' :
  component_procedures c w = (Ok cps, w') →
  ∃ l, cps = fst <$> l
       ∧ Forall (λ x : nat * procedure,
           procedures (self w) !! x.1 = Some x.2 ∧ component x.2 = c) l
       ∧ ((length l ≤ 1)%nat ∨ Forall (λ x : nat * procedure, is_Some (start x.2)) l).
Proof.
  intros E.
  assert (∀ l, l ≡ₚ refs_of c (procedures (self w)) →
     Forall (λ x : nat * procedure,
       procedures (self w) !! x.1 = Some x.2 ∧ component x.2 = c) l) as Hlook.
  { intros l Hperm. apply Forall_forall. intros [i r] Hin. rewrite Hperm in Hin.
    by apply elem_of_refs_of in Hin. }
  revert E.
  unfold component_procedures, mbind, M_bind, get_self, sorted_by_start.
  set (refs := refs_of c (procedures (self w))) in *.
  case_bool_decide as Hlen.
  - intros E. inversion E; subst. exists refs. split; [done|]. split; [by apply Hlook|].
    by left.
  - destruct (forallb _ refs) eqn:Hall; intros E; inversion E; subst.
    eexists. split; [done|]. split; [apply Hlook, sorted_by_perm|]. right.
    apply sorted_by_Forall. apply Forall_forall. intros x Hx.
    rewrite forallb_forall in Hall. apply list_elem_of_In in Hx.
    specialize (Hall x Hx). by apply bool_decide_eq_true in Hall.
Qed.

Lemma omap_lookup_refs (procs : list procedure) (l : list (nat * procedure)) :
  Forall (λ x, procs !! x.1 = Some x.2) l →
  omap (λ i, procs !! i) (fst <$> l) = snd <$> l.
Proof.
  induction 1 as [|[i r] l Hi _ IH]; [done|].
  simpl in *. rewrite Hi. by f_equal.
Qed.

(** After [sorted] has succeeded, at most one record of the component has
    neither boundary set. *)
Lemma whole_duration_count_sorted c w cps w' :
  component_procedures c w = (Ok cps, w') →
  (whole_duration_count (omap (λ i, procedures (self w) !! i) cps) ≤ 1)%nat.
Proof.
  intros E. apply component_procedures_starts in E as (l & -> & Hl & Hstarts).
  rewrite omap_lookup_refs; cycle 1.
  { eapply Forall_impl; [exact Hl|]. by intros x [? _]. }
  unfold whole_duration_count.
  destruct Hstarts as [Hlen|Hall].
  - etrans; [apply length_filter|]. by rewrite length_fmap.
  - assert (filter (λ x, start x = None ∧ stop x = None) (snd <$> l) = []) as ->;
      [|simpl; lia].
    induction Hall as [|x l [s Hs] _ IH]; [done|].
    apply Forall_cons in Hl as [_ Hl].
    rewrite fmap_cons, filter_cons.
    destruct (decide _) as [[Hnone _]|_]; [congruence|auto].
Qed.

Lemma never_conflicting_infer_stops c cps :
  never ConflictingWholeDurationError (infer_stops c cps).
Proof.
  induction cps as [|i rest IH]; simpl; [never_steps|].
  apply never_bind; [|auto].
  unfold infer_stop, deref, set_stop, _inferred_duration. never_steps.
Qed.

Lemma never_conflicting_emit viz c cps :
  ∀ compiled, never ConflictingWholeDurationError (emit viz c cps compiled).
Proof.
  induction cps as [|i rest IH]; intros compiled; simpl; [never_steps|].
  apply never_bind; [|auto].
  unfold emit_procedure, deref, py_isclose. never_steps.
Qed.

Lemma never_conflicting_compile_components dry_run viz cs :
  ∀ output, never ConflictingWholeDurationError
              (compile_components dry_run viz cs output).
Proof.
  induction cs as [|c cs IH]; intros output; simpl; [never_steps|].
  intros w w' E.
  destruct (bind_inv _ _ _ _ _ E) as [(cps & w1 & E1 & E2)|(e & E1 & [= <-])]; clear E.
  - pose proof (readonly_component_procedures _ _ _ _ E1) as Hw1.
    pose proof (whole_duration_count_sorted _ _ _ _ E1) as Hcount.
    revert E2. case_bool_decide.
    { apply never_bind; [never_steps|auto]. }
    destruct (negb _); [by apply never_raise|].
    unfold mbind at 1, M_bind at 1, get_self. rewrite Hw1.
    rewrite bool_decide_false by lia.
    apply never_bind; [apply never_conflicting_infer_stops|]. intros _.
    apply never_bind; [apply never_conflicting_emit|auto].
  - revert E1. unfold component_procedures, refs_of, mbind, M_bind, get_self, sorted_by_start.
    repeat first [case_bool_decide | destruct (forallb _ _)]; by intros [=].
Qed.

(** The check for conflicting whole-duration records never fires. *)
Lemma never_conflicting_compile dry_run viz :
  never ConflictingWholeDurationError (compile dry_run viz).
Proof.
  unfold compile. apply never_bind; [never_steps|]. intros p.
  case_bool_decide; [by apply never_raise|].
  apply never_conflicting_compile_components.
Qed.

(** ** Sorting again after stops have been written *)

Lemma imap_pair_frame (f : nat → nat) l l' :
  frame l l' →
  Forall2 same_key (imap (λ i x, (f i, x)) l) (imap (λ i x, (f i, x)) l').
Proof.
  intros H. revert f. induction H as [|r r' l l' Hr _ IH]; intros f; [constructor|].
  rewrite !imap_cons. constructor; [|apply (IH (f ∘ S))].
  destruct Hr as (Hs & Hc & _). by repeat split.
Qed.

Lemma refs_of_frame c l l' :
  frame l l' → Forall2 same_key (refs_of c l) (refs_of c l').
Proof.
  intros H. unfold refs_of.
  pose proof (imap_pair_frame id _ _ H) as Hp.
  change (imap (λ i x, (id i, x)) l) with (imap pair l) in Hp.
  change (imap (λ i x, (id i, x)) l') with (imap pair l') in Hp.
  induction Hp as [|x y a b Hxy _ IH]; [constructor|].
  rewrite !filter_cons. destruct Hxy as (H1 & Hs & Hc).
  rewrite Hc. destruct (decide (component y.2 = c)); [|done].
  constructor; [by repeat split|done].
Qed.

Lemma insert_by_same_key x y a b :
  same_key x y → Forall2 same_key a b →
  Forall2 same_key (insert_by start_key x a) (insert_by start_key y b).
Proof.
  intros Hxy H. induction H as [|x' y' a b Hxy' Hab IH]; simpl.
  { constructor; [done|constructor]. }
  assert (start_key x = start_key y) as ->.
  { unfold start_key. by destruct Hxy as (_ & -> & _). }
  assert (start_key x' = start_key y') as ->.
  { unfold start_key. by destruct Hxy' as (_ & -> & _). }
  destruct (Qlt_bool (start_key y') (start_key y)).
  - by constructor.
  - constructor; [done|]. by constructor.
Qed.

Lemma sorted_by_same_key a b :
  Forall2 same_key a b →
  Forall2 same_key (sorted_by start_key a) (sorted_by start_key b).
Proof.
  induction 1; simpl; [constructor|]. by apply insert_by_same_key.
Qed.

Lemma same_key_fst a b : Forall2 same_key a b → fst <$> a = fst <$> b.
Proof.
  induction 1 as [|x y a b (H1 & _) _ IH]; [done|].
  rewrite !fmap_cons. by f_equal.
Qed.

Lemma same_key_starts a b :
  Forall2 same_key a b →
  forallb (λ x : nat * procedure, bool_decide (is_Some (start x.2))) a
  = forallb (λ x : nat * procedure, bool_decide (is_Some (start x.2))) b.
Proof.
  induction 1 as [|x y a b (_ & Hs & _) _ IH]; [done|].
  simpl. by rewrite Hs, IH.
Qed.

Lemma component_procedures_frame c u v cps u' :
  frame (procedures (self u)) (procedures (self v)) →
  component_procedures c u = (Ok cps, u') →
  component_procedures c v = (Ok cps, v).
Proof.
  intros Hfr. apply (refs_of_frame c) in Hfr.
  unfold component_procedures, mbind, M_bind, get_self, sorted_by_start.
  rewrite <- (Forall2_length _ _ _ Hfr), <- (same_key_starts _ _ Hfr).
  case_bool_decide.
  - intros E. inversion E; subst. unfold mret, M_ret.
    by rewrite (same_key_fst _ _ Hfr).
  - destruct (forallb _ _); intros E; inversion E; subst. unfold mret, M_ret.
    by rewrite (same_key_fst _ _ (sorted_by_same_key _ _ Hfr)).
Qed.

(** ** Compiling a second time *)

Lemma frame_same_starts l l' : frame l l' → same_starts l l'.
Proof. intros H. eapply Forall2_impl; [exact H|]. by intros r r' (-> & _). Qed.

Lemma same_starts_sym l l' : same_starts l l' → same_starts l' l.
Proof. intros H. apply Forall2_flip. eapply Forall2_impl; [exact H|]. done. Qed.

Lemma same_starts_trans l1 l2 l3 :
  same_starts l1 l2 → same_starts l2 l3 → same_starts l1 l3.
Proof.
  unfold same_starts. intros H. revert l3.
  induction H as [|r1 r2 l1 l2 Hr _ IH]; intros l3 H3; inversion H3; subst;
    constructor; [congruence|by apply IH].
Qed.

Lemma same_starts_lookup l l' i r :
  same_starts l l' → l !! i = Some r → ∃ r', l' !! i = Some r' ∧ start r = start r'.
Proof.
  intros H Hi. destruct (Forall2_lookup_l _ _ _ _ _ H Hi) as (r' & ? & ?). eauto.
Qed.

Lemma compile_components_touches dry_run viz cs :
  ∀ output w r w',
    compile_components dry_run viz cs output w = (r, w') →
    touches (λ c, c ∈ cs) (procedures (self w)) (procedures (self w')).
Proof.
  induction cs as [|c cs IH]; intros output w r w' E; simpl in E.
  { inversion E; subst. apply touches_refl. }
  assert (∀ l l', touches (λ c', c' ∈ cs) l l' → touches (λ c', c' ∈ c :: cs) l l')
    as Hmono.
  { intros l l'. apply touches_mono. intros c' Hc'. by right. }
  destruct (bind_inv _ _ _ _ _ E) as [(cps & w1 & E1 & E2)|(e & E1 & _)]; clear E;
    pose proof (readonly_component_procedures _ _ _ _ E1) as Hw1;
    [|rewrite Hw1; apply touches_refl].
  revert E2. case_bool_decide; intros E2.
  { unfold mbind, M_bind, warn in E2. simpl in E2.
    apply IH in E2. simpl in E2. rewrite Hw1 in E2. by apply Hmono. }
  destruct (negb _); [inversion E2; subst; rewrite Hw1; apply touches_refl|].
  unfold mbind at 1, M_bind at 1, get_self in E2.
  revert E2. case_bool_decide; intros E2;
    [inversion E2; subst; rewrite Hw1; apply touches_refl|].
  apply component_procedures_starts in E1 as (l & -> & Hl & _).
  destruct (bind_inv _ _ _ _ _ E2) as [([] & w2 & E3 & E4)|(e & E3 & _)]; clear E2;
    (eapply (infer_stops_touches (λ c', c' ∈ c :: cs)) in E3 as Ht;
      [|rewrite Hw1; apply Forall_fmap; eapply Forall_impl; [exact Hl|];
        intros [i r0] [Hi Hc] x Hx; simpl in *; rewrite Hi in Hx;
        inversion Hx; subst; by left]);
    rewrite Hw1 in Ht; [|done].
  eapply touches_trans; [exact Ht|].
  destruct (bind_inv _ _ _ _ _ E4) as [(tl & w3 & E5 & E6)|(e & E5 & _)]; clear E4;
    pose proof (readonly_emit _ _ _ _ _ _ _ E5) as Hw3; rewrite <- Hw3;
    [|apply touches_refl].
  apply Hmono. by eapply IH.
Qed.

Lemma deref_ok i w r :
  procedures (self w) !! i = Some r → deref i w = (Ok r, w).
Proof. intros Hi. unfold deref, mbind, M_bind, get_self. by rewrite Hi. Qed.

(** An inference step that succeeded succeeds again, and does nothing,
    on a store with the same starts in which the record has a stop. *)
Lemma infer_stop_replay c i successor u u' v :
  infer_stop c i successor u = (Ok (), u') →
  same_starts (procedures (self u)) (procedures (self v)) →
  (∀ x, procedures (self v) !! i = Some x → stop x ≠ None) →
  infer_stop c i successor v = (Ok (), v).
Proof.
  intros E Hss Hdef. unfold infer_stop in *.
  destruct (bind_inv _ _ _ _ _ E) as [(x & w1 & E1 & E2)|(e & _ & [=])]; clear E.
  apply deref_inv in E1 as [-> Hi].
  destruct (same_starts_lookup _ _ _ _ Hss Hi) as (x' & Hi' & _).
  erewrite bind_ok by by apply deref_ok.
  specialize (Hdef _ Hi').
  destruct successor as [j|].
  - destruct (bind_inv _ _ _ _ _ E2) as [(y & w1 & E1 & E3)|(e & _ & [=])]; clear E2.
    apply deref_inv in E1 as [-> Hj].
    destruct (same_starts_lookup _ _ _ _ Hss Hj) as (y' & Hj' & Hsy).
    erewrite bind_ok by by apply deref_ok.
    rewrite <- Hsy. destruct (eq_zero (start y)); [done|].
    by rewrite (bool_decide_false (stop x' = None)), andb_false_r.
  - by rewrite bool_decide_false.
Qed.

Lemma infer_stops_replay c cps :
  ∀ u u' v,
    infer_stops c cps u = (Ok (), u') →
    same_starts (procedures (self u)) (procedures (self v)) →
    Forall (λ i, ∀ x, procedures (self v) !! i = Some x → stop x ≠ None) cps →
    infer_stops c cps v = (Ok (), v).
Proof.
  induction cps as [|i rest IH]; intros u u' v E Hss Hdef; simpl in *; [done|].
  apply Forall_cons in Hdef as [Hi Hrest].
  destruct (bind_inv _ _ _ _ _ E) as [([] & u1 & E1 & E2)|(e & _ & [=])]; clear E.
  erewrite bind_ok by (eapply infer_stop_replay; eauto).
  eapply IH; [exact E2| |exact Hrest].
  eapply same_starts_trans; [|exact Hss].
  apply same_starts_sym, frame_same_starts.
  by destruct (framed_infer_stop _ _ _ _ _ _ E1) as (_ & _ & _ & ?).
Qed.

Lemma lookups_exist (l : list procedure) (cps : list nat) :
  Forall (λ i, is_Some (l !! i)) cps →
  ∃ rs, Forall2 (λ i r, l !! i = Some r) cps rs.
Proof.
  induction 1 as [|i cps [r Hr] _ (rs & IH)]; [by exists []|].
  exists (r :: rs). by constructor.
Qed.

Lemma remove_dups_length_le {A} `{EqDecision A} (l : list A) :
  (length (remove_dups l) ≤ length l)%nat.
Proof.
  induction l as [|x l IH]; simpl; [done|].
  destruct (decide_rel elem_of x l); simpl; lia.
Qed.

Lemma remove_dups_length_NoDup {A} `{EqDecision A} (l : list A) :
  length (remove_dups l) = length l → NoDup l.
Proof.
  induction l as [|x l IH]; simpl; [constructor|].
  pose proof (remove_dups_length_le l).
  destruct (decide_rel elem_of x l); simpl; intros Hlen; [lia|].
  constructor; [done|]. apply IH. lia.
Qed.

Lemma lookups_transfer (l1 l2 : list procedure) (cps : list nat) rs :
  Forall2 (λ i r, l1 !! i = Some r) cps rs →
  (∀ i r, i ∈ cps → l1 !! i = Some r → l2 !! i = Some r) →
  Forall2 (λ i r, l2 !! i = Some r) cps rs.
Proof.
  induction 1 as [|i r cps rs Hi _ IH]; intros Hall; constructor.
  - apply Hall; [by left|done].
  - apply IH. intros j r' Hj. apply Hall. by right.
Qed.

(** A run of the loop over the components that returned, replayed on the
    protocol it left behind, returns the same output and changes nothing,
    provided every record of these components now has a stop. *)
Lemma compile_components_replay dry_run viz cs :
  NoDup cs →
  ∀ output u out w1,
    compile_components dry_run viz cs output u = (Ok out, w1) →
    stops_defined cs (procedures (self w1)) →
    ∀ v, self v = self w1 →
      ∃ v', compile_components dry_run viz cs output v = (Ok out, v')
            ∧ self v' = self v.
Proof.
  induction 1 as [|c cs Hc Hnd IH]; intros output u out w1 E Hdef v Hv; simpl in *.
  { inversion E; subst. by exists v. }
  pose proof (touches_frame _ _ _ (compile_components_touches _ _ (c :: cs) _ _ _ _ E))
    as Hfr.
  rewrite <- Hv in Hfr.
  assert (stops_defined cs (procedures (self w1))) as Hdef'.
  { intros r Hr Hin. apply Hdef; [done|by right]. }
  simpl in E.
  destruct (bind_inv _ _ _ _ _ E) as [(cps & ua & E1 & E2)|(e & _ & [=])]; clear E.
  pose proof (readonly_component_procedures _ _ _ _ E1) as Hua.
  pose proof (component_procedures_frame _ _ _ _ _ Hfr E1) as E1v.
  erewrite bind_ok by exact E1v.
  revert E2. case_bool_decide as Hlen; intros E2.
  { unfold mbind, M_bind, warn in E2 |- *. simpl in E2.
    destruct (IH _ _ _ _ E2 Hdef'
                {| self := self v; warnings := warnings v ++ [UnusedComponent c] |} Hv)
      as (v' & Ev & Hv').
    by exists v'. }
  destruct (negb (validate c dry_run)); [done|].
  unfold mbind at 1, M_bind at 1, get_self in E2.
  unfold mbind at 1, M_bind at 1, get_self.
  revert E2. case_bool_decide; intros E2; [done|].
  rewrite bool_decide_false
    by (pose proof (whole_duration_count_sorted _ _ _ _ E1v); lia).
  destruct (bind_inv _ _ _ _ _ E2) as [([] & u2 & E3 & E4)|(e & _ & [=])]; clear E2.
  destruct (bind_inv _ _ _ _ _ E4) as [(tl & u3 & E5 & E6)|(e & _ & [=])]; clear E4.
  apply component_procedures_starts in E1 as (l & -> & Hl & _).
  pose proof (framed_infer_stops _ _ _ _ _ E3) as (_ & _ & _ & Hfr2).
  rewrite Hua in Hfr2.
  pose proof (readonly_emit _ _ _ _ _ _ _ E5) as Hu3.
  pose proof (compile_components_touches _ _ _ _ _ _ _ E6) as Hlater.
  rewrite Hu3, <- Hv in Hlater.
  (* the inference does nothing on [v] *)
  erewrite bind_ok; cycle 1.
  { eapply infer_stops_replay; [exact E3| |].
    - rewrite Hua. by apply frame_same_starts.
    - apply Forall_fmap. eapply Forall_impl; [exact Hl|].
      intros [i r] [Hi Hci] x Hx. simpl in *.
      destruct (frame_lookup _ _ _ _ Hfr Hi) as (x' & Hx' & (_ & Hcx & _)).
      rewrite Hx in Hx'. inversion Hx'; subst x'.
      apply Hdef; [rewrite <- Hv; by eapply list_elem_of_lookup_2|].
      rewrite Hcx, Hci. by left. }
  (* the emission reads the same records *)
  destruct (lookups_exist (procedures (self u2)) (fst <$> l)) as (rs & Hrs).
  { apply Forall_fmap. eapply Forall_impl; [exact Hl|].
    intros [i r] [Hi _]. simpl in *.
    destruct (frame_lookup _ _ _ _ Hfr2 Hi) as (x & Hx & _). by exists x. }
  rewrite (emit_lookup _ _ _ _ _ Hrs) in E5.
  destruct (emit_records viz c rs []) as [tl0|] eqn:Erec; [|done].
  inversion E5; subst tl0 u3.
  assert (Forall2 (λ i r, procedures (self v) !! i = Some r) (fst <$> l) rs) as Hrsv.
  { eapply lookups_transfer; [exact Hrs|].
    intros i r Hin Hi2.
    apply list_elem_of_fmap in Hin as ([i0 r0] & -> & Hin). simpl in *.
    rewrite Forall_forall in Hl. destruct (Hl _ Hin) as [Hi0 Hc0]. simpl in *.
    destruct (frame_lookup _ _ _ _ Hfr2 Hi0) as (x & Hx & (_ & Hcx & _)).
    rewrite Hi2 in Hx. inversion Hx; subst x.
    eapply touches_lookup_outside; [exact Hlater|exact Hi2|].
    simpl. by rewrite Hcx, Hc0. }
  erewrite bind_ok; cycle 1.
  { rewrite (emit_lookup _ _ _ _ _ Hrsv), Erec. reflexivity. }
  exact (IH _ _ _ _ E6 Hdef' v Hv).
Qed.

(** X17.  Compiling again after a call that returned gives the same output
    and leaves the protocol as the first call left it, provided the first
    call left every record of an active component with a stop. *)
Lemma compile_again dry_run viz w out w1 :
  compile dry_run viz w = (Ok out, w1) →
  stops_defined (_active_components (apparatus (self w))) (procedures (self w1)) →
  ∃ w2, compile dry_run viz w1 = (Ok out, w2) ∧ self w2 = self w1.
Proof.
  intros E Hdef.
  destruct (framed_compile _ _ _ _ _ E) as (Happ & _).
  unfold compile, mbind, M_bind, get_self in *. rewrite Happ.
  revert E. case_bool_decide as Hdup; [done|]. intros E.
  rewrite <- (length_fmap name (_active_components (apparatus (self w)))) in Hdup.
  apply remove_dups_length_NoDup, NoDup_fmap_1 in Hdup.
  by eapply compile_components_replay.
Qed.

(** C2 on the code.  With a record of [B] that stops at 0 s listed first,
    [_inferred_duration] returns [None] while [A] is compiled: the first
    call gives [A] a rest instruction without a time, and writes 7 into
    the stops of [B].  The second call on the same protocol finds that 7
    and gives [A] its rest instruction at 7 s: the two outputs differ. *)
Theorem compile_twice_differs :
  ∃ out1 w1 out2 w2,
    run (compile true false) (Fixture.protocol [Fixture.A; Fixture.B] Fixture.staggered)
      = (Ok out1, w1)
    ∧ compile true false w1 = (Ok out2, w2)
    ∧ output_lookup Fixture.A out1
      = Some [Exec (Some 0) [("x", VInt 1)]; Exec None (base_state Fixture.A)]
    ∧ output_lookup Fixture.A out2
      = Some [Exec (Some 0) [("x", VInt 1)]; Exec (Some 7) (base_state Fixture.A)]
    ∧ out1 ≠ out2.
Proof.
  eexists _, _, _, _. split; [by vm_compute|]. split; [by vm_compute|].
  split; [by vm_compute|]. split; [by vm_compute|]. by vm_compute.
Qed.

(** A last record without a stop takes the latest stop of the whole
    protocol, which may lie before its own start. *)
Example compile_open_ended_rest_before_start :
  ∃ out w',
    run (compile true false)
      (Fixture.protocol [Fixture.A; Fixture.B]
         [Fixture.rec Fixture.A (Some 100) None 1;
          Fixture.rec Fixture.B (Some 0) (Some 5) 2]) = (Ok out, w')
    ∧ output_lookup Fixture.A out
      = Some [Exec (Some 100) [("x", VInt 1)]; Exec (Some 5) (base_state Fixture.A)].
Proof. eexists _, _. split; by vm_compute. Qed.

(** ** References stay inside the store *)

Lemma frame_is_Some l l' i : frame l l' → is_Some (l !! i) → is_Some (l' !! i).
Proof.
  intros H [r Hr]. destruct (frame_lookup _ _ _ _ H Hr) as (r' & Hr' & _). eauto.
Qed.

Lemma never_apply {A} e (m : M A) w w' : never e m → m w ≠ (Raise e, w').
Proof. intros H. apply H. Qed.

Lemma infer_stop_not_dangling c i successor w w' :
  is_Some (procedures (self w) !! i) →
  (∀ j, successor = Some j → is_Some (procedures (self w) !! j)) →
  infer_stop c i successor w ≠ (Raise DanglingReference, w').
Proof.
  intros [x Hx] Hsucc. unfold infer_stop.
  erewrite bind_ok by by apply deref_ok.
  destruct successor as [j|].
  - destruct (Hsucc j eq_refl) as [y Hy].
    erewrite bind_ok by by apply deref_ok.
    apply never_apply. unfold set_stop. never_steps.
  - apply never_apply. unfold set_stop, _inferred_duration. never_steps.
Qed.

Lemma infer_stops_not_dangling c cps :
  ∀ w w', Forall (λ i, is_Some (procedures (self w) !! i)) cps →
          infer_stops c cps w ≠ (Raise DanglingReference, w').
Proof.
  induction cps as [|i rest IH]; intros w w' Hcps E; simpl in E; [done|].
  apply Forall_cons in Hcps as [Hi Hrest].
  destruct (bind_inv _ _ _ _ _ E) as [([] & w1 & E1 & E2)|(e & E1 & [= <-])]; clear E.
  - eapply IH; [|exact E2].
    destruct (framed_infer_stop _ _ _ _ _ _ E1) as (_ & _ & _ & Hfr).
    eapply Forall_impl; [exact Hrest|]. intros j. by apply frame_is_Some.
  - eapply infer_stop_not_dangling; [exact Hi| |exact E1].
    intros j Hj. destruct rest as [|j' rest']; [done|].
    apply Forall_cons in Hrest as [Hj' _]. by inversion Hj; subst.
Qed.

Lemma emit_not_dangling viz c cps :
  ∀ compiled w w', Forall (λ i, is_Some (procedures (self w) !! i)) cps →
                   emit viz c cps compiled w ≠ (Raise DanglingReference, w').
Proof.
  intros compiled w w' Hcps E.
  destruct (lookups_exist _ _ Hcps) as (rs & Hrs).
  rewrite (emit_lookup _ _ _ _ _ Hrs) in E.
  clear Hrs Hcps. revert compiled E.
  induction rs as [|r rs IH]; intros compiled E; simpl in E; [done|].
  destruct (emit_record viz c r (head rs) compiled) as [compiled1|e] eqn:E1.
  - by eapply IH.
  - inversion E; subst. unfold emit_record in E1.
    destruct viz; [done|]. destruct (head rs) as [r'|]; [|done].
    destruct (start r') as [a|], (stop r) as [b|]; try done.
    by destruct (isclose a b).
Qed.

Lemma compile_components_not_dangling dry_run viz cs :
  ∀ output, never DanglingReference (compile_components dry_run viz cs output).
Proof.
  induction cs as [|c cs IH]; intros output; simpl; [never_steps|].
  intros w w' E.
  destruct (bind_inv _ _ _ _ _ E) as [(cps & w1 & E1 & E2)|(e & E1 & [= <-])]; clear E;
    cycle 1.
  { revert E1. unfold component_procedures, mbind, M_bind, get_self, sorted_by_start.
    repeat first [case_bool_decide | destruct (forallb _ _)]; by intros [=]. }
  pose proof (readonly_component_procedures _ _ _ _ E1) as Hw1.
  apply component_procedures_starts in E1 as (l & -> & Hl & _).
  assert (Forall (λ i, is_Some (procedures (self w1) !! i)) (fst <$> l)) as Hvalid.
  { rewrite Hw1. apply Forall_fmap. eapply Forall_impl; [exact Hl|].
    intros [i r] [Hi _]. by exists r. }
  revert E2. case_bool_decide.
  { apply never_bind; [never_steps|auto]. }
  destruct (negb _); [by apply never_raise|].
  unfold mbind at 1, M_bind at 1, get_self.
  case_bool_decide; [by apply never_raise|]. intros E2.
  destruct (bind_inv _ _ _ _ _ E2) as [([] & w2 & E3 & E4)|(e & E3 & [= <-])]; clear E2;
    [|by eapply infer_stops_not_dangling].
  destruct (framed_infer_stops _ _ _ _ _ E3) as (_ & _ & _ & Hfr).
  destruct (bind_inv _ _ _ _ _ E4) as [(tl & w3 & E5 & E6)|(e & E5 & [= <-])]; clear E4.
  - by eapply IH.
  - eapply emit_not_dangling; [|exact E5].
    eapply Forall_impl; [exact Hvalid|]. intros j. by apply frame_is_Some.
Qed.

(** [compile] never reads a position outside [self.procedures]. *)
Lemma compile_not_dangling dry_run viz :
  never DanglingReference (compile dry_run viz).
Proof.
  unfold compile. apply never_bind; [never_steps|]. intros p.
  case_bool_decide; [by apply never_raise|].
  apply compile_components_not_dangling.
Qed.

(** ** Timelines of records with inferred stops *)

Lemma chained_fill_stops rs : chain_ok rs → chained (fill_stops rs).
Proof.
  induction rs as [|r rest IH]; [done|].
  intros [(s & Hs & Hpos & Hnext) Hrest]. simpl. split; [|auto].
  destruct rest as [|r' rest'].
  - destruct (stop r) as [e|] eqn:He; [|done].
    exists s, e. repeat split; auto.
  - destruct Hnext as (s' & Hs' & Hlt & Hle).
    assert (start (match rest' with
                   | [] => r'
                   | r'' :: _ =>
                       if bool_decide (stop r' = None)
                       then with_stop (start r'') r' else r'
                   end) = Some s') as Hhd.
    { destruct rest'; [done|]. by case_bool_decide. }
    destruct (decide (stop r = None)) as [Hnone|Hnone].
    + rewrite (bool_decide_true _ Hnone).
      exists s, s'. simpl. repeat split; try done.
      exists s'. split; [exact Hhd|apply Qle_refl].
    + rewrite (bool_decide_false _ Hnone).
      destruct (stop r) as [e|] eqn:He; [|done].
      exists s, e. repeat split; auto.
      exists s'. split; [exact Hhd|auto].
Qed.

Lemma set_stop_lookup_other i v w r w' k :
  k ≠ i → set_stop i v w = (r, w') →
  procedures (self w') !! k = procedures (self w) !! k.
Proof.
  intros Hk E. apply set_stop_inv in E as [_ ->]. simpl.
  by apply list_lookup_alter_ne.
Qed.

Lemma infer_stop_lookup_other c i successor w r w' k :
  k ≠ i → infer_stop c i successor w = (r, w') →
  procedures (self w') !! k = procedures (self w) !! k.
Proof.
  intros Hk E. unfold infer_stop in E.
  destruct (bind_inv _ _ _ _ _ E) as [(x & w1 & E1 & E2)|(e & E1 & _)]; clear E;
    apply deref_inv in E1 as [-> Hi]; [|done].
  destruct successor as [j|].
  - destruct (bind_inv _ _ _ _ _ E2) as [(y & w1 & E1 & E3)|(e & E1 & _)]; clear E2;
      apply deref_inv in E1 as [-> Hj]; [|done].
    destruct (eq_zero (start y)); [by inversion E3|].
    destruct (_ && _); [|by inversion E3].
    unfold mbind, M_bind, warn in E3. simpl in E3.
    by apply (set_stop_lookup_other _ _ _ _ _ k) in E3.
  - case_bool_decide; [|by inversion E2].
    unfold mbind at 1, M_bind at 1, warn in E2. simpl in E2.
    destruct (bind_inv _ _ _ _ _ E2) as [(d & w1 & E1 & E3)|(e & E1 & _)]; clear E2;
      apply readonly_inferred_duration in E1; simpl in E1.
    + apply (set_stop_lookup_other _ _ _ _ _ k) in E3; [|done]. by rewrite E3, E1.
    + by rewrite E1.
Qed.

Lemma infer_stops_lookup_other c cps :
  ∀ w r w' k, k ∉ cps → infer_stops c cps w = (r, w') →
              procedures (self w') !! k = procedures (self w) !! k.
Proof.
  induction cps as [|i rest IH]; intros w r w' k Hk E; simpl in E.
  { by inversion E. }
  apply not_elem_of_cons in Hk as [Hki Hkrest].
  destruct (bind_inv _ _ _ _ _ E) as [([] & w1 & E1 & E2)|(e & E1 & _)]; clear E.
  - rewrite (IH _ _ _ _ Hkrest E2). by eapply infer_stop_lookup_other.
  - by eapply infer_stop_lookup_other.
Qed.

(** What a successful inference step leaves at position [i]. *)
Lemma infer_stop_fill c i successor w w' x :
  procedures (self w) !! i = Some x →
  match successor with
  | Some j => ∃ y, procedures (self w) !! j = Some y ∧ start y ≠ None
  | None => stop x ≠ None
  end →
  infer_stop c i successor w = (Ok (), w') →
  procedures (self w') !! i
  = Some match successor with
         | Some j =>
             match procedures (self w) !! j with
             | Some y => if bool_decide (stop x = None)
                         then with_stop (start y) x else x
             | None => x
             end
         | None => x
         end.
Proof.
  intros Hi Hsucc E. unfold infer_stop in E.
  erewrite bind_ok in E by by apply deref_ok.
  destruct successor as [j|].
  - destruct Hsucc as (y & Hj & Hy). rewrite Hj.
    erewrite bind_ok in E by by apply deref_ok.
    destruct (eq_zero (start y)); [done|].
    rewrite (bool_decide_true _ Hy) in E. simpl in E.
    case_bool_decide as Hx.
    + unfold mbind, M_bind, warn in E. simpl in E.
      apply set_stop_inv in E as [_ ->]. simpl.
      rewrite list_lookup_alter_eq. by rewrite Hi.
    + by inversion E; subst.
  - rewrite bool_decide_false in E by done. by inversion E; subst.
Qed.

Lemma infer_stops_fill c cps :
  ∀ rs w w',
    NoDup cps →
    Forall2 (λ i r, procedures (self w) !! i = Some r) cps rs →
    Forall (λ r, start r ≠ None) rs →
    (∀ r, last rs = Some r → stop r ≠ None) →
    infer_stops c cps w = (Ok (), w') →
    Forall2 (λ i r, procedures (self w') !! i = Some r) cps (fill_stops rs).
Proof.
  induction cps as [|i rest IH]; intros rs w w' Hnd Hrs Hstarts Hlast E.
  { inversion Hrs; subst. constructor. }
  inversion Hrs as [|? x ? rs' Hi Hrest]; subst.
  apply NoDup_cons in Hnd as [Hi_notin Hnd].
  apply Forall_cons in Hstarts as [_ Hstarts'].
  simpl in E.
  destruct (bind_inv _ _ _ _ _ E) as [([] & w1 & E1 & E2)|(e & _ & [=])]; clear E.
  simpl. constructor.
  - rewrite (infer_stops_lookup_other _ _ _ _ _ _ Hi_notin E2).
    destruct Hrest as [|j y rest' rs'' Hj _].
    + apply (infer_stop_fill c i None w w1 x Hi); [|exact E1]. by apply Hlast.
    + apply Forall_cons in Hstarts' as [Hy _].
      pose proof (infer_stop_fill c i (Some j) w w1 x Hi) as Hfill.
      simpl in Hfill. rewrite Hj in Hfill. apply Hfill; [|exact E1]. by exists y.
  - apply (IH rs' w1 w'); try done.
    + eapply lookups_transfer; [exact Hrest|].
      intros k r Hk Hkr.
      assert (k ≠ i) as Hki by (by intros ->).
      by rewrite (infer_stop_lookup_other _ _ _ _ _ _ k Hki E1).
    + intros r Hr. apply Hlast. destruct rs'; [done|]. exact Hr.
Qed.

Lemma sorted_last_max {A} (key : A → Q) (l : list A) z :
  StronglySorted (key_le key) l → last l = Some z →
  ∀ x, x ∈ l → key x <= key z.
Proof.
  induction 1 as [|y l Hl IH Hy]; intros Hlast x Hx; [done|].
  destruct l as [|y' l'].
  - inversion Hlast; subst. apply list_elem_of_singleton in Hx as ->. apply Qle_refl.
  - assert (z ∈ y' :: l') as Hz.
    { apply list_elem_of_lookup. exists (length l').
      by rewrite last_lookup in Hlast. }
    apply elem_of_cons in Hx as [->|Hx].
    + rewrite Forall_forall in Hy. by apply Hy.
    + by apply IH.
Qed.

Lemma chain_ok_sorted c procs (l : list (nat * procedure)) :
  well_timed c procs →
  Forall (λ x : nat * procedure, procs !! x.1 = Some x.2 ∧ component x.2 = c) l →
  NoDup (fst <$> l) → StronglySorted (key_le start_key) l →
  (∀ x, last l = Some x → stop x.2 ≠ None) →
  chain_ok (snd <$> l).
Proof.
  intros [Hwt1 Hwt2].
  induction l as [|[i r] l IH]; intros Hl Hnd Hsort Hlast; [done|].
  apply Forall_cons in Hl as [[Hi Hc] Hl']. simpl in Hi, Hc.
  rewrite fmap_cons in Hnd. apply NoDup_cons in Hnd as [Hi_notin Hnd].
  apply StronglySorted_inv in Hsort as [Hsort' Hhd].
  rewrite fmap_cons. simpl. split; cycle 1.
  { apply IH; try done. intros x Hx. apply Hlast. destruct l; [done|]. exact Hx. }
  destruct (Hwt1 _ _ Hi Hc) as (s & Hs & Hpos & _).
  exists s. repeat split; try done.
  destruct l as [|[j r'] l']; simpl.
  { by apply (Hlast (i, r)). }
  apply Forall_cons in Hl' as [[Hj Hc'] _]. simpl in Hj, Hc'.
  destruct (Hwt1 _ _ Hj Hc') as (s' & Hs' & _).
  apply Forall_cons in Hhd as [Hle _].
  unfold key_le, start_key in Hle. simpl in Hle. rewrite Hs, Hs' in Hle. simpl in Hle.
  assert (i ≠ j) as Hij.
  { intros ->. apply Hi_notin. rewrite fmap_cons. by left. }
  destruct (Hwt2 i j r r' s s' Hij Hi Hj Hc Hc' Hs Hs' Hle) as [Hlt Hstop].
  exists s'. by repeat split.
Qed.

(** The timeline emitted for one component whose records are well timed. *)
Lemma component_timeline_inferred viz c w1 cps w1' w2 tl w3 :
  well_timed c (procedures (self w1)) →
  component_procedures c w1 = (Ok cps, w1') →
  cps ≠ [] →
  infer_stops c cps w1 = (Ok (), w2) →
  emit viz c cps [] w2 = (Ok tl, w3) →
  strictly_increasing tl ∧ starts_at_first c (procedures (self w1)) tl.
Proof.
  intros Hwt Hcps Hne Hinfer Hemit.
  apply component_procedures_inv in Hcps as (-> & l & -> & Hperm & Hsort).
  assert (Forall (λ x : nat * procedure,
            procedures (self w1) !! x.1 = Some x.2 ∧ component x.2 = c) l) as Hl.
  { apply Forall_forall. intros [i r] Hin. rewrite Hperm in Hin.
    by apply elem_of_refs_of in Hin. }
  assert (NoDup (fst <$> l)) as Hnd.
  { rewrite Hperm. apply NoDup_refs_of. }
  assert (Forall (λ r, start r ≠ None) (snd <$> l)) as Hstarts.
  { apply Forall_fmap. eapply Forall_impl; [exact Hl|].
    intros [i r] [Hi Hc]. simpl in *.
    destruct (proj1 Hwt _ _ Hi Hc) as (s & Hs & _). by rewrite Hs. }
  assert (∀ x, last l = Some x → stop x.2 ≠ None) as Hlast.
  { intros [i r] Hlst Hnone. simpl in *.
    assert ((i, r) ∈ l) as Hin.
    { apply list_elem_of_lookup. exists (pred (length l)).
      by rewrite last_lookup in Hlst. }
    rewrite Forall_forall in Hl. destruct (Hl _ Hin) as [Hi Hc]. simpl in *.
    destruct (proj1 Hwt _ _ Hi Hc) as (s & Hs & _ & Hlater).
    destruct (Hlater Hnone) as (j & r' & s' & Hj & Hc' & Hs' & Hlt).
    assert ((j, r') ∈ l) as Hin'.
    { rewrite Hperm. by apply elem_of_refs_of. }
    pose proof (sorted_last_max _ _ _ Hsort Hlst _ Hin') as Hle.
    unfold start_key in Hle. simpl in Hle. rewrite Hs, Hs' in Hle. simpl in Hle.
    apply (Qlt_irrefl s). by eapply Qlt_le_trans. }
  pose proof (chain_ok_sorted _ _ _ Hwt Hl Hnd Hsort Hlast) as Hchain.
  apply chained_fill_stops in Hchain.
  pose proof (infer_stops_fill c (fst <$> l) (snd <$> l) w1 w2 Hnd) as Hfill.
  rewrite (emit_lookup viz c (fst <$> l) (fill_stops (snd <$> l))) in Hemit; cycle 1.
  { apply Hfill; try done.
    - apply Forall2_fst_snd. eapply Forall_impl; [exact Hl|]. by intros x [? _].
    - intros r Hr. rewrite fmap_last in Hr.
      destruct (last l) as [x|] eqn:Hx; [|done]. inversion Hr; subst. by apply Hlast. }
  destruct (emit_records viz c (fill_stops (snd <$> l)) []) as [tl0|] eqn:E; [|done].
  inversion Hemit; subst tl0 w3.
  destruct (emit_records_increasing _ _ _ Hchain _ _ E) as (tl' & Htl & Hinc & Hhead).
  simpl in Htl. subst tl'. split; [done|].
  destruct l as [|[i r] l']; [done|].
  rewrite fmap_cons in Hhead. simpl in Hhead.
  destruct Hhead as (s & x & Hs0 & Hhd & Hx & _).
  assert (start r = Some s) as Hs.
  { destruct (snd <$> l') as [|r' rs0]; [done|].
    by destruct (bool_decide (stop r = None)). }
  apply Forall_cons in Hl as [[Hi Hc] _]. simpl in Hi, Hc.
  exists x, s. repeat split; try done.
  - by exists i, r.
  - intros j r' s' Hj Hc' Hs'.
    assert ((j, r') ∈ (i, r) :: l') as Hin.
    { rewrite Hperm. by apply elem_of_refs_of. }
    apply elem_of_cons in Hin as [Heq|Hin].
    + inversion Heq; subst. rewrite Hs in Hs'. inversion Hs'. apply Qle_refl.
    + apply StronglySorted_inv in Hsort as [_ Hhd'].
      rewrite Forall_forall in Hhd'. specialize (Hhd' _ Hin).
      unfold key_le, start_key in Hhd'. simpl in Hhd'.
      by rewrite Hs, Hs' in Hhd'.
Qed.

Lemma same_records_well_timed c l l' :
  same_records c l l' → well_timed c l → well_timed c l'.
Proof.
  intros Hsame [H1 H2]. split.
  - intros i r Hi Hc. apply Hsame in Hi; [|done].
    destruct (H1 _ _ Hi Hc) as (s & Hs & Hpos & Hlater).
    exists s. repeat split; try done.
    intros Hnone. destruct (Hlater Hnone) as (j & r' & s' & Hj & Hc' & Hs' & Hlt).
    exists j, r', s'. repeat split; try done. by apply Hsame.
  - intros i j r1 r2 s1 s2 Hij Hi Hj Hc1 Hc2.
    apply (H2 i j r1 r2); try done; by apply Hsame.
Qed.

Lemma touches_same_records c c' l l' :
  c ≠ c' → touches (λ x, x = c') l l' → same_records c l l'.
Proof.
  intros Hne Ht i r Hc. split; intros Hi.
  - eapply touches_lookup_outside; [exact Ht|exact Hi|]. simpl. congruence.
  - destruct (Forall2_lookup_r _ _ _ _ _ Ht Hi) as (r0 & Hi0 & [->|[Hc0 Hfr]]);
      [done|].
    destruct Hfr as (_ & Hcomp & _). congruence.
Qed.

Lemma output_lookup_other_components dry_run viz c cs :
  c ∉ cs →
  ∀ output w out w',
    compile_components dry_run viz cs output w = (Ok out, w') →
    output_lookup c out = output_lookup c output.
Proof.
  induction cs as [|c' cs IH]; intros Hc output w out w' E; simpl in E.
  { by inversion E. }
  apply not_elem_of_cons in Hc as [Hne Hc].
  destruct (bind_inv _ _ _ _ _ E) as [(cps & wa & E1 & E2)|(e & _ & [=])]; clear E.
  revert E2. case_bool_decide; intros E2.
  { unfold mbind, M_bind, warn in E2. simpl in E2. by eapply IH. }
  destruct (negb _); [done|].
  unfold mbind at 1, M_bind at 1, get_self in E2.
  revert E2. case_bool_decide; intros E2; [done|].
  destruct (bind_inv _ _ _ _ _ E2) as [([] & w2 & E3 & E4)|(e & _ & [=])]; clear E2.
  destruct (bind_inv _ _ _ _ _ E4) as [(tl & w3 & E5 & E6)|(e & _ & [=])]; clear E4.
  rewrite (IH Hc _ _ _ _ E6). by apply output_lookup_set_ne.
Qed.

Lemma compile_components_well_timed dry_run viz c P0 cs :
  well_timed c P0 → NoDup cs →
  ∀ output w1 out w',
    same_records c P0 (procedures (self w1)) →
    (∀ tl, output_lookup c output = Some tl →
           strictly_increasing tl ∧ starts_at_first c P0 tl) →
    compile_components dry_run viz cs output w1 = (Ok out, w') →
    ∀ tl, output_lookup c out = Some tl →
          strictly_increasing tl ∧ starts_at_first c P0 tl.
Proof.
  intros Hwt Hnd.
  induction Hnd as [|c' cs Hc' Hnd IH]; intros output w1 out w' Hsame Hout E;
    simpl in E.
  { by inversion E; subst. }
  destruct (bind_inv _ _ _ _ _ E) as [(cps & wa & E1 & E2)|(e & _ & [=])]; clear E.
  pose proof (component_procedures_inv _ _ _ _ E1) as [-> _].
  revert E2. case_bool_decide as Hlen; intros E2.
  { unfold mbind, M_bind, warn in E2. simpl in E2.
    eapply IH; [|exact Hout|exact E2]. done. }
  destruct (negb (validate c' dry_run)); [done|].
  unfold mbind at 1, M_bind at 1, get_self in E2.
  revert E2. case_bool_decide; intros E2; [done|].
  destruct (bind_inv _ _ _ _ _ E2) as [([] & w2 & E3 & E4)|(e & _ & [=])]; clear E2.
  destruct (bind_inv _ _ _ _ _ E4) as [(compiled & w3 & E5 & E6)|(e & _ & [=])];
    clear E4.
  pose proof (readonly_emit _ _ _ _ _ _ _ E5) as Hw3.
  destruct (decide (c' = c)) as [->|Hne].
  - intros tl Htl.
    rewrite (output_lookup_other_components _ _ _ _ Hc' _ _ _ _ E6) in Htl.
    rewrite output_lookup_set_eq in Htl. inversion Htl; subst tl.
    destruct (component_timeline_inferred viz c w1 cps w1 w2 compiled w3)
      as [Hinc Hfirst]; try done.
    + by eapply same_records_well_timed.
    + intros ->. by apply Hlen.
    + split; [done|]. by eapply same_records_starts_at_first.
  - eapply IH; [| |exact E6].
    + rewrite Hw3. eapply same_records_trans; [exact Hsame|].
      apply (touches_same_records c c'); [done|].
      eapply infer_stops_touches; [|exact E3].
      apply component_procedures_starts in E1 as (l & -> & Hl & _).
      apply Forall_fmap. eapply Forall_impl; [exact Hl|].
      intros [i r0] [Hi Hc] x Hx. simpl in *. rewrite Hi in Hx. by inversion Hx; subst.
    + intros tl Htl. rewrite output_lookup_set_ne in Htl by done. by apply Hout.
Qed.


(** X24.  Let the records of a component be well timed: each has a
    start; a stop that is set is strictly after the start; a record
    without stop is not the component's last one; different records start
    at different times, and a record that has a stop stops no later than
    the next one starts.  Then in the output of a successful [compile], in
    either form, the component's timeline is strictly increasing in time,
    and its first instruction is at the smallest start among the
    component's records.  Nothing is asked of the protocol after
    [compile]. *)
Theorem compile_timeline_increasing (dry_run _visualization : bool) (c : Component)
    (w : world) (out : timelines) (w' : world) (tl : list instruction) :
  well_timed c (procedures (self w)) →
  compile dry_run _visualization w = (Ok out, w') →
  output_lookup c out = Some tl →
  strictly_increasing tl ∧ starts_at_first c (procedures (self w)) tl.
Proof.
  intros Hwt E Htl. unfold compile, mbind, M_bind, get_self in E.
  revert E. case_bool_decide as Hdup; [done|]. intros E.
  rewrite <- (length_fmap name (_active_components (apparatus (self w)))) in Hdup.
  apply remove_dups_length_NoDup, NoDup_fmap_1 in Hdup.
  eapply (compile_components_well_timed dry_run _visualization c
            (procedures (self w)) _ Hwt Hdup [] w out w'); try done.
Qed.

Lemma compile_timeline_increasing_witness :
  well_timed Fixture.A Fixture.gapped
  ∧ ∃ out w',
      compile true false
        {| self := Fixture.protocol [Fixture.A] Fixture.gapped; warnings := [] |}
      = (Ok out, w')
      ∧ output_lookup Fixture.A out
        = Some [Exec (Some 0) [("x", VInt 1)]; Exec (Some 5) (base_state Fixture.A);
                Exec (Some 10) [("x", VInt 2)]; Exec (Some 15) [("x", VInt 3)];
                Exec (Some 20) (base_state Fixture.A)]
      ∧ strictly_increasing
          [Exec (Some 0) [("x", VInt 1)]; Exec (Some 5) (base_state Fixture.A);
           Exec (Some 10) [("x", VInt 2)]; Exec (Some 15) [("x", VInt 3)];
           Exec (Some 20) (base_state Fixture.A)]
      ∧ starts_at_first Fixture.A Fixture.gapped
          [Exec (Some 0) [("x", VInt 1)]; Exec (Some 5) (base_state Fixture.A);
           Exec (Some 10) [("x", VInt 2)]; Exec (Some 15) [("x", VInt 3)];
           Exec (Some 20) (base_state Fixture.A)].
Proof.
  assert (well_timed Fixture.A Fixture.gapped) as Hwt.
  { split.
    - intros [|[|[|i]]] r Hi _; inversion Hi; subst; eexists;
        (split; [reflexivity|]); (split; [by intros e [= <-]|]); try done.
      intros _. exists 2%nat, (Fixture.rec Fixture.A (Some 15) (Some 20) 3), 15.
      by repeat split.
    - intros [|[|[|i]]] [|[|[|j]]] r1 r2 s1 s2 Hij Hi Hj _ _ Hs1 Hs2 Hle;
        inversion Hi; inversion Hj; subst; try done;
        inversion Hs1; inversion Hs2; subst;
        try (by exfalso; revert Hle; apply Qlt_not_le);
        (split; [done|]); intros e [= <-]; by vm_compute. }
  split; [exact Hwt|].
  eexists _, _. split; [by vm_compute|]. split; [by vm_compute|].
  eapply (compile_timeline_increasing true false Fixture.A
            {| self := Fixture.protocol [Fixture.A] Fixture.gapped; warnings := [] |});
    [exact Hwt|by vm_compute|by vm_compute].
Defined.

(** ** Timelines of records that do not overlap, the last one open-ended or not *)









(** ** Two requests for the whole duration *)


(** * Further properties of the builder *)

Section BuilderProperties.
Variable parse_expression : pyval → option quantity.

Lemma check_request_ok c start_ stop_ duration kw w kw0 qstart qstop w1 :
  check_request parse_expression c start_ stop_ duration kw w
    = (Ok (kw0, qstart, qstop), w1) →
  w1 = w
  ∧ c ∈ components (apparatus (self w))
  ∧ kw0 = map_valve_setting c kw ∧ kw0 ≠ []
  ∧ check_kwargs parse_expression c kw0 w = (Ok (), w)
  ∧ ¬ (stop_ ≠ None ∧ duration ≠ None)
  ∧ parse_time parse_expression start_ w = (Ok qstart, w)
  ∧ match duration, stop_ with
    | Some d, _ =>
        ∃ qd, parse_time parse_expression d w = (Ok qd, w)
              ∧ dimensionality qstart = dimensionality qd
              ∧ qstop = Some {| base_magnitude := base_magnitude qstart + base_magnitude qd;
                                dimensionality := dimensionality qstart |}
    | None, Some s => ∃ qs, parse_time parse_expression s w = (Ok qs, w) ∧ qstop = Some qs
    | None, None => qstop = None
    end
  ∧ (∀ q, qstop = Some q →
       dimensionality qstart = dimensionality q
       ∧ base_magnitude qstart <= base_magnitude q).
Proof.
  intros E. pose proof (pure_check_request _ _ _ _ _ _ _ _ _ E) as ->.
  pose proof (check_request_kwargs _ _ _ _ _ _ _ _ _ _ _ E) as ->.
  split; [done|]. revert E.
  unfold check_request, mbind at 1, M_bind at 1, get_self.
  case_bool_decide as Hin; simpl; [|done]. split; [done|]. revert E.
  case_bool_decide as Hkw; [done|]. intros E. split; [done|]. split; [done|].
  destruct (bind_inv _ _ _ _ _ E) as [([] & w1 & E1 & E2)|(e & _ & [=])]; clear E.
  pose proof (pure_check_kwargs _ _ _ _ _ _ E1) as ->. split; [done|].
  revert E2.
  destruct (bool_decide (stop_ ≠ None) && bool_decide (duration ≠ None)) eqn:Hboth;
    [done|]. intros E2. split.
  { intros [H1 H2]. by rewrite !bool_decide_true in Hboth. }
  destruct (bind_inv _ _ _ _ _ E2) as [(qs & w1 & E3 & E4)|(e & _ & [=])]; clear E2.
  pose proof (pure_parse_time _ _ _ _ _ E3) as ->.
  destruct (bind_inv _ _ _ _ _ E4) as [(qe & w1 & E5 & E6)|(e & _ & [=])]; clear E4.
  destruct (bind_inv _ _ _ _ _ E6) as [(inv & w2 & E7 & E8)|(e & _ & [=])]; clear E6.
  destruct inv; [done|]. inversion E8; subst; clear E8.
  split; [done|].
  assert (w1 = w) as ->.
  { destruct qstop; [symmetry; by eapply pure_quantity_gt|by inversion E7]. }
  split.
  - destruct duration as [d|].
    + destruct (bind_inv _ _ _ _ _ E5) as [(qd & w3 & E9 & E10)|(e & _ & [=])].
      pose proof (pure_parse_time _ _ _ _ _ E9) as ->.
      destruct (bind_inv _ _ _ _ _ E10) as [(s & w3 & E11 & E12)|(e & _ & [=])].
      exists qd. split; [done|]. unfold quantity_add in E11.
      destruct (bool_decide (dimensionality qstart = dimensionality qd)) eqn:Hd;
        [|by inversion E11].
      apply bool_decide_eq_true in Hd. inversion E11; subst. by inversion E12.
    + destruct stop_ as [s|].
      * destruct (bind_inv _ _ _ _ _ E5) as [(q & w3 & E9 & E10)|(e & _ & [=])].
        pose proof (pure_parse_time _ _ _ _ _ E9) as ->.
        exists q. split; [done|]. by inversion E10.
      * by inversion E5.
  - intros q ->. unfold quantity_gt in E7.
    destruct (bool_decide (dimensionality qstart = dimensionality q)) eqn:Hd;
      [|by inversion E7].
    apply bool_decide_eq_true in Hd. inversion E7 as [Hlt]. split; [done|].
    apply Qle_bool_iff. unfold Qlt_bool in Hlt. by destruct (Qle_bool _ _).
Qed.

Lemma dict_set_not_nil {V} k (v : V) d : dict_set k v d ≠ [].
Proof. destruct d as [|[k' v'] d]; simpl; [done|]. by case_bool_decide. Qed.

Lemma temp_control_magic_not_nil kw w kw1 w' :
  temp_control_magic kw w = (Ok kw1, w') → kw ≠ [] → kw1 ≠ [].
Proof.
  unfold temp_control_magic. intros E Hkw.
  destruct (_ && _); [inversion E; subst; apply dict_set_not_nil|].
  destruct (_ && _); [inversion E; subst; apply dict_set_not_nil|].
  destruct (dict_lookup "active" kw); [|done].
  destruct (_ && _); [done|]. by inversion E; subst.
Qed.

Lemma add_single_raise_world c start_ stop_ duration kw w e w' :
  _add_single parse_expression c start_ stop_ duration kw w = (Raise e, w') →
  w' = w.
Proof.
  intros E. unfold _add_single in E.
  destruct (bind_inv _ _ _ _ _ E) as [([[kw0 qs] qe] & w1 & E1 & E2)|(e' & E1 & _)];
    clear E; apply pure_check_request in E1 as ->; [|done].
  destruct (bind_inv _ _ _ _ _ E2) as [(kw1 & w1 & E3 & E4)|(e' & E3 & _)]; clear E2.
  - by inversion E4.
  - destruct (is_temp_control c); [by eapply pure_temp_control_magic|by inversion E3].
Qed.

Lemma add_single_ok_record c start_ stop_ duration kw w w' :
  _add_single parse_expression c start_ stop_ duration kw w = (Ok (), w') →
  ∃ kw0 kw1 qs qe,
    check_request parse_expression c start_ stop_ duration kw w = (Ok (kw0, qs, qe), w)
    ∧ (if is_temp_control c then temp_control_magic kw0 w = (Ok kw1, w) else kw1 = kw0)
    ∧ w' = {| self := with_procedures
                        (procedures (self w) ++ [new_record c qs qe kw1]) (self w);
              warnings := warnings w |}.
Proof.
  intros E. unfold _add_single in E.
  destruct (bind_inv _ _ _ _ _ E) as [([[kw0 qs] qe] & w1 & E1 & E2)|(e' & _ & [=])];
    clear E.
  pose proof (pure_check_request _ _ _ _ _ _ _ _ _ E1) as ->.
  destruct (bind_inv _ _ _ _ _ E2) as [(kw1 & w1 & E3 & E4)|(e' & _ & [=])]; clear E2.
  exists kw0, kw1, qs, qe. split; [done|].
  destruct (is_temp_control c).
  - pose proof (pure_temp_control_magic _ _ _ _ E3) as ->. split; [done|].
    by inversion E4.
  - inversion E3; subst. split; [done|]. by inversion E4.
Qed.

(** X1.  A call of [_add_single] that raises leaves the protocol exactly
    as it was: no record is appended and no advisory is issued, whichever
    check fails. *)
Theorem add_single_failure_changes_nothing (c : Component) (start_ : timearg)
    (stop_ duration : option timearg) (kw : kwargs) (w : world) (e : error)
    (w' : world) :
  _add_single parse_expression c start_ stop_ duration kw w = (Raise e, w') →
  w' = w.
Proof. intros E. by eapply add_single_raise_world. Qed.

(** X2.  A call of [_add_single] that returns has appended exactly one
    record after the existing ones and changed nothing else.  The record
    belongs to the given component, which is a component of the apparatus;
    its params are not empty; its start is set, and its stop, when set, is
    not before the start. *)
Theorem add_single_appends_one_record (c : Component) (start_ : timearg)
    (stop_ duration : option timearg) (kw : kwargs) (w w' : world) :
  _add_single parse_expression c start_ stop_ duration kw w = (Ok (), w') →
  ∃ r, procedures (self w') = procedures (self w) ++ [r]
       ∧ component r = c
       ∧ c ∈ components (apparatus (self w))
       ∧ params r ≠ []
       ∧ (∃ s, start r = Some s ∧ ∀ e, stop r = Some e → s <= e)
       ∧ apparatus (self w') = apparatus (self w)
       ∧ is_executing (self w') = is_executing (self w)
       ∧ was_executed (self w') = was_executed (self w)
       ∧ warnings w' = warnings w.
Proof.
  intros E.
  destruct (add_single_ok_record _ _ _ _ _ _ _ E) as (kw0 & kw1 & qs & qe & E1 & E3 & ->).
  destruct (check_request_ok _ _ _ _ _ _ _ _ _ _ E1)
    as (_ & Hin & _ & Hkw & _ & _ & _ & _ & Hle).
  assert (kw1 ≠ []) as Hkw1.
  { destruct (is_temp_control c); [by eapply temp_control_magic_not_nil|by subst]. }
  simpl. eexists. split; [reflexivity|]. simpl. repeat split; try done.
  exists (base_magnitude qs). split; [done|].
  intros e He. destruct qe as [q|]; [|done]. simpl in He. inversion He; subst.
  by apply Hle.
Qed.

(** X3.  The first checks of [_add_single], in their order: a component
    outside the apparatus is refused with the [ValueError] of the unknown
    component whatever the other arguments are; for a component of the
    apparatus, empty params are refused with the [RuntimeError] "No kwargs
    supplied", for a valve as well. *)
Theorem add_single_first_checks (c : Component) (start_ : timearg)
    (stop_ duration : option timearg) (kw : kwargs) (w : world) :
  (c ∉ components (apparatus (self w)) →
   _add_single parse_expression c start_ stop_ duration kw w
     = (Raise UnknownDeviceError, w))
  ∧ (c ∈ components (apparatus (self w)) →
     _add_single parse_expression c start_ stop_ duration [] w
       = (Raise EmptyInstructionError, w)).
Proof.
  split; intros Hc; unfold _add_single; apply bind_raise;
    unfold check_request, mbind, M_bind, get_self.
  - by rewrite bool_decide_false.
  - rewrite bool_decide_true by done. simpl.
    assert (map_valve_setting c [] = []) as ->; [|done].
    unfold map_valve_setting. by destruct (valve_mapping c).
Qed.

(** X4.  When [duration] is given and [stop] is not, the stop of the
    appended record is its start plus the duration, both in base units. *)
Theorem add_single_duration (c : Component) (start_ d : timearg) (kw : kwargs)
    (w w' : world) :
  _add_single parse_expression c start_ None (Some d) kw w = (Ok (), w') →
  ∃ qstart qd r,
    parse_time parse_expression start_ w = (Ok qstart, w)
    ∧ parse_time parse_expression d w = (Ok qd, w)
    ∧ procedures (self w') = procedures (self w) ++ [r]
    ∧ start r = Some (base_magnitude qstart)
    ∧ stop r = Some (base_magnitude qstart + base_magnitude qd).
Proof.
  intros E.
  destruct (add_single_ok_record _ _ _ _ _ _ _ E) as (kw0 & kw1 & qs & qe & E1 & _ & ->).
  destruct (check_request_ok _ _ _ _ _ _ _ _ _ _ E1)
    as (_ & _ & _ & _ & _ & _ & Hs & (qd & Hd & _ & ->) & _).
  exists qs, qd. eexists. by repeat split.
Qed.

(** X5.  [stop] and [duration] together are refused with the
    [RuntimeError] "Must provide one of stop and duration, not both", once
    the component and the params have passed their checks and before any
    time is parsed. *)
Theorem add_single_stop_and_duration (c : Component) (start_ s d : timearg)
    (kw : kwargs) (w : world) :
  c ∈ components (apparatus (self w)) →
  map_valve_setting c kw ≠ [] →
  check_kwargs parse_expression c (map_valve_setting c kw) w = (Ok (), w) →
  _add_single parse_expression c start_ (Some s) (Some d) kw w
    = (Raise ConflictingTimeSpecError, w).
Proof.
  intros Hin Hkw Hcheck. unfold _add_single. apply bind_raise.
  unfold check_request, mbind at 1, M_bind at 1, get_self.
  rewrite bool_decide_true by done. simpl.
  rewrite bool_decide_false by done.
  by erewrite bind_ok by exact Hcheck.
Qed.

(** X6.  [add] for several components appends, in order, one record per
    component it got through: all of them when it returns, and the records
    of the components before the failing one when it raises; these stay in
    the protocol. *)
Theorem add_appends_per_component (cs : list Component) (start_ : timearg)
    (stop_ duration : option timearg) (kw : kwargs) (w : world)
    (r : result unit) (w' : world) :
  add parse_expression cs start_ stop_ duration kw w = (r, w') →
  ∃ new, procedures (self w') = procedures (self w) ++ new
         ∧ match r with
           | Ok _ => component <$> new = cs
           | Raise _ => ∃ c rest, cs = (component <$> new) ++ c :: rest
           end.
Proof.
  revert w. induction cs as [|c cs IH]; intros w E; simpl in E.
  { inversion E; subst. exists []. by rewrite app_nil_r. }
  destruct (bind_inv _ _ _ _ _ E) as [([] & w1 & E1 & E2)|(e & E1 & ->)]; clear E.
  - destruct (add_single_ok_record _ _ _ _ _ _ _ E1)
      as (kw0 & kw1 & qs & qe & _ & _ & ->).
    destruct (IH _ E2) as (new & Hnew & Hr). simpl in Hnew.
    exists (new_record c qs qe kw1 :: new). split.
    + by rewrite Hnew, <- app_assoc.
    + rewrite fmap_cons. simpl. destruct r as [[]|e]; [by f_equal|].
      destruct Hr as (c' & rest & ->). by exists c', rest.
  - apply add_single_raise_world in E1 as ->.
    exists []. split; [by rewrite app_nil_r|]. by exists c, cs.
Qed.
End BuilderProperties.

Lemma add_single_failure_changes_nothing_witness :
  _add_single Fixture.ureg Fixture.heater (TimeExpr "0 seconds") None None
    [("active", VBool true)]
    {| self := Fixture.protocol [Fixture.heater] []; warnings := [] |}
  = (Raise MissingTemperatureError,
     {| self := Fixture.protocol [Fixture.heater] []; warnings := [] |})
  ∧ {| self := Fixture.protocol [Fixture.heater] []; warnings := [] |}
    = {| self := Fixture.protocol [Fixture.heater] []; warnings := [] |}.
Proof.
  split; [by vm_compute|].
  apply (add_single_failure_changes_nothing Fixture.ureg Fixture.heater
           (TimeExpr "0 seconds") None None [("active", VBool true)]
           {| self := Fixture.protocol [Fixture.heater] []; warnings := [] |}
           MissingTemperatureError).
  by vm_compute.
Defined.

Lemma add_single_appends_one_record_witness :
  ∃ w',
    _add_single Fixture.ureg Fixture.A (TimeExpr "0 seconds")
      (Some (TimeExpr "10 seconds")) None [("x", VInt 1)]
      {| self := Fixture.protocol [Fixture.A] []; warnings := [] |} = (Ok (), w')
    ∧ ∃ r, procedures (self w') = [] ++ [r]
           ∧ component r = Fixture.A
           ∧ Fixture.A ∈ [Fixture.A]
           ∧ params r ≠ []
           ∧ (∃ s, start r = Some s ∧ ∀ e, stop r = Some e → s <= e)
           ∧ apparatus (self w') = Fixture.rig [Fixture.A]
           ∧ is_executing (self w') = false
           ∧ was_executed (self w') = false
           ∧ warnings w' = [].
Proof.
  eexists. split; [by vm_compute|].
  apply (add_single_appends_one_record Fixture.ureg Fixture.A (TimeExpr "0 seconds")
           (Some (TimeExpr "10 seconds")) None [("x", VInt 1)]
           {| self := Fixture.protocol [Fixture.A] []; warnings := [] |}).
  by vm_compute.
Defined.

Lemma add_single_duration_witness :
  ∃ w',
    _add_single Fixture.ureg Fixture.A (TimeExpr "10 seconds") None
      (Some (TimeExpr "10 seconds")) [("x", VInt 1)]
      {| self := Fixture.protocol [Fixture.A] []; warnings := [] |} = (Ok (), w')
    ∧ ∃ qstart qd r,
        parse_time Fixture.ureg (TimeExpr "10 seconds")
          {| self := Fixture.protocol [Fixture.A] []; warnings := [] |}
        = (Ok qstart, {| self := Fixture.protocol [Fixture.A] []; warnings := [] |})
        ∧ parse_time Fixture.ureg (TimeExpr "10 seconds")
            {| self := Fixture.protocol [Fixture.A] []; warnings := [] |}
          = (Ok qd, {| self := Fixture.protocol [Fixture.A] []; warnings := [] |})
        ∧ procedures (self w') = [] ++ [r]
        ∧ start r = Some (base_magnitude qstart)
        ∧ stop r = Some (base_magnitude qstart + base_magnitude qd).
Proof.
  eexists. split; [by vm_compute|].
  apply (add_single_duration Fixture.ureg Fixture.A (TimeExpr "10 seconds")
           (TimeExpr "10 seconds") [("x", VInt 1)]
           {| self := Fixture.protocol [Fixture.A] []; warnings := [] |}).
  by vm_compute.
Defined.

Lemma add_single_stop_and_duration_witness :
  Fixture.valve ∈ [Fixture.valve]
  ∧ map_valve_setting Fixture.valve [("setting", VStr "B")] ≠ []
  ∧ check_kwargs Fixture.ureg Fixture.valve
      (map_valve_setting Fixture.valve [("setting", VStr "B")])
      {| self := Fixture.protocol [Fixture.valve] []; warnings := [] |}
    = (Ok (), {| self := Fixture.protocol [Fixture.valve] []; warnings := [] |})
  ∧ _add_single Fixture.ureg Fixture.valve (TimeExpr "0 seconds")
      (Some (TimeExpr "10 seconds")) (Some (TimeExpr "10 seconds"))
      [("setting", VStr "B")]
      {| self := Fixture.protocol [Fixture.valve] []; warnings := [] |}
    = (Raise ConflictingTimeSpecError,
       {| self := Fixture.protocol [Fixture.valve] []; warnings := [] |}).
Proof.
  assert (Fixture.valve ∈ [Fixture.valve]) as Hin by by left.
  split; [exact Hin|]. split; [by vm_compute|]. split; [by vm_compute|].
  apply (add_single_stop_and_duration Fixture.ureg Fixture.valve
           (TimeExpr "0 seconds") (TimeExpr "10 seconds") (TimeExpr "10 seconds")
           [("setting", VStr "B")]
           {| self := Fixture.protocol [Fixture.valve] []; warnings := [] |});
    [exact Hin|by vm_compute|by vm_compute].
Defined.

(** [add] for a component of the apparatus and one outside it: the first
    record stays although the call raises. *)
Lemma add_appends_per_component_witness :
  ∃ w',
    add Fixture.ureg [Fixture.A; Fixture.B] (TimeExpr "0 seconds") None None
      [("x", VInt 1)]
      {| self := Fixture.protocol [Fixture.A] []; warnings := [] |}
    = (Raise UnknownDeviceError, w')
    ∧ ∃ new, procedures (self w') = [] ++ new
             ∧ ∃ c rest, [Fixture.A; Fixture.B] = (component <$> new) ++ c :: rest.
Proof.
  eexists. split; [by vm_compute|].
  apply (add_appends_per_component Fixture.ureg [Fixture.A; Fixture.B]
           (TimeExpr "0 seconds") None None [("x", VInt 1)]
           {| self := Fixture.protocol [Fixture.A] []; warnings := [] |}
           (Raise UnknownDeviceError)).
  by vm_compute.
Defined.

Example add_leaves_partial_records :
  procedures (self (add Fixture.ureg [Fixture.A; Fixture.B] (TimeExpr "0 seconds")
                      None None [("x", VInt 1)]
                      {| self := Fixture.protocol [Fixture.A] []; warnings := [] |}).2)
  = [ {| start := Some 0; stop := None; component := Fixture.A;
         params := [("x", VInt 1)] |} ].
Proof. by vm_compute. Qed.

(** * Further properties of the inferred duration *)

Lemma sorted_stops_last (l : list (option Q)) x0 :
  x0 ∈ l →
  ∃ z, last (sorted_by (λ z : option Q, default 0 z) l) = Some z
       ∧ z ∈ l
       ∧ ∀ x, x ∈ l → default 0 x <= default 0 z.
Proof.
  intros Hx0. set (key := λ z : option Q, default 0 z).
  pose proof (sorted_by_perm key l) as Hperm.
  destruct (last (sorted_by key l)) as [z|] eqn:Hlast; cycle 1.
  { apply last_None in Hlast. rewrite Hlast in Hperm.
    apply Permutation_nil_l in Hperm. subst. by apply elem_of_nil in Hx0. }
  exists z. split; [done|].
  assert (z ∈ sorted_by key l) as Hz.
  { apply list_elem_of_lookup. exists (pred (length (sorted_by key l))).
    by rewrite last_lookup in Hlast. }
  split; [by rewrite <- Hperm|].
  intros x Hx. apply (sorted_last_max key _ _ (sorted_by_sorted key l) Hlast).
  by rewrite Hperm.
Qed.

Lemma inferred_duration_returns w x0 e0 :
  x0 ∈ stop <$> procedures (self w) → x0 = Some e0 →
  ∃ z, _inferred_duration w = (Ok z, w)
       ∧ z ∈ stop <$> procedures (self w)
       ∧ ∀ x, x ∈ stop <$> procedures (self w) → default 0 x <= default 0 z.
Proof.
  intros Hx0 ->.
  destruct (sorted_stops_last _ _ Hx0) as (z & Hlast & Hz & Hmax).
  exists z. split; [|done].
  unfold _inferred_duration, mbind, M_bind, get_self. rewrite Hlast. simpl.
  destruct (forallb _ _) eqn:Hall; [|done].
  rewrite forallb_forall in Hall.
  assert (In (Some e0) (sorted_by (λ z : option Q, default 0 z)
                          (stop <$> procedures (self w)))) as Hin.
  { apply list_elem_of_In. by rewrite sorted_by_perm. }
  specialize (Hall _ Hin). by apply bool_decide_eq_true in Hall.
Qed.

(** X7.  When some record has a positive stop, [_inferred_duration]
    returns the largest stop among the records, and changes nothing. *)
Theorem inferred_duration_is_latest_stop (w : world) (m0 : Q) :
  Some m0 ∈ stop <$> procedures (self w) → 0 < m0 →
  ∃ m, _inferred_duration w = (Ok (Some m), w)
       ∧ Some m ∈ stop <$> procedures (self w)
       ∧ ∀ e, Some e ∈ stop <$> procedures (self w) → e <= m.
Proof.
  intros Hm0 Hpos.
  destruct (inferred_duration_returns w _ m0 Hm0 eq_refl) as (z & E & Hz & Hmax).
  destruct z as [m|].
  - exists m. repeat split; try done. intros e He. exact (Hmax _ He).
  - exfalso. specialize (Hmax _ Hm0). simpl in Hmax.
    apply (Qlt_irrefl 0). by eapply Qlt_le_trans.
Qed.

(** X8.  When every stop that is set is negative and some record has no
    stop, [_inferred_duration] returns [None] as the duration instead of
    raising: a missing stop is sorted as 0, after the negative ones. *)
Theorem inferred_duration_none_after_negative_stops (w : world) (e0 : Q) :
  Some e0 ∈ stop <$> procedures (self w) →
  None ∈ stop <$> procedures (self w) →
  (∀ e, Some e ∈ stop <$> procedures (self w) → e < 0) →
  _inferred_duration w = (Ok None, w).
Proof.
  intros He0 Hnone Hneg.
  destruct (inferred_duration_returns w _ e0 He0 eq_refl) as (z & E & Hz & Hmax).
  destruct z as [m|]; [|done].
  exfalso. specialize (Hmax _ Hnone). simpl in Hmax.
  apply (Qlt_irrefl m). eapply Qlt_le_trans; [by apply Hneg|done].
Qed.

(** X9.  [_inferred_duration] raises exactly when no record has a stop, in
    particular when there is no record at all; the exception is then the
    [RuntimeError] "Unable to automatically infer duration of protocol",
    and the protocol is unchanged. *)
Theorem inferred_duration_raises_iff (w : world) :
  (Forall (λ r, stop r = None) (procedures (self w)) →
   _inferred_duration w = (Raise UnresolvableDurationError, w))
  ∧ (∀ e w', _inferred_duration w = (Raise e, w') →
       e = UnresolvableDurationError ∧ w' = w
       ∧ Forall (λ r, stop r = None) (procedures (self w))).
Proof.
  split; [apply inferred_duration_all_unset|].
  intros e w' E.
  destruct (decide (Forall (λ r, stop r = None) (procedures (self w)))) as [Hall|Hex].
  - rewrite (inferred_duration_all_unset _ Hall) in E. by inversion E; subst.
  - apply not_Forall_Exists in Hex; [|apply _].
    apply Exists_exists in Hex as (r & Hr & Hstop).
    destruct (stop r) as [e0|] eqn:He0; [|done].
    destruct (inferred_duration_returns w (Some e0) e0) as (z & E' & _); [|done|].
    + apply list_elem_of_fmap. by exists r.
    + rewrite E' in E. by inversion E.
Qed.

Lemma inferred_duration_is_latest_stop_witness :
  Some 7 ∈ [Some 0; None; Some 7; Some 3]
  ∧ 0 < 7
  ∧ ∃ m, _inferred_duration
           {| self := Fixture.protocol [Fixture.A]
                        [Fixture.rec Fixture.A (Some 0) (Some 0) 0;
                         Fixture.rec Fixture.A (Some 0) None 1;
                         Fixture.rec Fixture.A (Some 3) (Some 7) 2;
                         Fixture.rec Fixture.A (Some 1) (Some 3) 3];
              warnings := [] |}
         = (Ok (Some m),
            {| self := Fixture.protocol [Fixture.A]
                         [Fixture.rec Fixture.A (Some 0) (Some 0) 0;
                          Fixture.rec Fixture.A (Some 0) None 1;
                          Fixture.rec Fixture.A (Some 3) (Some 7) 2;
                          Fixture.rec Fixture.A (Some 1) (Some 3) 3];
               warnings := [] |})
         ∧ Some m ∈ [Some 0; None; Some 7; Some 3]
         ∧ ∀ e, Some e ∈ [Some 0; None; Some 7; Some 3] → e <= m.
Proof.
  assert (Some 7 ∈ [Some 0; None; Some 7; Some 3]) as Hin.
  { do 2 right. by left. }
  split; [exact Hin|]. split; [reflexivity|].
  exact (inferred_duration_is_latest_stop
           {| self := Fixture.protocol [Fixture.A]
                        [Fixture.rec Fixture.A (Some 0) (Some 0) 0;
                         Fixture.rec Fixture.A (Some 0) None 1;
                         Fixture.rec Fixture.A (Some 3) (Some 7) 2;
                         Fixture.rec Fixture.A (Some 1) (Some 3) 3];
              warnings := [] |} 7 Hin eq_refl).
Defined.

Lemma inferred_duration_none_after_negative_stops_witness :
  Some (-5) ∈ [Some (-5); None]
  ∧ None ∈ [Some (-5); None]
  ∧ (∀ e, Some e ∈ [Some (-5); None] → e < 0)
  ∧ _inferred_duration
      {| self := Fixture.protocol [Fixture.A]
                   [Fixture.rec Fixture.A (Some (-10)) (Some (-5)) 0;
                    Fixture.rec Fixture.A (Some 0) None 1];
         warnings := [] |}
    = (Ok None,
       {| self := Fixture.protocol [Fixture.A]
                    [Fixture.rec Fixture.A (Some (-10)) (Some (-5)) 0;
                     Fixture.rec Fixture.A (Some 0) None 1];
          warnings := [] |}).
Proof.
  assert (Some (-5) ∈ [Some (-5); None]) as H1 by by left.
  assert (None ∈ [Some (-5); None]) as H2 by (right; by left).
  assert (∀ e, Some e ∈ [Some (-5); None] → e < 0) as H3.
  { intros e He. apply elem_of_cons in He as [[= ->]|He]; [reflexivity|].
    by apply list_elem_of_singleton in He. }
  split; [exact H1|]. split; [exact H2|]. split; [exact H3|].
  exact (inferred_duration_none_after_negative_stops
           {| self := Fixture.protocol [Fixture.A]
                        [Fixture.rec Fixture.A (Some (-10)) (Some (-5)) 0;
                         Fixture.rec Fixture.A (Some 0) None 1];
              warnings := [] |} (-5) H1 H2 H3).
Defined.

(** * Further properties of the compiler *)

(** Closes [never e m] for straight-line code whose raise sites are all
    outside [e], given [He : e ∉ sites]. *)
Ltac in_sites :=
  rewrite ?elem_of_cons, ?elem_of_nil in *; tauto.

Ltac never_outside He :=
  repeat first
    [ apply never_bind; [|intros ?]
    | progress eauto with never
    | apply never_raise; intros <-; apply He; in_sites
    | match goal with
      | |- never _ (match ?x with _ => _ end) => destruct x
      | |- never _ (if ?x then _ else _) => destruct x
      | |- never _ (let _ := _ in _) => cbv zeta
      end ].

Lemma never_outside_infer_stops e c cps :
  e ∉ [AmbiguousStartError; UnresolvableDurationError; DanglingReference] →
  never e (infer_stops c cps).
Proof.
  intros He. induction cps as [|i rest IH]; simpl; [never_outside He|].
  apply never_bind; [|auto].
  unfold infer_stop, deref, set_stop, _inferred_duration. never_outside He.
Qed.

Lemma never_outside_emit e viz c cps :
  e ∉ [PyTypeError; DanglingReference] →
  ∀ compiled, never e (emit viz c cps compiled).
Proof.
  intros He. induction cps as [|i rest IH]; intros compiled; simpl;
    [never_outside He|].
  apply never_bind; [|auto].
  unfold emit_procedure, deref, py_isclose. never_outside He.
Qed.

Lemma never_outside_compile_components e dry_run viz cs :
  e ∉ [PyTypeError; InvalidDeviceError; ConflictingWholeDurationError;
       AmbiguousStartError; UnresolvableDurationError; DanglingReference] →
  ∀ output, never e (compile_components dry_run viz cs output).
Proof.
  intros He. induction cs as [|c cs IH]; intros output; simpl; [never_outside He|].
  apply never_bind.
  { apply never_bind; [eauto with never|]. intros p. unfold sorted_by_start.
    case_bool_decide; [eauto with never|].
    destruct (forallb _ _); [eauto with never|].
    apply never_raise; intros <-; apply He; in_sites. }
  intros cps. case_bool_decide; [never_outside He|].
  destruct (negb _); [never_outside He|].
  apply never_bind; [never_outside He|]. intros p.
  case_bool_decide; [never_outside He|].
  apply never_bind; [apply never_outside_infer_stops; in_sites|]. intros _.
  apply never_bind; [apply never_outside_emit; in_sites|]. auto.
Qed.

(** X10.  The exceptions of [compile]: duplicate component names, an
    invalid component, an ambiguous start, an unresolvable duration, or the
    [TypeError] of ordering or comparing [None].  It raises none of the
    builder's exceptions and never the one for conflicting whole-duration
    records. *)
Theorem compile_raises_only (dry_run _visualization : bool) (w : world)
    (e : error) (w' : world) :
  compile dry_run _visualization w = (Raise e, w') →
  e ∈ [DuplicateDeviceNameError; InvalidDeviceError; AmbiguousStartError;
       UnresolvableDurationError; PyTypeError].
Proof.
  intros E.
  destruct e; try (by repeat constructor); exfalso;
    try (by eapply never_conflicting_compile);
    try (by eapply compile_not_dangling);
    revert E; apply never_apply; unfold compile;
    (apply never_bind; [eauto with never|]); intros p;
    (case_bool_decide; [by apply never_raise|]);
    apply never_outside_compile_components;
    rewrite !not_elem_of_cons; repeat split; try discriminate;
    apply not_elem_of_nil.
Qed.

Lemma compile_raises_only_witness :
  compile true false
    {| self := Fixture.protocol [Fixture.A]
                 [Fixture.rec Fixture.A None None 1; Fixture.rec Fixture.A None None 2];
       warnings := [] |}
  = (Raise PyTypeError,
     {| self := Fixture.protocol [Fixture.A]
                  [Fixture.rec Fixture.A None None 1;
                   Fixture.rec Fixture.A None None 2];
        warnings := [] |})
  ∧ PyTypeError ∈ [DuplicateDeviceNameError; InvalidDeviceError; AmbiguousStartError;
                   UnresolvableDurationError; PyTypeError].
Proof.
  split; [by vm_compute|].
  apply (compile_raises_only true false
           {| self := Fixture.protocol [Fixture.A]
                        [Fixture.rec Fixture.A None None 1;
                         Fixture.rec Fixture.A None None 2];
              warnings := [] |} PyTypeError
           {| self := Fixture.protocol [Fixture.A]
                        [Fixture.rec Fixture.A None None 1;
                         Fixture.rec Fixture.A None None 2];
              warnings := [] |}).
  by vm_compute.
Defined.

(** One successful turn of the loop over the components. *)
Lemma compile_components_cons_ok dry_run viz c cs output w out w' :
  compile_components dry_run viz (c :: cs) output w = (Ok out, w') →
  ∃ cps, component_procedures c w = (Ok cps, w)
    ∧ ((cps = []
        ∧ compile_components dry_run viz cs output
            {| self := self w; warnings := warnings w ++ [UnusedComponent c] |}
          = (Ok out, w'))
       ∨ (cps ≠ [] ∧ validate c dry_run = true
          ∧ ∃ w1 w2 compiled,
              infer_stops c cps w = (Ok (), w1)
              ∧ emit viz c cps [] w1 = (Ok compiled, w2)
              ∧ self w2 = self w1
              ∧ compile_components dry_run viz cs (output_set c compiled output) w2
                = (Ok out, w'))).
Proof.
  intros E. simpl in E.
  destruct (bind_inv _ _ _ _ _ E) as [(cps & wa & E1 & E2)|(e & _ & [=])]; clear E.
  pose proof (component_procedures_inv _ _ _ _ E1) as [-> _].
  exists cps. split; [done|].
  revert E2. case_bool_decide as Hlen; intros E2.
  { left. split; [by apply length_zero_iff_nil|]. exact E2. }
  right. split; [by intros ->|].
  destruct (validate c dry_run) eqn:Hv; simpl in E2; [|done].
  split; [done|].
  unfold mbind at 1, M_bind at 1, get_self in E2.
  revert E2. case_bool_decide; intros E2; [done|].
  destruct (bind_inv _ _ _ _ _ E2) as [([] & w1 & E3 & E4)|(e & _ & [=])]; clear E2.
  destruct (bind_inv _ _ _ _ _ E4) as [(tl & w2 & E5 & E6)|(e & _ & [=])]; clear E4.
  exists w1, w2, tl. repeat split; try done.
  by eapply readonly_emit.
Qed.

Lemma has_records_frame c l l' : frame l l' → has_records c l ↔ has_records c l'.
Proof.
  unfold has_records. induction 1 as [|r r' l l' Hr _ IH]; [done|].
  rewrite !Exists_cons, IH. destruct Hr as (_ & -> & _). done.
Qed.

Lemma component_procedures_nil c w cps w' :
  component_procedures c w = (Ok cps, w') →
  cps = [] ↔ ¬ has_records c (procedures (self w)).
Proof.
  intros E. apply component_procedures_inv in E as (_ & l & -> & Hperm & _).
  unfold has_records. split.
  - intros Hnil%fmap_nil_inv. subst l. apply Permutation_nil_l in Hperm.
    intros (r & Hr & Hc)%Exists_exists.
    apply list_elem_of_lookup in Hr as [i Hi].
    assert ((i, r) ∈ refs_of c (procedures (self w))) as Hin
      by by apply elem_of_refs_of.
    rewrite <- Hperm in Hin. by apply elem_of_nil in Hin.
  - intros Hno. destruct l as [|[i r] l]; [done|]. exfalso. apply Hno.
    assert ((i, r) ∈ refs_of c (procedures (self w))) as Hin
      by (rewrite <- Hperm; left).
    apply elem_of_refs_of in Hin as [Hi Hc].
    apply Exists_exists. exists r. split; [|done].
    by eapply list_elem_of_lookup_2.
Qed.

Lemma output_set_fresh_keys c v (output : timelines) :
  c ∉ output.*1 → (output_set c v output).*1 = output.*1 ++ [c].
Proof.
  induction output as [|[c' v'] o IH]; [done|].
  rewrite fmap_cons. intros [Hne Hc]%not_elem_of_cons. simpl in Hne.
  cbn [output_set]. rewrite bool_decide_false by done.
  by rewrite !fmap_cons, IH.
Qed.

Lemma compile_components_keys dry_run viz cs :
  NoDup cs →
  ∀ output w out w',
    Forall (λ c, c ∉ output.*1) cs →
    compile_components dry_run viz cs output w = (Ok out, w') →
    out.*1 = output.*1 ++ filter (λ c, has_records c (procedures (self w))) cs.
Proof.
  induction 1 as [|c cs Hc Hnd IH]; intros output w out w' Hfresh E.
  { simpl in E. inversion E; subst. by rewrite app_nil_r. }
  apply Forall_cons in Hfresh as [Hfc Hfresh].
  apply compile_components_cons_ok in E as (cps & E1 & [[-> E2]|(Hne & _ & E2)]).
  - rewrite filter_cons_False
      by (by apply (component_procedures_nil _ _ _ _ E1)).
    by apply IH in E2.
  - destruct E2 as (w1 & w2 & compiled & E3 & E4 & Hw2 & E5).
    rewrite filter_cons_True.
    2:{ destruct (decide (has_records c (procedures (self w)))) as [|Hno]; [done|].
        by apply (component_procedures_nil _ _ _ _ E1) in Hno. }
    apply IH in E5.
    + rewrite E5, output_set_fresh_keys by done. rewrite <- (assoc_L (++)). simpl.
      do 2 f_equal. apply list_filter_iff. intros c'. rewrite Hw2. symmetry.
      apply has_records_frame. by apply (framed_infer_stops _ _ _ _ _ E3).
    + rewrite output_set_fresh_keys by done.
      eapply Forall_impl; [apply Forall_and; split; [exact Hfresh|]|].
      * apply Forall_forall. intros c' Hc'. instantiate (1 := λ c', c' ≠ c).
        simpl. intros ->. done.
      * simpl. intros c' [H1 H2]. rewrite elem_of_app, list_elem_of_singleton.
        tauto.
Qed.

Lemma compile_components_valid dry_run viz cs :
  ∀ output w out w',
    compile_components dry_run viz cs output w = (Ok out, w') →
    Forall (λ c, has_records c (procedures (self w)) → validate c dry_run = true) cs.
Proof.
  induction cs as [|c cs IH]; intros output w out w' E; [constructor|].
  apply compile_components_cons_ok in E as (cps & E1 & [[-> E2]|(Hne & Hv & E2)]).
  - constructor; [|by apply IH in E2].
    intros Hr. by apply (component_procedures_nil _ _ _ _ E1) in Hr.
  - destruct E2 as (w1 & w2 & compiled & E3 & E4 & Hw2 & E5).
    constructor; [done|]. apply IH in E5.
    eapply Forall_impl; [exact E5|]. simpl. intros c' Hc' Hr. apply Hc'.
    rewrite Hw2. by apply (has_records_frame c' _ _ (proj2 (proj2 (proj2
      (framed_infer_stops _ _ _ _ _ E3))))).
Qed.

(** X11.  The keys of the compiled output, in order, are the active
    components that have at least one record, in the order of the
    apparatus; a component without records only gets a warning. *)
Theorem compile_output_keys (dry_run _visualization : bool) (w : world)
    (out : timelines) (w' : world) :
  compile dry_run _visualization w = (Ok out, w') →
  out.*1 = filter (λ c, has_records c (procedures (self w)))
             (_active_components (apparatus (self w))).
Proof.
  intros E. unfold compile, mbind, M_bind, get_self in E.
  revert E. case_bool_decide as Hdup; [done|]. intros E.
  rewrite <- (length_fmap name (_active_components (apparatus (self w)))) in Hdup.
  apply remove_dups_length_NoDup, NoDup_fmap_1 in Hdup.
  apply (compile_components_keys _ _ _ Hdup) in E; [done|].
  apply Forall_forall. intros c _. apply not_elem_of_nil.
Qed.

(** X12.  [compile] does not succeed when an active component that has a
    record fails [validate]; a component without records is not
    validated. *)
Theorem compile_requires_valid_components (dry_run _visualization : bool)
    (w : world) (c : Component) :
  c ∈ _active_components (apparatus (self w)) →
  has_records c (procedures (self w)) →
  validate c dry_run = false →
  ∀ out w', compile dry_run _visualization w ≠ (Ok out, w').
Proof.
  intros Hc Hr Hv out w' E. unfold compile, mbind, M_bind, get_self in E.
  revert E. case_bool_decide as Hdup; [done|]. intros E.
  apply compile_components_valid in E.
  rewrite Forall_forall in E. specialize (E c Hc Hr). congruence.
Qed.

(** X13.  [compile] raises the error for duplicate names exactly when two
    active components share a name, and then before anything else: no
    record is changed and no warning issued. *)
Theorem compile_duplicate_names (dry_run _visualization : bool) (w : world) :
  (¬ NoDup (name <$> _active_components (apparatus (self w))) →
   compile dry_run _visualization w = (Raise DuplicateDeviceNameError, w))
  ∧ (∀ w', compile dry_run _visualization w = (Raise DuplicateDeviceNameError, w') →
           ¬ NoDup (name <$> _active_components (apparatus (self w)))).
Proof.
  split.
  - intros Hdup. unfold compile, mbind, M_bind, get_self.
    rewrite bool_decide_true; [done|].
    intros Hlen. apply Hdup. apply remove_dups_length_NoDup.
    by rewrite Hlen, length_fmap.
  - intros w' E Hnd. unfold compile, mbind, M_bind, get_self in E.
    rewrite bool_decide_false in E.
    + revert E. apply never_apply, never_outside_compile_components.
      rewrite !not_elem_of_cons. repeat split; try discriminate.
      apply not_elem_of_nil.
    + intros Hlen. apply Hlen. by rewrite remove_dups_NoDup_id, length_fmap.
Qed.

Lemma compile_output_keys_witness :
  ∃ out w',
    compile true false
      (Sample.world_of [Fixture.A; Fixture.B; Sample.C]
         [Fixture.rec Sample.C (Some 0) (Some 5) 1;
          Fixture.rec Fixture.A (Some 0) (Some 5) 2;
          Fixture.rec Sample.C (Some 5) (Some 9) 3])
    = (Ok out, w')
    ∧ out.*1 = [Fixture.A; Sample.C].
Proof.
  pose proof (compile_output_keys true false
    (Sample.world_of [Fixture.A; Fixture.B; Sample.C]
       [Fixture.rec Sample.C (Some 0) (Some 5) 1;
        Fixture.rec Fixture.A (Some 0) (Some 5) 2;
        Fixture.rec Sample.C (Some 5) (Some 9) 3])) as H.
  destruct (compile true false _) as [r w'] eqn:E. vm_compute in E.
  inversion E; subst. eexists _, _. split; [reflexivity|].
  rewrite (H _ _ eq_refl). by vm_compute.
Defined.

Lemma compile_requires_valid_components_witness :
  Sample.broken ∈ [Fixture.A; Sample.broken]
  ∧ has_records Sample.broken [Fixture.rec Sample.broken (Some 0) (Some 5) 1]
  ∧ validate Sample.broken true = false
  ∧ ∀ out w',
      compile true false
        (Sample.world_of [Fixture.A; Sample.broken]
           [Fixture.rec Sample.broken (Some 0) (Some 5) 1])
      ≠ (Ok out, w').
Proof.
  assert (Sample.broken ∈ [Fixture.A; Sample.broken]) as Hin by (right; left).
  assert (has_records Sample.broken [Fixture.rec Sample.broken (Some 0) (Some 5) 1])
    as Hr by (by left).
  split; [exact Hin|]. split; [exact Hr|]. split; [reflexivity|].
  exact (compile_requires_valid_components true false
           (Sample.world_of [Fixture.A; Sample.broken]
              [Fixture.rec Sample.broken (Some 0) (Some 5) 1])
           Sample.broken Hin Hr eq_refl).
Defined.

Lemma lookups_omap (l : list procedure) cps rs :
  Forall2 (λ i r, l !! i = Some r) cps rs → rs = omap (λ i, l !! i) cps.
Proof.
  induction 1 as [|i r cps rs Hi _ IH]; simpl; [done|].
  rewrite Hi. simpl. by f_equal.
Qed.

(** Records read through the positions of all records of a component are
    the component's records. *)
Lemma positions_records c (l : list procedure) cps rs :
  NoDup cps →
  (∀ i, i ∈ cps ↔ ∃ r, l !! i = Some r ∧ component r = c) →
  Forall2 (λ i r, l !! i = Some r) cps rs →
  rs ≡ₚ filter (λ r, component r = c) l.
Proof.
  intros Hnd Hmem Hf. rewrite (lookups_omap _ _ _ Hf).
  rewrite <- (refs_snd_pair c l). fold (refs_of c l).
  rewrite <- (omap_lookup_refs l (refs_of c l)).
  2:{ apply Forall_forall. intros [i r] Hin. by apply elem_of_refs_of in Hin as [? _]. }
  apply omap_Permutation. apply NoDup_Permutation; [done|apply NoDup_refs_of|].
  intros i. rewrite Hmem, list_elem_of_fmap. split.
  - intros (r & Hi & Hc). exists (i, r). split; [done|]. by apply elem_of_refs_of.
  - intros ([j r] & -> & Hin). apply elem_of_refs_of in Hin. by exists r.
Qed.

Lemma StronglySorted_transfer {A B} (R : relation A) (R' : relation B)
    (Q : A → B → Prop) l k :
  (∀ x y x' y', R x y → Q x x' → Q y y' → R' x' y') →
  Forall2 Q l k → StronglySorted R l → StronglySorted R' k.
Proof.
  intros HR Hf. induction Hf as [|x x' l k Hx Hf IH]; intros Hs; [constructor|].
  apply StronglySorted_inv in Hs as [Hs Hall]. constructor; [auto|].
  apply Forall_forall. intros y' Hy'. apply list_elem_of_lookup in Hy' as [i Hi].
  destruct (Forall2_lookup_r _ _ _ _ _ Hf Hi) as (y & Hy & HQ).
  eapply HR; [|exact Hx|exact HQ].
  rewrite Forall_forall in Hall. apply Hall. by eapply list_elem_of_lookup_2.
Qed.

Lemma Forall2_and_Forall_l {A B} (P : A → Prop) (Q : A → B → Prop) l k :
  Forall P l → Forall2 Q l k → Forall2 (λ x y, P x ∧ Q x y) l k.
Proof.
  intros HP Hf. induction Hf as [|x y l k Hxy _ IH]; [constructor|].
  apply Forall_cons in HP as [Hx HP]. constructor; auto.
Qed.

(** The references [component_procedures] returns are those of the
    component's records, each once, and in the order of their starts. *)
Lemma component_procedures_sorted c w cps w' :
  component_procedures c w = (Ok cps, w') →
  ∃ l, cps = l.*1
       ∧ l ≡ₚ refs_of c (procedures (self w))
       ∧ StronglySorted (λ x y : nat * procedure, start_le x.2 y.2) l.
Proof.
  unfold component_procedures, mbind, M_bind, get_self, sorted_by_start.
  case_bool_decide as Hlen.
  { intros [= <- <-]. eexists. split; [done|]. split; [done|].
    destruct (refs_of c _) as [|x [|y l]]; simpl in Hlen; [constructor| |lia].
    constructor; constructor. }
  destruct (forallb _ _) eqn:Hall; [|by intros [=]].
  intros [= <- <-]. eexists. split; [done|].
  split; [apply sorted_by_perm|].
  assert (Forall (λ x : nat * procedure, is_Some (start x.2))
            (sorted_by start_key (refs_of c (procedures (self w))))) as Hsome.
  { rewrite sorted_by_perm. apply Forall_forall. intros x Hx.
    rewrite forallb_forall in Hall. apply list_elem_of_In, Hall in Hx.
    by apply bool_decide_eq_true in Hx. }
  pose proof (sorted_by_sorted start_key (refs_of c (procedures (self w)))) as Hs.
  revert Hsome Hs. generalize (sorted_by start_key (refs_of c (procedures (self w)))).
  induction l as [|x l IH]; intros Hsome Hs; [constructor|].
  apply Forall_cons in Hsome as [[a Ha] Hsome].
  apply StronglySorted_inv in Hs as [Hs Hle]. constructor; [auto|].
  rewrite Forall_forall in Hle, Hsome. apply Forall_forall. intros y Hy.
  specialize (Hle y Hy). destruct (Hsome y Hy) as [b Hb].
  unfold key_le, start_key in Hle. unfold start_le. rewrite Ha, Hb in *. done.
Qed.

(** The timeline of a component in the output of [compile_components] is
    what [emit_records] gives on the component's records as they are in the
    final store, taken in the order of their starts. *)
Lemma compile_components_timeline dry_run viz cs :
  NoDup cs →
  ∀ output w out w',
    compile_components dry_run viz cs output w = (Ok out, w') →
    ∀ c tl, c ∈ cs → output_lookup c output = None →
      output_lookup c out = Some tl →
      ∃ rs, rs ≡ₚ filter (λ r, component r = c) (procedures (self w'))
            ∧ rs ≠ []
            ∧ StronglySorted start_le rs
            ∧ emit_records viz c rs [] = Ok tl.
Proof.
  induction 1 as [|c0 cs Hc0 Hnd IH]; intros output w out w' E c tl Hc Hnone Htl.
  { by apply elem_of_nil in Hc. }
  pose proof (framed_compile_components _ _ _ _ _ _ _ E) as (_ & _ & _ & Hfr).
  apply compile_components_cons_ok in E as (cps & E1 & [[-> E2]|(Hne & _ & E2)]).
  - apply elem_of_cons in Hc as [->|Hc].
    + rewrite (output_lookup_other_components _ _ _ _ Hc0 _ _ _ _ E2) in Htl.
      congruence.
    + by eapply (IH _ _ _ _ E2).
  - destruct E2 as (w1 & w2 & compiled & E3 & E4 & Hw2 & E5).
    destruct (decide (c = c0)) as [->|Hcne].
    + rewrite (output_lookup_other_components _ _ _ _ Hc0 _ _ _ _ E5),
        output_lookup_set_eq in Htl. inversion Htl; subst compiled; clear Htl.
      apply component_procedures_sorted in E1 as (l0 & -> & Hperm & Hsorted).
      assert (∀ i, i ∈ l0.*1 ↔
                   ∃ r, procedures (self w) !! i = Some r ∧ component r = c0) as Hmem.
      { intros i. rewrite list_elem_of_fmap. split.
        - intros ([j r] & -> & Hin). rewrite Hperm in Hin.
          apply elem_of_refs_of in Hin. by exists r.
        - intros (r & Hi & Hcr). exists (i, r). split; [done|].
          rewrite Hperm. by apply elem_of_refs_of. }
      pose proof (framed_infer_stops _ _ _ _ _ E3) as (_ & _ & _ & Hfr1).
      destruct (lookups_exist (procedures (self w1)) (l0.*1)) as [rs Hrs].
      { apply Forall_forall. intros i (r & Hi & _)%Hmem.
        eapply frame_is_Some; [exact Hfr1|]. by exists r. }
      rewrite (emit_lookup _ _ _ _ _ Hrs) in E4. inversion E4; subst w2.
      exists rs. split; [|split; [|split; [|done]]].
      * apply (positions_records c0 _ (l0.*1)).
        -- rewrite Hperm. apply NoDup_refs_of.
        -- intros i. rewrite Hmem. split.
           ++ intros (r & Hi & Hcr).
              destruct (frame_lookup _ _ _ _ Hfr Hi) as (r' & Hi' & _ & Hc' & _).
              exists r'. split; [done|]. congruence.
           ++ intros (r' & Hi' & Hcr).
              destruct (frame_lookup_back _ _ _ _ Hfr Hi') as (r & Hi & _ & Hc' & _).
              exists r. split; [done|]. congruence.
        -- eapply lookups_transfer; [exact Hrs|].
           intros i r Hin Hi.
           eapply touches_lookup_outside;
             [exact (compile_components_touches _ _ _ _ _ _ _ E5)|exact Hi|].
           simpl. apply Hmem in Hin as (r0 & Hi0 & Hcr0).
           destruct (frame_lookup _ _ _ _ Hfr1 Hi0) as (r' & Hi' & _ & Hc' & _).
           assert (r' = r) as -> by congruence. congruence.
      * intros ->. apply Forall2_length in Hrs. by destruct l0.
      * apply Forall2_fmap_l in Hrs.
        eapply (StronglySorted_transfer _ _ _ l0 rs); [| |exact Hsorted].
        2:{ apply (Forall2_and_Forall_l
                     (λ x, procedures (self w) !! x.1 = Some x.2)); [|exact Hrs].
            apply Forall_forall. intros [i r] Hin. rewrite Hperm in Hin.
            by apply elem_of_refs_of in Hin as [? _]. }
        simpl. intros x y x' y' Hle [Hx Hx'] [Hy Hy'].
        destruct (frame_lookup _ _ _ _ Hfr1 Hx) as (r1 & Hr1 & Hs1 & _).
        destruct (frame_lookup _ _ _ _ Hfr1 Hy) as (r2 & Hr2 & Hs2 & _).
        assert (r1 = x') as -> by congruence.
        assert (r2 = y') as -> by congruence.
        unfold start_le in *. by rewrite Hs1, Hs2.
    + apply elem_of_cons in Hc as [->|Hc]; [done|].
      eapply (IH _ _ _ _ E5); [done| |done].
      by rewrite output_lookup_set_ne.
Qed.

Lemma emit_records_viz c rs :
  ∀ compiled,
    emit_records true c rs compiled
    = Ok (compiled ++ ((λ r, Viz (start r) (stop r) (params r)) <$> rs)).
Proof.
  induction rs as [|r rs IH]; intros compiled; simpl.
  - by rewrite app_nil_r.
  - by rewrite IH, <- (assoc_L (++)).
Qed.

(** What [emit_records] appends in execution form. *)
Lemma emit_records_exec c rs :
  ∀ compiled tl,
    emit_records false c rs compiled = Ok tl →
    ∃ added,
      tl = compiled ++ added
      ∧ Forall (λ r, Exec (start r) (params r) ∈ added) rs
      ∧ Forall (λ x, ∃ r, r ∈ rs ∧ (x = Exec (start r) (params r)
                                    ∨ x = Exec (stop r) (base_state c))) added
      ∧ (∀ r, last rs = Some r → last added = Some (Exec (stop r) (base_state c)))
      ∧ (length added ≤ 2 * length rs)%nat
      ∧ (rs ≠ [] → (length rs < length added)%nat).
Proof.
  induction rs as [|r rs IH]; intros compiled tl E.
  { simpl in E. inversion E; subst. exists []. rewrite app_nil_r.
    repeat split; try done; constructor. }
  assert (∀ mid,
    emit_records false c rs (compiled ++ Exec (start r) (params r) :: mid) = Ok tl →
    (∀ x, x ∈ mid → x = Exec (stop r) (base_state c)) →
    (length mid ≤ 1)%nat →
    (rs = [] → mid = [Exec (stop r) (base_state c)]) →
    ∃ added,
      tl = compiled ++ added
      ∧ Forall (λ r0, Exec (start r0) (params r0) ∈ added) (r :: rs)
      ∧ Forall (λ x, ∃ r0, r0 ∈ r :: rs ∧ (x = Exec (start r0) (params r0)
                                    ∨ x = Exec (stop r0) (base_state c))) added
      ∧ (∀ r0, last (r :: rs) = Some r0 →
               last added = Some (Exec (stop r0) (base_state c)))
      ∧ (length added ≤ 2 * length (r :: rs))%nat
      ∧ (r :: rs ≠ [] → (length (r :: rs) < length added)%nat)) as Hstep.
  { intros mid E' Hmid Hlen Hlast.
    apply IH in E' as (added & -> & Hops & Hall & Hl & Hub & Hlb).
    exists (Exec (start r) (params r) :: mid ++ added).
    split; [by rewrite <- !(assoc_L (++))|].
    split; [|split; [|split; [|split]]].
    - constructor; [left|].
      eapply Forall_impl; [exact Hops|]. simpl. intros r0 Hr0.
      right. apply elem_of_app. by right.
    - constructor; [exists r; split; [left|by left]|].
      apply Forall_app. split.
      + apply Forall_forall. intros x Hx. exists r. split; [left|].
        right. by apply Hmid.
      + eapply Forall_impl; [exact Hall|]. simpl.
        intros x (r0 & Hr0 & Hx). exists r0. split; [by right|done].
    - intros r0 Hr0. destruct rs as [|r1 rs].
      + simpl in Hr0. inversion Hr0; subst r0. rewrite (Hlast eq_refl).
        destruct added; [done|simpl in Hub; lia].
      + change (last (r :: r1 :: rs)) with (last (r1 :: rs)) in Hr0.
        specialize (Hl _ Hr0).
        rewrite last_cons, last_app, Hl. done.
    - simpl. rewrite length_app. simpl in Hub. lia.
    - intros _. simpl. rewrite length_app.
      destruct rs as [|r1 rs].
      + rewrite (Hlast eq_refl). simpl. lia.
      + specialize (Hlb ltac:(done)). simpl in *. lia. }
  assert (∀ y, ∀ x, x ∈ [Exec y (base_state c)] → x = Exec y (base_state c))
    as Hone by (by intros y x ->%list_elem_of_singleton).
  simpl in E. destruct rs as [|r' rs'].
  - simpl in E. rewrite <- (assoc_L (++)) in E.
    apply (Hstep [Exec (stop r) (base_state c)]); auto.
  - change (head (r' :: rs')) with (Some r') in E. cbv beta iota in E.
    destruct (start r') as [x|] eqn:Hsx; [|by simpl in E].
    destruct (stop r) as [y|] eqn:Hsy; [|by simpl in E].
    destruct (isclose x y); cbv beta iota in E.
    + apply (Hstep []); [exact E| |simpl; lia|done].
      by intros x0 Hx0%elem_of_nil.
    + rewrite <- (assoc_L (++)) in E.
      apply (Hstep [Exec (Some y) (base_state c)]); [exact E|auto|simpl; lia|done].
Qed.

(** The timeline of a component in the output of [compile], through
    [compile_components_timeline]. *)
Lemma compile_timeline_records dry_run viz w out w' c tl :
  compile dry_run viz w = (Ok out, w') →
  output_lookup c out = Some tl →
  ∃ rs, rs ≡ₚ filter (λ r, component r = c) (procedures (self w'))
        ∧ rs ≠ []
        ∧ StronglySorted start_le rs
        ∧ emit_records viz c rs [] = Ok tl.
Proof.
  intros E Htl. unfold compile, mbind, M_bind, get_self in E.
  revert E. case_bool_decide as Hdup; [done|]. intros E.
  rewrite <- (length_fmap name (_active_components (apparatus (self w)))) in Hdup.
  apply remove_dups_length_NoDup, NoDup_fmap_1 in Hdup.
  destruct (decide (c ∈ _active_components (apparatus (self w)))) as [Hc|Hc].
  - by eapply (compile_components_timeline _ _ _ Hdup _ _ _ _ E).
  - by rewrite (output_lookup_other_components _ _ _ _ Hc _ _ _ _ E) in Htl.
Qed.

(** X14.  In visualization form the timeline of a component has exactly
    one entry per record of the component, in the order of the records'
    starts; the entry carries the record's start, its params, and its stop
    as it is in the protocol after [compile], so an inferred stop shows. *)
Theorem compile_visualization_timeline (dry_run : bool) (w : world)
    (out : timelines) (w' : world) (c : Component) (tl : list instruction) :
  compile dry_run true w = (Ok out, w') →
  output_lookup c out = Some tl →
  ∃ rs, rs ≡ₚ filter (λ r, component r = c) (procedures (self w'))
        ∧ StronglySorted start_le rs
        ∧ tl = (λ r, Viz (start r) (stop r) (params r)) <$> rs.
Proof.
  intros E Htl.
  destruct (compile_timeline_records _ _ _ _ _ _ _ E Htl)
    as (rs & Hperm & _ & Hsorted & Hemit).
  exists rs. split; [done|]. split; [done|].
  rewrite emit_records_viz in Hemit. by inversion Hemit.
Qed.

(** X15.  In execution form the timeline of a component holds the
    instruction of every record of the component, at the record's start;
    every other entry returns the component to its base state at the stop
    of one of its records; the last entry does so at the stop of the
    record that starts last; and the timeline has more entries than the
    component has records, at most twice as many. *)
Theorem compile_execution_timeline (dry_run : bool) (w : world)
    (out : timelines) (w' : world) (c : Component) (tl : list instruction) :
  compile dry_run false w = (Ok out, w') →
  output_lookup c out = Some tl →
  ∃ rs, rs ≡ₚ filter (λ r, component r = c) (procedures (self w'))
        ∧ StronglySorted start_le rs
        ∧ Forall (λ r, Exec (start r) (params r) ∈ tl) rs
        ∧ Forall (λ x, ∃ r, r ∈ rs ∧ (x = Exec (start r) (params r)
                                      ∨ x = Exec (stop r) (base_state c))) tl
        ∧ (∃ r, last rs = Some r ∧ last tl = Some (Exec (stop r) (base_state c)))
        ∧ (length rs < length tl ≤ 2 * length rs)%nat.
Proof.
  intros E Htl.
  destruct (compile_timeline_records _ _ _ _ _ _ _ E Htl)
    as (rs & Hperm & Hne & Hsorted & Hemit).
  apply emit_records_exec in Hemit as (added & -> & Hops & Hall & Hl & Hub & Hlb).
  exists rs. simpl. repeat split; try done; [|by apply Hlb].
  destruct (last rs) as [r|] eqn:Hr.
  - exists r. split; [done|]. by apply Hl.
  - by apply last_None in Hr.
Qed.

Lemma compile_visualization_timeline_witness :
  ∃ out w' tl,
    compile true true (Sample.world_of [Fixture.A; Fixture.B] Fixture.staggered)
    = (Ok out, w')
    ∧ output_lookup Fixture.B out = Some tl
    ∧ ∃ rs, rs ≡ₚ filter (λ r, component r = Fixture.B) (procedures (self w'))
            ∧ StronglySorted start_le rs
            ∧ tl = (λ r, Viz (start r) (stop r) (params r)) <$> rs.
Proof.
  pose proof (compile_visualization_timeline true
    (Sample.world_of [Fixture.A; Fixture.B] Fixture.staggered)) as H.
  destruct (compile true true _) as [r w'] eqn:E. vm_compute in E.
  inversion E; subst. eexists _, _, _. split; [reflexivity|].
  split; [reflexivity|]. by apply (H _ _ Fixture.B _ eq_refl).
Defined.

Lemma compile_execution_timeline_witness :
  ∃ out w' tl,
    compile true false (Sample.world_of [Fixture.A] Fixture.gapped) = (Ok out, w')
    ∧ output_lookup Fixture.A out = Some tl
    ∧ ∃ rs, rs ≡ₚ filter (λ r, component r = Fixture.A) (procedures (self w'))
            ∧ StronglySorted start_le rs
            ∧ Forall (λ r, Exec (start r) (params r) ∈ tl) rs
            ∧ Forall (λ x, ∃ r, r ∈ rs ∧ (x = Exec (start r) (params r)
                                          ∨ x = Exec (stop r) (base_state Fixture.A)))
                tl
            ∧ (∃ r, last rs = Some r
                    ∧ last tl = Some (Exec (stop r) (base_state Fixture.A)))
            ∧ (length rs < length tl ≤ 2 * length rs)%nat.
Proof.
  pose proof (compile_execution_timeline true
    (Sample.world_of [Fixture.A] Fixture.gapped)) as H.
  destruct (compile true false _) as [r w'] eqn:E. vm_compute in E.
  inversion E; subst. eexists _, _, _. split; [reflexivity|].
  split; [reflexivity|]. by apply (H _ _ Fixture.A _ eq_refl).
Defined.

(** * [to_dict] *)

Lemma compile_ok_inv dry_run viz w out w' :
  compile dry_run viz w = (Ok out, w') →
  NoDup (name <$> _active_components (apparatus (self w)))
  ∧ compile_components dry_run viz (_active_components (apparatus (self w))) [] w
    = (Ok out, w').
Proof.
  intros E. unfold compile, mbind, M_bind, get_self in E.
  revert E. case_bool_decide as Hdup; [done|]. intros E. split; [|done].
  rewrite <- (length_fmap name (_active_components (apparatus (self w)))) in Hdup.
  by apply remove_dups_length_NoDup in Hdup.
Qed.

Lemma dict_set_fresh {V} k (v : V) d : k ∉ d.*1 → dict_set k v d = d ++ [(k, v)].
Proof.
  induction d as [|[k' v'] d IH]; [done|].
  rewrite fmap_cons. intros [Hne Hk]%not_elem_of_cons. simpl in Hne.
  cbn [dict_set]. rewrite bool_decide_false by done. simpl. by rewrite IH.
Qed.

Lemma name_keys_distinct (output : timelines) :
  ∀ acc, NoDup (acc.*1 ++ (name <$> output.*1)) →
    name_keys output acc = acc ++ ((λ x, (name x.1, x.2)) <$> output).
Proof.
  induction output as [|[c tl] output IH]; intros acc Hnd; simpl.
  { by rewrite app_nil_r. }
  simpl in Hnd. rewrite dict_set_fresh.
  - rewrite IH; [by rewrite <- (assoc_L (++))|].
    rewrite fmap_app. simpl. by rewrite <- (assoc_L (++)).
  - apply NoDup_app in Hnd as (_ & Hnd & _). intros Hin.
    apply (Hnd _ Hin). left.
Qed.

(** X16.  [to_dict] returns the timelines of a dry-run [compile] in
    execution form, in the same order, each under the name of its
    component; no timeline is lost to a clash of names.  It fails as
    [compile] does and leaves the protocol as [compile] leaves it. *)
Theorem to_dict_renames_keys (w : world) :
  to_dict w
  = match compile true false w with
    | (Ok out, w') => (Ok ((λ x, (name x.1, x.2)) <$> out), w')
    | (Raise e, w') => (Raise e, w')
    end.
Proof.
  unfold to_dict, mbind, M_bind.
  destruct (compile true false w) as [[out|e] w'] eqn:E; [|done].
  unfold mret, M_ret. do 2 f_equal.
  apply compile_ok_inv in E as [Hnd E].
  rewrite (name_keys_distinct out []); [done|]. simpl.
  apply (compile_components_keys _ _ _ (NoDup_fmap_1 _ _ Hnd)) in E.
  2:{ apply Forall_forall. intros c _. apply not_elem_of_nil. }
  rewrite E. simpl. refine (sublist_NoDup _ _ Hnd _).
  apply fmap_sublist, sublist_filter.
Qed.

Lemma compile_again_witness :
  ∃ out w1,
    compile true false (Sample.world_of [Fixture.A] Fixture.gapped) = (Ok out, w1)
    ∧ stops_defined [Fixture.A] (procedures (self w1))
    ∧ ∃ w2, compile true false w1 = (Ok out, w2) ∧ self w2 = self w1.
Proof.
  pose proof (compile_again true false
    (Sample.world_of [Fixture.A] Fixture.gapped)) as H.
  destruct (compile true false _) as [r w1] eqn:E. vm_compute in E.
  inversion E; subst. eexists _, _. split; [reflexivity|].
  assert (stops_defined [Fixture.A]
            [Fixture.rec Fixture.A (Some 0) (Some 5) 1;
             Fixture.rec Fixture.A (Some 10) (Some 15) 2;
             Fixture.rec Fixture.A (Some 15) (Some 20) 3]) as Hdef.
  { intros r Hr _.
    repeat (apply elem_of_cons in Hr as [->|Hr]; [done|]).
    by apply elem_of_nil in Hr. }
  split; [exact Hdef|]. exact (H _ _ eq_refl Hdef).
Defined.

(** * What [compile] leaves alone *)

(** X18.  [compile], whether it returns or raises, leaves a record exactly
    as it was when the record's component is not an active component of
    the apparatus, and when the record already has a stop. *)
Theorem compile_untouched_records (dry_run _visualization : bool) (w : world)
    (r : result timelines) (w' : world) (i : nat) (x : procedure) :
  compile dry_run _visualization w = (r, w') →
  procedures (self w) !! i = Some x →
  component x ∉ _active_components (apparatus (self w)) ∨ stop x ≠ None →
  procedures (self w') !! i = Some x.
Proof.
  intros E Hi Hx. unfold compile, mbind, M_bind, get_self in E.
  revert E. case_bool_decide as Hdup; [by intros [= <- <-]|]. intros E.
  apply compile_components_touches in E.
  destruct Hx as [Hx|Hx]; [by eapply touches_lookup_outside|].
  destruct (Forall2_lookup_l _ _ _ _ _ E Hi) as (x' & Hi' & [->|[_ Hfr]]); [done|].
  destruct Hfr as (Hs & Hc & Hp & [He|He]); [|done].
  rewrite Hi'. f_equal. destruct x, x'; simpl in *; by subst.
Qed.

Lemma compile_untouched_records_witness :
  ∃ r w',
    compile true false (Sample.world_of [Fixture.B] Fixture.staggered) = (r, w')
    ∧ procedures (self (Sample.world_of [Fixture.B] Fixture.staggered)) !! 1%nat
      = Some (Fixture.rec Fixture.A (Some 0) None 1)
    ∧ procedures (self w') !! 1%nat = Some (Fixture.rec Fixture.A (Some 0) None 1).
Proof.
  pose proof (compile_untouched_records true false
    (Sample.world_of [Fixture.B] Fixture.staggered)) as H.
  destruct (compile true false _) as [r w'] eqn:E.
  exists r, w'. split; [reflexivity|]. split; [reflexivity|].
  apply (H _ _ 1%nat _ eq_refl eq_refl). left. simpl.
  intros Heq%list_elem_of_singleton. by inversion Heq.
Defined.

Lemma compile_components_unused dry_run viz cs :
  ∀ output w,
    Forall (λ c, ¬ has_records c (procedures (self w))) cs →
    compile_components dry_run viz cs output w
    = (Ok output, {| self := self w;
                     warnings := warnings w ++ (UnusedComponent <$> cs) |}).
Proof.
  induction cs as [|c cs IH]; intros output w Hno; simpl.
  { rewrite app_nil_r. by destruct w. }
  apply Forall_cons in Hno as [Hc Hno].
  assert (Forall (λ r, component r ≠ c) (procedures (self w))) as Hc'.
  { apply Forall_forall. intros r Hr Hcr. apply Hc, Exists_exists. eauto. }
  erewrite bind_ok by (by apply component_procedures_unused).
  simpl. unfold mbind at 1, M_bind at 1, warn.
  rewrite IH by done. simpl. by rewrite <- (assoc_L (++)).
Qed.

(** X19.  When no active component has a record, as in a protocol that is
    new or was cleared, [compile] returns the empty output, warns once
    for each active component, in the order of the apparatus, and leaves
    the protocol as it was. *)
Theorem compile_without_records (dry_run _visualization : bool) (w : world) :
  NoDup (name <$> _active_components (apparatus (self w))) →
  Forall (λ c, ¬ has_records c (procedures (self w)))
    (_active_components (apparatus (self w))) →
  compile dry_run _visualization w
  = (Ok [], {| self := self w;
               warnings := warnings w
                 ++ (UnusedComponent <$> _active_components (apparatus (self w))) |}).
Proof.
  intros Hnd Hno. unfold compile, mbind, M_bind, get_self.
  rewrite bool_decide_false.
  - by apply compile_components_unused.
  - intros Hlen. apply Hlen. by rewrite remove_dups_NoDup_id, length_fmap.
Qed.

Lemma compile_without_records_witness :
  compile false false
    (Sample.world_of [Fixture.A; Fixture.B]
       [Fixture.rec Sample.C (Some 0) None 1])
  = (Ok [], {| self := Fixture.protocol [Fixture.A; Fixture.B]
                         [Fixture.rec Sample.C (Some 0) None 1];
               warnings := [UnusedComponent Fixture.A; UnusedComponent Fixture.B] |}).
Proof.
  apply (compile_without_records false false
           (Sample.world_of [Fixture.A; Fixture.B]
              [Fixture.rec Sample.C (Some 0) None 1])).
  - simpl. repeat constructor; rewrite ?not_elem_of_cons, ?elem_of_nil;
      try tauto; by intuition discriminate.
  - repeat constructor; by intros [[=]|Hn%Exists_nil]%Exists_cons.
Defined.

(** * No [TypeError] from a protocol whose records have starts *)

Lemma linked_tail r rs : linked (r :: rs) → linked rs.
Proof. destruct rs as [|r' rs]; simpl; [done|]. tauto. Qed.

Lemma emit_records_linked viz c rs :
  linked rs → ∀ compiled e, emit_records viz c rs compiled ≠ Raise e.
Proof.
  induction rs as [|r rest IH]; intros Hl compiled e; [done|].
  pose proof (linked_tail _ _ Hl) as Hl'. simpl. unfold emit_record.
  destruct viz; [by apply IH|].
  destruct rest as [|r' rest']; [done|].
  destruct Hl as (Hstop & Hstart & _).
  change (head (r' :: rest')) with (Some r'). cbv beta iota.
  destruct (start r') as [x|]; [|done]. destruct (stop r) as [y|]; [|done].
  destruct (isclose x y); by apply IH.
Qed.

(** After the inference loop every record of the component but the last
    has a stop, when all of them have a start. *)
Lemma infer_stops_links c cps :
  ∀ w w1,
    NoDup cps →
    Forall (λ i, ∃ r, procedures (self w) !! i = Some r ∧ start r ≠ None) cps →
    infer_stops c cps w = (Ok (), w1) →
    ∃ rs, Forall2 (λ i r, procedures (self w1) !! i = Some r) cps rs ∧ linked rs.
Proof.
  induction cps as [|i rest IH]; intros w w1 Hnd Hall E.
  { exists []. split; [constructor|done]. }
  pose proof (framed_infer_stops _ _ _ _ _ E) as (_ & _ & _ & Hfr).
  simpl in E.
  destruct (bind_inv _ _ _ _ _ E) as [([] & wa & E1 & E2)|(e & _ & [=])]; clear E.
  apply NoDup_cons in Hnd as [Hi Hnd].
  apply Forall_cons in Hall as [(xi & Hxi & Hsi) Hall].
  pose proof (framed_infer_stop _ _ _ _ _ _ E1) as (_ & _ & _ & Hfa).
  destruct (IH wa w1 Hnd) as (rs' & Hrs' & Hl'); [|done|].
  { eapply Forall_impl; [exact Hall|]. simpl. intros j (y & Hy & Hsy).
    destruct (frame_lookup _ _ _ _ Hfa Hy) as (y' & Hy' & Hs & _).
    exists y'. split; [done|]. by rewrite Hs. }
  destruct (frame_lookup _ _ _ _ Hfa Hxi) as (xi' & Hxi' & _).
  rewrite <- (infer_stops_lookup_other _ _ _ _ _ _ Hi E2) in Hxi'.
  destruct rest as [|j rest'].
  { apply Forall2_nil_inv_l in Hrs' as ->. exists [xi'].
    split; [by repeat constructor|done]. }
  apply Forall_cons in Hall as [(y & Hy & Hsy) _].
  apply Forall2_cons_inv_l in Hrs' as (rj & rs'' & Hrj & Hrs'' & ->).
  exists (xi' :: rj :: rs''). split; [by repeat constructor|].
  split; [|split; [|done]].
  - assert (procedures (self wa) !! i
            = Some (if bool_decide (stop xi = None)
                    then with_stop (start y) xi else xi)) as Hfill.
    { rewrite (infer_stop_fill c i (Some j) w wa xi Hxi); [by rewrite Hy| |exact E1].
      by exists y. }
    rewrite <- (infer_stops_lookup_other _ _ _ _ _ _ Hi E2) in Hfill.
    rewrite Hxi' in Hfill. inversion Hfill; subst xi'.
    by case_bool_decide.
  - destruct (frame_lookup _ _ _ _ Hfr Hy) as (y' & Hy' & Hs & _).
    assert (y' = rj) as -> by congruence. by rewrite Hs.
Qed.

Lemma component_procedures_total c w :
  (∀ r, r ∈ procedures (self w) → start r ≠ None) →
  ∃ cps, component_procedures c w = (Ok cps, w).
Proof.
  intros Hall. unfold component_procedures, mbind, M_bind, get_self, sorted_by_start.
  case_bool_decide; [by eexists|].
  rewrite (proj2 (forallb_forall _ _)); [by eexists|].
  intros [i r] Hin%list_elem_of_In%elem_of_refs_of. simpl.
  apply bool_decide_eq_true. destruct Hin as [Hi _].
  apply list_elem_of_lookup_2, Hall in Hi. by destruct (start r).
Qed.

Lemma compile_components_no_type_error dry_run viz cs :
  ∀ output w w',
    (∀ r, r ∈ procedures (self w) → start r ≠ None) →
    compile_components dry_run viz cs output w ≠ (Raise PyTypeError, w').
Proof.
  induction cs as [|c cs IH]; intros output w w' Hall E; [done|].
  simpl in E. destruct (component_procedures_total c w Hall) as [cps Hcps].
  rewrite (bind_ok _ _ _ _ _ Hcps) in E. revert E.
  case_bool_decide as Hlen.
  { unfold mbind, M_bind, warn. simpl. by apply IH. }
  destruct (negb _); [by intros [=]|].
  unfold mbind at 1, M_bind at 1, get_self.
  case_bool_decide; [by intros [=]|]. intros E.
  destruct (bind_inv _ _ _ _ _ E) as [([] & w1 & E1 & E2)|(e & E1 & [= <-])]; clear E.
  2:{ revert E1. apply never_apply, never_outside_infer_stops.
      rewrite !not_elem_of_cons. repeat split; try discriminate.
      apply not_elem_of_nil. }
  pose proof (framed_infer_stops _ _ _ _ _ E1) as (_ & _ & _ & Hfr).
  apply component_procedures_inv in Hcps as (_ & l & -> & Hperm & _).
  destruct (infer_stops_links c (l.*1) w w1) as (rs & Hrs & Hlinked); [| |done|].
  { rewrite Hperm. apply NoDup_refs_of. }
  { apply Forall_forall. intros i ([j r] & -> & Hin)%list_elem_of_fmap.
    rewrite Hperm in Hin. apply elem_of_refs_of in Hin as [Hi _].
    exists r. split; [done|]. by eapply Hall, list_elem_of_lookup_2. }
  pose proof (emit_lookup viz c _ _ _ Hrs []) as Hemit'.
  destruct (emit_records viz c rs []) as [tl|e] eqn:Hemit.
  - rewrite (bind_ok _ _ _ _ _ Hemit') in E2.
    revert E2. apply IH. intros r (i & Hi)%list_elem_of_lookup.
    destruct (frame_lookup_back _ _ _ _ Hfr Hi) as (r0 & Hi0 & Hs & _).
    rewrite Hs. by eapply Hall, list_elem_of_lookup_2.
  - by apply emit_records_linked in Hemit.
Qed.

(** X20.  [compile] does not raise [TypeError] on a protocol in which
    every record has a start, which is how [add] leaves every record: the
    records of a component can be ordered, and the inference loop has
    given every record but the component's last a stop before the stops
    are compared with the next starts. *)
Theorem compile_no_type_error (dry_run _visualization : bool) (w : world) :
  (∀ r, r ∈ procedures (self w) → start r ≠ None) →
  ∀ w', compile dry_run _visualization w ≠ (Raise PyTypeError, w').
Proof.
  intros Hall w' E. unfold compile, mbind, M_bind, get_self in E.
  revert E. case_bool_decide; [by intros [=]|].
  by apply compile_components_no_type_error.
Qed.

Lemma compile_no_type_error_witness :
  (∀ r, r ∈ Fixture.staggered → start r ≠ None)
  ∧ ∀ w', compile false false
            (Sample.world_of [Fixture.A; Fixture.B] Fixture.staggered)
          ≠ (Raise PyTypeError, w').
Proof.
  assert (∀ r, r ∈ Fixture.staggered → start r ≠ None) as Hall.
  { intros r Hr. unfold Fixture.staggered in Hr.
    repeat (apply elem_of_cons in Hr as [->|Hr]; [done|]).
    by apply elem_of_nil in Hr. }
  split; [exact Hall|].
  exact (compile_no_type_error false false
           (Sample.world_of [Fixture.A; Fixture.B] Fixture.staggered) Hall).
Defined.

(** * The records the builder leaves *)

Section BuilderInvariant.
Variable parse_expression : pyval → option quantity.

Lemma add_single_keeps_built c start_ stop_ duration kw w r w' :
  built (self w) →
  _add_single parse_expression c start_ stop_ duration kw w = (r, w') →
  built (self w').
Proof.
  intros Hb E. destruct r as [[]|e].
  - destruct (add_single_ok_record _ _ _ _ _ _ _ _ E)
      as (kw0 & kw1 & qs & qe & E1 & E3 & ->).
    destruct (check_request_ok _ _ _ _ _ _ _ _ _ _ _ E1)
      as (_ & Hin & _ & Hkw & _ & _ & _ & _ & Hle).
    assert (kw1 ≠ []) as Hkw1.
    { destruct (is_temp_control c); [by eapply temp_control_magic_not_nil|by subst]. }
    unfold built. simpl. apply Forall_app. split; [exact Hb|].
    constructor; [|constructor]. unfold record_ok. simpl.
    split; [by eexists|]. split; [done|]. split; [done|].
    intros s e [= <-] He. destruct qe as [q|]; [|done]. simpl in He.
    inversion He; subst. by apply Hle.
  - by apply add_single_raise_world in E as ->.
Qed.

(** X21.  [add] keeps the protocol made of records as the builder makes
    them, whether it returns or raises part of the way: every record has
    a start, belongs to a component of the apparatus, has params, and
    stops, if its stop is set, no earlier than it starts. *)
Theorem add_keeps_built (cs : list Component) (start_ : timearg)
    (stop_ duration : option timearg) (kw : kwargs) (w : world)
    (r : result unit) (w' : world) :
  built (self w) →
  add parse_expression cs start_ stop_ duration kw w = (r, w') →
  built (self w').
Proof.
  revert w. induction cs as [|c cs IH]; intros w Hb E; simpl in E.
  { by inversion E; subst. }
  destruct (bind_inv _ _ _ _ _ E) as [([] & w1 & E1 & E2)|(e & E1 & ->)]; clear E.
  - eapply IH; [|exact E2]. by eapply add_single_keeps_built.
  - by eapply add_single_keeps_built.
Qed.
End BuilderInvariant.

Lemma add_keeps_built_witness :
  built (self (Sample.world_of [Fixture.A; Fixture.B]
                 [Fixture.rec Fixture.A (Some 0) (Some 5) 1]))
  ∧ ∃ r w',
      add Fixture.ureg [Fixture.B; Sample.C] (TimeExpr "0 seconds") None
        (Some (TimeExpr "10 seconds")) [("x", VInt 2)]
        (Sample.world_of [Fixture.A; Fixture.B]
           [Fixture.rec Fixture.A (Some 0) (Some 5) 1])
      = (r, w')
      ∧ length (procedures (self w')) = 2%nat
      ∧ built (self w').
Proof.
  assert (built (self (Sample.world_of [Fixture.A; Fixture.B]
                         [Fixture.rec Fixture.A (Some 0) (Some 5) 1]))) as Hb.
  { constructor; [|constructor]. unfold record_ok. simpl.
    split; [by eexists|]. split; [left|]. split; [done|].
    by intros s e [= <-] [= <-]. }
  split; [exact Hb|].
  pose proof (add_keeps_built Fixture.ureg [Fixture.B; Sample.C]
    (TimeExpr "0 seconds") None (Some (TimeExpr "10 seconds")) [("x", VInt 2)]
    (Sample.world_of [Fixture.A; Fixture.B]
       [Fixture.rec Fixture.A (Some 0) (Some 5) 1])) as H.
  destruct (add Fixture.ureg _ _ _ _ _ _) as [r w'] eqn:E.
  exists r, w'. split; [reflexivity|]. split; [|by apply (H _ _ Hb eq_refl)].
  vm_compute in E. by inversion E.
Defined.

(** * The constructor *)

(** No construction moves the counter back. *)
Lemma init_counter apparatus_ name_ description_ n r n' :
  __init__ apparatus_ name_ description_ n = (r, n') → (n ≤ n')%nat.
Proof.
  unfold __init__. destruct apparatus_ as [a [|]|v], name_ as [nm|]; simpl;
    intros [= <- <-]; lia.
Qed.

(** X22.  Protocols constructed without a name get different names,
    whatever is constructed in between: the counter behind the default
    name is used by a successful unnamed construction only, which
    advances it, and no construction moves it back.  A construction that
    raises, or one with a name, leaves the counter. *)
Theorem init_default_names_distinct (a1 a2 : apparatus_arg)
    (d1 d2 : option string) (n n1 m m1 : nat) (p1 p2 : new_protocol) :
  __init__ a1 None d1 n = (inr p1, n1) →
  (n1 ≤ m)%nat →
  __init__ a2 None d2 m = (inr p2, m1) →
  np_name p1 ≠ np_name p2 ∧ n1 = S n ∧ m1 = S m.
Proof.
  unfold __init__. destruct a1 as [a1 [|]|v1]; simpl; intros [= <- <-]; try done.
  destruct a2 as [a2 [|]|v2]; simpl; intros Hle [= <- <-]; try done.
  simpl. split; [|done]. intros [= Heq]. apply (inj (String.append EmptyString)) in Heq.
  apply (inj pretty) in Heq. lia.
Qed.

Lemma init_default_names_distinct_witness :
  ∃ p1 p2,
    __init__ (AnApparatus (Fixture.rig [Fixture.A]) true) None None 0 = (inr p1, 1%nat)
    ∧ (1 ≤ 1)%nat
    ∧ __init__ (AnApparatus (Fixture.rig [Fixture.B]) true) None (Some "second") 1
      = (inr p2, 2%nat)
    ∧ np_name p1 = "Protocol_0" ∧ np_name p2 = "Protocol_1"
    ∧ np_name p1 ≠ np_name p2.
Proof.
  eexists _, _. split; [reflexivity|]. split; [lia|]. split; [reflexivity|].
  split; [by vm_compute|]. split; [by vm_compute|].
  eapply (init_default_names_distinct
            (AnApparatus (Fixture.rig [Fixture.A]) true)
            (AnApparatus (Fixture.rig [Fixture.B]) true)
            None (Some "second") 0 1 1 2); [reflexivity|lia|reflexivity].
Defined.

(** * Records that start at zero *)

(** The turn of an active component in a successful [compile]: its
    references are sorted and its inference loop returns, in a store that
    differs from the first one within [frame]. *)
Lemma compile_components_turn dry_run viz cs :
  ∀ output w out w',
    compile_components dry_run viz cs output w = (Ok out, w') →
    ∀ c, c ∈ cs →
      ∃ wk cps, frame (procedures (self w)) (procedures (self wk))
                ∧ component_procedures c wk = (Ok cps, wk)
                ∧ ∃ w1, infer_stops c cps wk = (Ok (), w1).
Proof.
  induction cs as [|c0 cs IH]; intros output w out w' E c Hc.
  { by apply elem_of_nil in Hc. }
  apply compile_components_cons_ok in E as (cps & E1 & [[-> E2]|(Hne & _ & E2)]).
  - apply elem_of_cons in Hc as [->|Hc].
    + exists w, []. split; [apply frame_refl|]. split; [done|]. by exists w.
    + destruct (IH _ _ _ _ E2 c Hc) as (wk & cps & Hfr & Hrest).
      exists wk, cps. split; [exact Hfr|done].
  - destruct E2 as (w1 & w2 & compiled & E3 & E4 & Hw2 & E5).
    apply elem_of_cons in Hc as [->|Hc].
    + exists w, cps. split; [apply frame_refl|]. split; [done|]. by exists w1.
    + destruct (IH _ _ _ _ E5 c Hc) as (wk & cps' & Hfr & Hrest).
      exists wk, cps'. split; [|done].
      eapply frame_trans; [|exact Hfr]. rewrite Hw2.
      by apply (framed_infer_stops _ _ _ _ _ E3).
Qed.

(** The inference loop returns only if no record after the first starts
    at zero. *)
Lemma infer_stops_successor_nonzero c cps :
  ∀ w w1,
    infer_stops c cps w = (Ok (), w1) →
    ∀ k j y, cps !! S k = Some j → procedures (self w) !! j = Some y →
             eq_zero (start y) = false.
Proof.
  induction cps as [|i rest IH]; intros w w1 E k j y Hk Hj; [done|].
  simpl in E.
  destruct (bind_inv _ _ _ _ _ E) as [([] & wa & E1 & E2)|(e & _ & [=])]; clear E.
  simpl in Hk. destruct k as [|k].
  - destruct rest as [|j' rest']; [done|]. simpl in Hk. inversion Hk; subst j'.
    simpl in E1. unfold infer_stop in E1.
    destruct (bind_inv _ _ _ _ _ E1) as [(x & wb & D1 & D2)|(e & _ & [=])]; clear E1.
    apply deref_inv in D1 as [-> _].
    destruct (bind_inv _ _ _ _ _ D2) as [(y' & wc & D3 & D4)|(e & _ & [=])]; clear D2.
    apply deref_inv in D3 as [-> Hy']. rewrite Hj in Hy'. inversion Hy'; subst y'.
    by destruct (eq_zero (start y)).
  - pose proof (framed_infer_stop _ _ _ _ _ _ E1) as (_ & _ & _ & Hfa).
    destruct (frame_lookup _ _ _ _ Hfa Hj) as (y' & Hy' & Hs & _).
    rewrite <- Hs. by eapply (IH _ _ E2 k j).
Qed.

(** X23.  After a successful [compile], a record of an active component
    that starts at zero is the earliest of its component, and the only one
    at zero: every other record of the component starts strictly later.
    So two records of one component that both start at zero, or one at
    zero after a negative start, make [compile] fail. *)
Theorem compile_zero_start_is_earliest (dry_run _visualization : bool) (w : world)
    (out : timelines) (w' : world) (i j : nat) (r r' : procedure) :
  compile dry_run _visualization w = (Ok out, w') →
  component r ∈ _active_components (apparatus (self w)) →
  procedures (self w) !! i = Some r →
  procedures (self w) !! j = Some r' →
  i ≠ j → component r' = component r →
  eq_zero (start r') = true →
  ∃ s, start r = Some s ∧ 0 < s.
Proof.
  intros E Hc Hi Hj Hij Hcomp Hzero.
  apply compile_ok_inv in E as [_ E].
  destruct (compile_components_turn _ _ _ _ _ _ _ E _ Hc)
    as (wk & cps & Hfr & Hcps & w1 & Hinf).
  destruct (frame_lookup _ _ _ _ Hfr Hi) as (x & Hx & Hsx & Hcx & _).
  destruct (frame_lookup _ _ _ _ Hfr Hj) as (x' & Hx' & Hsx' & Hcx' & _).
  apply component_procedures_sorted in Hcps as (l & -> & Hperm & Hsorted).
  assert ((i, x) ∈ l) as Hil by (rewrite Hperm; by apply elem_of_refs_of).
  assert ((j, x') ∈ l) as Hjl
    by (rewrite Hperm; apply elem_of_refs_of; split; [done|congruence]).
  apply list_elem_of_lookup in Hil as [a Ha].
  apply list_elem_of_lookup in Hjl as [b Hb].
  assert (a ≠ b) as Hab by (intros ->; congruence).
  assert (b = 0%nat) as ->.
  { destruct b as [|b]; [done|]. exfalso.
    assert (eq_zero (start x') = false) as Hnz.
    { eapply (infer_stops_successor_nonzero _ _ _ _ Hinf b j); [|exact Hx'].
      by rewrite list_lookup_fmap, Hb. }
    rewrite Hsx', Hzero in Hnz. done. }
  destruct a as [|a]; [done|].
  assert (eq_zero (start x) = false) as Hnz.
  { eapply (infer_stops_successor_nonzero _ _ _ _ Hinf a i); [|exact Hx].
    by rewrite list_lookup_fmap, Ha. }
  destruct l as [|h l]; [done|]. simpl in Ha, Hb. inversion Hb; subst h.
  apply StronglySorted_inv in Hsorted as [_ Hall].
  rewrite Forall_forall in Hall.
  specialize (Hall _ (list_elem_of_lookup_2 _ _ _ Ha)). simpl in Hall.
  unfold start_le in Hall. rewrite Hsx, Hsx' in *.
  destruct (start r') as [s'|]; [|done]. destruct (start r) as [s|]; [|done].
  exists s. split; [done|]. simpl in Hzero, Hnz.
  apply Qeq_bool_iff in Hzero.
  assert (¬ s == 0) as Hs by (intros Hs%Qeq_bool_iff; congruence).
  rewrite Hzero in Hall. apply Qle_lt_or_eq in Hall as [?|Heq]; [done|].
  by symmetry in Heq.
Qed.

Lemma compile_zero_start_is_earliest_witness :
  ∃ out w',
    compile true true (Sample.world_of [Fixture.A; Fixture.B] Fixture.staggered)
    = (Ok out, w')
    ∧ Fixture.B ∈ [Fixture.A; Fixture.B]
    ∧ Fixture.staggered !! 2%nat = Some (Fixture.rec Fixture.B (Some 3) None 2)
    ∧ Fixture.staggered !! 0%nat = Some (Fixture.rec Fixture.B (Some 0) (Some 0) 0)
    ∧ eq_zero (start (Fixture.rec Fixture.B (Some 0) (Some 0) 0)) = true
    ∧ ∃ s, start (Fixture.rec Fixture.B (Some 3) None 2) = Some s ∧ 0 < s.
Proof.
  pose proof (compile_zero_start_is_earliest true true
    (Sample.world_of [Fixture.A; Fixture.B] Fixture.staggered)) as H.
  destruct (compile true true _) as [r w'] eqn:E. vm_compute in E.
  inversion E; subst. eexists _, _. split; [reflexivity|].
  assert (Fixture.B ∈ [Fixture.A; Fixture.B]) as Hin by (right; left).
  split; [exact Hin|]. split; [reflexivity|]. split; [reflexivity|].
  split; [reflexivity|].
  apply (H _ _ 2%nat 0%nat (Fixture.rec Fixture.B (Some 3) None 2)
           (Fixture.rec Fixture.B (Some 0) (Some 0) 0) eq_refl Hin
           eq_refl eq_refl); [lia|reflexivity|reflexivity].
Defined.
